(** * A skew-heap priority queue with rollback on comparison failure

    Shallow embedding of [src/priority_queue.hpp] (namespace [sjtu]).

    The C++ class keeps its elements in heap-allocated [Node]s linked by raw
    pointers, and several [priority_queue] objects may exchange nodes through
    [merge].  The model therefore keeps one store of nodes indexed by
    address, one store of queue objects indexed by the address of the queue,
    and threads both through every function, together with the state on
    which the caller's comparison and the allocator depend.  A C++ exception
    is an outcome of its own, and the store it leaves behind is kept, since
    the claims under study are about that store. *)

From stdpp Require Import functions gmap list.
From Equations Require Import Equations.

Local Open Scope Z_scope.

(** ** Exceptions *)

(** Modelled from the spec: [exceptions.hpp] is not among the sources.  The
    spec names an empty-queue error and a "recognized comparison failure"
    ([sjtu::runtime_error], the class the handlers of [push], [pop] and
    [merge] catch by reference); an allocation failure is [std::bad_alloc];
    everything else the caller's code may throw is [user_exn], which records
    whether its class derives from [sjtu::runtime_error]. *)
Inductive exn : Type :=
| container_is_empty
| runtime_error
| bad_alloc
| user_exn (derives_runtime_error : bool) (tag : nat).

(** What [catch (const runtime_error &)] catches. *)
Definition is_runtime_error (e : exn) : bool :=
  match e with
  | runtime_error => true
  | user_exn d _ => d
  | _ => false
  end.

#[global] Instance exn_eq_dec : EqDecision exn.
Proof. solve_decision. Defined.

(** ** Addresses and machine integers *)

(** A node address; [None] is the null pointer. *)
Abbreviation loc := positive.
Abbreviation ptr := (option positive).
(** The address of a [priority_queue] object ([this], [&other]). *)
Abbreviation qid := nat.

(** [std::size_t] is a 64-bit unsigned integer. *)
Definition size_t_mod : Z := 2 ^ 64.
Definition size_t_add (a b : Z) : Z := (a + b) mod size_t_mod.
Definition size_t_sub (a b : Z) : Z := (a - b) mod size_t_mod.
Definition size_t_mul (a b : Z) : Z := (a * b) mod size_t_mod.

(** Node addresses are addresses of the same 64-bit machine. *)
Definition valid_addr (l : loc) : bool := bool_decide (Z.pos l < size_t_mod).

(** ** Outcomes *)

(** [Fault] is undefined behaviour (a null or dangling dereference, a double
    free); [OutOfFuel] is a recursion or a loop cut off by the model. *)
Inductive outcome (A : Type) : Type :=
| Ok (a : A)
| Throw (e : exn)
| Fault
| OutOfFuel.
Arguments Ok {A} a.
Arguments Throw {A} e.
Arguments Fault {A}.
Arguments OutOfFuel {A}.

(** How a call of a [noexcept] function ends.  It returns; or an exception
    tries to leave it and the program ends there, with [std::terminate]: no
    handler sees that exception, and nothing runs after it.  [Undefined] and
    [Unfinished] are the [Fault] and the [OutOfFuel] of the body. *)
Inductive ending (A : Type) : Type :=
| Returned (a : A)
| Terminated
| Undefined
| Unfinished.
Arguments Returned {A} a.
Arguments Terminated {A}.
Arguments Undefined {A}.
Arguments Unfinished {A}.

Declare Scope pq_scope.
Delimit Scope pq_scope with pq.

Module sjtu.

Section priority_queue.

(** [T] is the element type, [Compare] the type of the comparison object,
    [cstate] whatever mutable state the comparison reads and writes when it
    is called (a call counter, a flag that makes it throw).  A call
    [comp(x, y)] returns [true] or [false], or throws. *)
Context {T Compare cstate : Type}.
Variable call : Compare → cstate → T → T → cstate * (exn + bool).

(** *** Node *)
Record Node : Type := mkNode {
  value : T;
  left : ptr;
  right : ptr
}.

(** *** priority_queue *)
Record priority_queue : Type := mkQueue {
  root : ptr;
  elementCount : Z;
  comp : Compare
}.

(** *** The machine state

    [plan] is the allocator's script: every [new] consumes its head, which
    either makes the [new] expression throw (no memory, or the element's copy
    constructor failed), or names the address handed out.  An exhausted script
    is exhausted memory. *)
Record state : Type := mkState {
  nodes : gmap loc Node;
  queues : gmap qid priority_queue;
  cmp_st : cstate;
  plan : list (exn + loc)
}.

Definition set_nodes (h : gmap loc Node) (s : state) : state :=
  mkState h (queues s) (cmp_st s) (plan s).
Definition set_queues (q : gmap qid priority_queue) (s : state) : state :=
  mkState (nodes s) q (cmp_st s) (plan s).
Definition set_cmp_st (c : cstate) (s : state) : state :=
  mkState (nodes s) (queues s) c (plan s).
Definition set_plan (p : list (exn + loc)) (s : state) : state :=
  mkState (nodes s) (queues s) (cmp_st s) p.

(** *** The monad of the model: state passing with outcomes *)
Definition M (A : Type) : Type := state → state * outcome A.

Definition ret {A} (a : A) : M A := λ s, (s, Ok a).
Definition throw {A} (e : exn) : M A := λ s, (s, Throw e).
Definition fault {A} : M A := λ s, (s, Fault).
Definition out_of_fuel {A} : M A := λ s, (s, OutOfFuel).

Definition bind {A B} (m : M A) (k : A → M B) : M B := λ s,
  match m s with
  | (s', Ok a) => k a s'
  | (s', Throw e) => (s', Throw e)
  | (s', Fault) => (s', Fault)
  | (s', OutOfFuel) => (s', OutOfFuel)
  end.

(** [try { body } catch (...) { handler }] *)
Definition try_catch {A} (body : M A) (handler : exn → M A) : M A := λ s,
  match body s with
  | (s', Throw e) => handler e s'
  | r => r
  end.

Notation "x <- m ;; k" := (bind m (λ x, k))
  (at level 100, m at next level, right associativity) : pq_scope.
Notation "m ;;; k" := (bind m (λ _, k))
  (at level 100, right associativity) : pq_scope.
Local Open Scope pq_scope.

(** *** Memory primitives *)

(** Reading through a pointer that is not a live node is undefined. *)
Definition get_node (l : loc) : M Node := λ s,
  match nodes s !! l with
  | Some n => (s, Ok n)
  | None => (s, Fault)
  end.

Definition get_value (l : loc) : M T := n <- get_node l;; ret (value n).
Definition get_left (l : loc) : M ptr := n <- get_node l;; ret (left n).
Definition get_right (l : loc) : M ptr := n <- get_node l;; ret (right n).

Definition put_node (l : loc) (n : Node) : M unit := λ s,
  (set_nodes (<[l:=n]> (nodes s)) s, Ok tt).

Definition set_left (l : loc) (p : ptr) : M unit :=
  n <- get_node l;; put_node l (mkNode (value n) p (right n)).
Definition set_right (l : loc) (p : ptr) : M unit :=
  n <- get_node l;; put_node l (mkNode (value n) (left n) p).

(** [new Node(v)]: both children null. *)
Definition new_Node (v : T) : M loc := λ s,
  match plan s with
  | [] => (s, Throw bad_alloc)
  | inl e :: rest => (set_plan rest s, Throw e)
  | inr l :: rest =>
      match nodes s !! l with
      | None =>
          if valid_addr l
          then (set_plan rest (set_nodes (<[l:=mkNode v None None]> (nodes s)) s), Ok l)
          else (set_plan rest s, Throw bad_alloc)
      | Some _ => (set_plan rest s, Throw bad_alloc)
      end
  end.

(** [delete p] for a single node. *)
Definition delete_Node (l : loc) : M unit := λ s,
  match nodes s !! l with
  | Some _ => (set_nodes (delete l (nodes s)) s, Ok tt)
  | None => (s, Fault)
  end.

(** [new Node*[cap]]: an array of pointers lives outside the node store and
    has no constructor to fail, so it throws [std::bad_alloc] or nothing.  A
    [cap] whose size in bytes, eight per pointer, does not fit [size_t] never
    reaches the allocator: the expression throws [std::bad_array_new_length],
    which is a [std::bad_alloc]. *)
Definition new_array (cap : Z) : M unit := λ s,
  if bool_decide (size_t_mod ≤ cap * 8) then (s, Throw bad_alloc)
  else
    match plan s with
    | [] => (s, Throw bad_alloc)
    | inl _ :: rest => (set_plan rest s, Throw bad_alloc)
    | inr _ :: rest => (set_plan rest s, Ok tt)
    end.

(** [comp(x, y)] *)
Definition compare (c : Compare) (x y : T) : M bool := λ s,
  match call c (cmp_st s) x y with
  | (cs, inl e) => (set_cmp_st cs s, Throw e)
  | (cs, inr b) => (set_cmp_st cs s, Ok b)
  end.

Definition get_queue (q : qid) : M priority_queue := λ s,
  match queues s !! q with
  | Some o => (s, Ok o)
  | None => (s, Fault)
  end.

Definition put_queue (q : qid) (o : priority_queue) : M unit := λ s,
  (set_queues (<[q:=o]> (queues s)) s, Ok tt).

Definition set_root (q : qid) (p : ptr) : M unit :=
  o <- get_queue q;; put_queue q (mkQueue p (elementCount o) (comp o)).
Definition set_elementCount (q : qid) (n : Z) : M unit :=
  o <- get_queue q;; put_queue q (mkQueue (root o) n (comp o)).
Definition set_comp (q : qid) (c : Compare) : M unit :=
  o <- get_queue q;; put_queue q (mkQueue (root o) (elementCount o) c).

(** *** MergeGuard *)
Record MergeGuard : Type := mkGuard {
  node : ptr;
  origLeft : ptr;
  origRight : ptr;
  active : bool
}.

(** The constructor snapshots both children of a non-null node. *)
Definition MergeGuard_new (n : ptr) : M MergeGuard :=
  match n with
  | Some l =>
      ol <- get_left l;;
      or <- get_right l;;
      ret (mkGuard n ol or true)
  | None => ret (mkGuard None None None true)
  end.

Definition commit (g : MergeGuard) : MergeGuard :=
  mkGuard (node g) (origLeft g) (origRight g) false.

(** The destructor restores the snapshot while the guard is active. *)
Definition MergeGuard_dtor (g : MergeGuard) : M unit :=
  if active g then
    match node g with
    | Some l => set_left l (origLeft g);;; set_right l (origRight g)
    | None => ret tt
    end
  else ret tt.

(** The scope of a guard: the destructor runs when the scope is left, by a
    return (with the guard as the body left it) or by an exception (the body
    commits only in its last statement, so the guard is as constructed). *)
Definition with_guard {A} (g : MergeGuard) (body : M (MergeGuard * A)) : M A := λ s,
  match body s with
  | (s', Ok (g', a)) => (MergeGuard_dtor g';;; ret a) s'
  | (s', Throw e) => (MergeGuard_dtor g;;; throw e) s'
  | (s', Fault) => (s', Fault)
  | (s', OutOfFuel) => (s', OutOfFuel)
  end.

(** *** merge_nodes *)

(** [fuel] bounds the depth of the recursion. *)
Fixpoint merge_nodes_rec (fuel : nat) (c : Compare) (a b : ptr) : M ptr :=
  match a, b with
  | None, _ => ret b
  | _, None => ret a
  | Some la, Some lb =>
      match fuel with
      | O => out_of_fuel
      | S fuel =>
          va <- get_value la;;
          vb <- get_value lb;;
          below <- compare c va vb;;
          let '(a, b) := if below : bool then (lb, la) else (la, lb) in
          guard <- MergeGuard_new (Some a);;
          with_guard guard (
            ar <- get_right a;;
            newRight <- merge_nodes_rec fuel c ar (Some b);;
            set_right a newRight;;;
            tmpChild <- get_left a;;
            r <- get_right a;;
            set_left a r;;;
            set_right a tmpChild;;;
            ret (commit guard, Some a))
      end
  end.

(** Every recursive call leaves at least one live node behind, so the number
    of live nodes is fuel enough. *)
Definition merge_nodes (c : Compare) (a b : ptr) : M ptr := λ s,
  merge_nodes_rec (size (nodes s)) c a b s.

(** *** clear_nodes *)

(** The work stack is a list whose head is [stack[top - 1]]; [top] is its
    length and [cap] the capacity of the array that holds it. *)
Definition stack_push (x : loc) (stack : list loc) (cap : Z) : M (list loc * Z) :=
  let top := Z.of_nat (length stack) in
  cap <- (if bool_decide (cap ≤ size_t_add top 1)
          then (let newCap := size_t_mul cap 2 in
                new_array newCap;;; ret newCap)
          else ret cap);;
  if bool_decide (top < cap) then ret (x :: stack, cap) else fault.

Definition push_child (child : ptr) (stack : list loc) (cap : Z) : M (list loc * Z) :=
  match child with
  | Some x => stack_push x stack cap
  | None => ret (stack, cap)
  end.

Fixpoint clear_nodes_loop (fuel : nat) (stack : list loc) (cap : Z) : M unit :=
  match stack with
  | [] => ret tt
  | cur :: stack =>
      match fuel with
      | O => out_of_fuel
      | S fuel =>
          l <- get_left cur;;
          sc <- push_child l stack cap;;
          r <- get_right cur;;
          sc <- push_child r sc.1 sc.2;;
          delete_Node cur;;;
          clear_nodes_loop fuel sc.1 sc.2
      end
  end.

(** One iteration frees one live node. *)
Definition clear_nodes (n : ptr) : M unit :=
  match n with
  | None => ret tt
  | Some l =>
      let cap := 1024 in
      new_array cap;;;
      (λ s, clear_nodes_loop (size (nodes s)) [l] cap s)
  end.

(** *** clone_nodes *)
Fixpoint clone_nodes_rec (fuel : nat) (n : ptr) : M ptr :=
  match n with
  | None => ret None
  | Some l =>
      match fuel with
      | O => out_of_fuel
      | S fuel =>
          v <- get_value l;;
          copy <- new_Node v;;
          try_catch (
            nl <- get_left l;;
            cl <- clone_nodes_rec fuel nl;;
            set_left copy cl;;;
            nr <- get_right l;;
            cr <- clone_nodes_rec fuel nr;;
            set_right copy cr)
            (λ e, clear_nodes (Some copy);;; throw e);;;
          ret (Some copy)
      end
  end.

(** The recursion follows the source tree, whose nodes are live on entry. *)
Definition clone_nodes (n : ptr) : M ptr := λ s,
  clone_nodes_rec (size (nodes s)) n s.

(** *** The public operations *)

(** The two handlers of [push], [pop] and [merge]: a [runtime_error] is
    rethrown as it is, anything else becomes a fresh [runtime_error]. *)
Definition rethrow {A} (e : exn) : M A :=
  if is_runtime_error e then throw e else throw runtime_error.

Definition size (this : qid) : M Z :=
  o <- get_queue this;; ret (elementCount o).

Definition empty (this : qid) : M bool :=
  o <- get_queue this;; ret (bool_decide (elementCount o = 0)).

Definition top (this : qid) : M T :=
  e <- empty this;;
  if e : bool then throw container_is_empty
  else
    o <- get_queue this;;
    match root o with
    | Some l => get_value l
    | None => fault
    end.

(** [node] is assigned inside the [try] block: when [new Node(e)] throws it
    is still null and the handlers free nothing. *)
Definition push (this : qid) (e : T) : M unit := λ s,
  match new_Node e s with
  | (s1, Ok node) =>
      try_catch (
        o <- get_queue this;;
        merged <- merge_nodes (comp o) (root o) (Some node);;
        set_root this merged;;;
        o <- get_queue this;;
        set_elementCount this (size_t_add (elementCount o) 1))
        (λ ex,
          set_right node None;;;
          set_left node None;;;
          delete_Node node;;;
          rethrow ex) s1
  | (s1, Throw ex) => rethrow ex s1
  | (s1, Fault) => (s1, Fault)
  | (s1, OutOfFuel) => (s1, OutOfFuel)
  end.

Definition pop (this : qid) : M unit :=
  e <- empty this;;
  if e : bool then throw container_is_empty
  else
    o <- get_queue this;;
    match root o with
    | None => fault
    | Some oldRoot =>
        l <- get_left oldRoot;;
        r <- get_right oldRoot;;
        try_catch (
          merged <- merge_nodes (comp o) l r;;
          set_root this merged;;;
          set_right oldRoot None;;;
          set_left oldRoot None;;;
          delete_Node oldRoot;;;
          o <- get_queue this;;
          set_elementCount this (size_t_sub (elementCount o) 1))
          rethrow
    end.

Definition merge (this other : qid) : M unit :=
  if decide (this = other) then ret tt
  else
    try_catch (
      o <- get_queue this;;
      p <- get_queue other;;
      merged <- merge_nodes (comp o) (root o) (root p);;
      set_root this merged;;;
      o <- get_queue this;;
      p <- get_queue other;;
      set_elementCount this (size_t_add (elementCount o) (elementCount p));;;
      set_root other None;;;
      set_elementCount other 0)
      rethrow.

(** The default constructor, for an object at address [this]. *)
Definition construct (this : qid) (c : Compare) : M unit :=
  put_queue this (mkQueue None 0 c).

(** The copy constructor, for an object at address [this]: the members are
    initialised from [other], then the body clones a non-null root.  The
    object exists once the constructor has returned; an exception of the
    clone leaves none. *)
Definition copy_construct (this other : qid) : M unit :=
  p <- get_queue other;;
  newRoot <- match root p with
             | Some _ => clone_nodes (root p)
             | None => ret None
             end;;
  put_queue this (mkQueue newRoot (elementCount p) (comp p)).

(** [operator=] *)
Definition assign (this other : qid) : M unit :=
  if decide (this = other) then ret tt
  else
    p <- get_queue other;;
    newRoot <- try_catch
      (match root p with
       | Some _ => clone_nodes (root p)
       | None => ret None
       end)
      throw;;
    o <- get_queue this;;
    clear_nodes (root o);;;
    set_root this newRoot;;;
    p <- get_queue other;;
    set_elementCount this (elementCount p);;;
    set_comp this (comp p).

(** The end of the lifetime of the object at [this]. *)
Definition drop_queue (this : qid) : M unit := λ s,
  (set_queues (delete this (queues s)) s, Ok tt).

(** A body run under [noexcept].  The result is no run of [M]: it cannot be
    sequenced with other calls or put under a handler.  After [Terminated]
    the state is the one in which the program ended. *)
Definition noexcept {A} (body : M A) (s : state) : state * ending A :=
  match body s with
  | (s', Ok a) => (s', Returned a)
  | (s', Throw _) => (s', Terminated)
  | (s', Fault) => (s', Undefined)
  | (s', OutOfFuel) => (s', Unfinished)
  end.

(** The body of the destructor, for the object at address [this]. *)
Definition destroy_body (this : qid) : M unit :=
  o <- get_queue this;;
  clear_nodes (root o);;;
  set_root this None;;;
  set_elementCount this 0.

(** The destructor.  It has no exception specification, so it is [noexcept]
    (the members are a pointer, a [size_t] and the comparison object, whose
    own destructor is taken not to throw, as that of [std::less]): an
    exception that leaves the body ends the program.  When the body returns
    the lifetime of the object ends. *)
Definition destroy (this : qid) (s : state) : state * ending unit :=
  noexcept (destroy_body this;;; drop_queue this) s.

(** ** The trees behind the pointers *)

(** The shape a pointer structure has: every node with its address. *)
Inductive tree : Type :=
| Nil
| Tr (l : loc) (v : T) (tl tr : tree).

Definition root_of (t : tree) : ptr :=
  match t with
  | Nil => None
  | Tr l _ _ _ => Some l
  end.

Fixpoint locs (t : tree) : list loc :=
  match t with
  | Nil => []
  | Tr l _ a b => l :: locs a ++ locs b
  end.

Fixpoint elems (t : tree) : list T :=
  match t with
  | Nil => []
  | Tr _ v a b => v :: elems a ++ elems b
  end.

Definition tsize (t : tree) : nat := length (locs t).

(** [stored h t]: the store [h] holds every node of [t], linked as in [t]. *)
Fixpoint stored (h : gmap loc Node) (t : tree) : Prop :=
  match t with
  | Nil => True
  | Tr l v a b =>
      h !! l = Some (mkNode v (root_of a) (root_of b)) ∧ stored h a ∧ stored h b
  end.

(** *** The reference skew-heap merge, after the words of the specification

    "whichever node is not ordered-below the other becomes the surviving top
    node (ties: the first argument wins)"; "recursively merge [a]'s right
    child with [b] ...; install it as [a]'s new right child"; "swap [a]'s left
    and right children"; "return [a]".  The comparison is the only step that
    may fail, and a failure is the result of the whole merge. *)
Definition right_child (t : tree) : tree :=
  match t with
  | Nil => Nil
  | Tr _ _ _ r => r
  end.

Definition install_right (t r : tree) : tree :=
  match t with
  | Nil => Nil
  | Tr l v a _ => Tr l v a r
  end.

Definition swap_children (t : tree) : tree :=
  match t with
  | Nil => Nil
  | Tr l v a b => Tr l v b a
  end.

Equations? skew_merge (c : Compare) (cs : cstate) (a b : tree)
  : cstate * (exn + tree) by wf (tsize a + tsize b)%nat lt :=
skew_merge c cs Nil b := (cs, inr b);
skew_merge c cs a Nil := (cs, inr a);
skew_merge c cs (Tr la va al ar) (Tr lb vb bl br) with call c cs va vb := {
  | (cs1, inl e) => (cs1, inl e)
  | (cs1, inr true) with skew_merge c cs1 br (Tr la va al ar) := {
      | (cs2, inl e) => (cs2, inl e)
      | (cs2, inr m) =>
          (cs2, inr (swap_children (install_right (Tr lb vb bl br) m))) }
  | (cs1, inr false) with skew_merge c cs1 ar (Tr lb vb bl br) := {
      | (cs2, inl e) => (cs2, inl e)
      | (cs2, inr m) =>
          (cs2, inr (swap_children (install_right (Tr la va al ar) m))) } }.
Proof.
  all: unfold tsize; simpl; rewrite ?length_app; simpl; lia.
Qed.

(** ** The vocabulary of the claims

    What follows is not in the source: the trees, invariants, operations and
    observations in which the claims are stated. *)

(** *** Runs of the merge *)

(** What the reference merge does with the result of its recursive call. *)
Definition graft (l : loc) (v : T) (al : tree) (r : cstate * (exn + tree))
  : cstate * (exn + tree) :=
  match r with
  | (cs2, inl e) => (cs2, inl e)
  | (cs2, inr m) => (cs2, inr (Tr l v m al))
  end.

(** The state a run of [merge_nodes] leaves: only the nodes and the state of
    the comparison may differ. *)
Definition after_merge (h : gmap loc Node) (cs : cstate) (s : state) : state :=
  mkState h (queues s) cs (plan s).

(** A run [m s] that behaves as the result [r] of a reference merge: on a
    failure the store is the one before the run; on success the store holds
    the merged tree and differs from the store before at most on [fr]. *)
Definition run_as (m : M ptr) (s : state) (fr : list loc)
    (r : cstate * (exn + tree)) : Prop :=
  match r with
  | (cs', inl e) => m s = (after_merge (nodes s) cs' s, Throw e)
  | (cs', inr t) =>
      ∃ h, m s = (after_merge h cs' s, Ok (root_of t))
        ∧ stored h t
        ∧ (∀ l, l ∉ fr → h !! l = nodes s !! l)
        ∧ dom h = dom (nodes s)
  end.

(** What [merge_nodes_rec] does on two stored trees, read off the reference
    merge [r] of the two trees. *)
Definition merge_run (fuel : nat) (c : Compare) (a b : tree) (s : state)
    (r : cstate * (exn + tree)) : Prop :=
  run_as (merge_nodes_rec fuel c (root_of a) (root_of b)) s (locs a ++ locs b) r.

(** The exception a handler of [push], [pop] or [merge] lets out. *)
Definition rethrown (e : exn) : exn :=
  if is_runtime_error e then e else runtime_error.

(** *** The invariant of the store *)

(** [models sh s]: every queue [q] of the state [s] holds the tree [sh q].
    Live nodes have machine addresses; the root and the count of a queue are
    those of its tree; the tree is in the store, without sharing; the trees of
    two queues share no node. *)
Record models (sh : qid → tree) (s : state) : Prop := mkModels {
  models_valid : ∀ l, is_Some (nodes s !! l) → valid_addr l = true;
  models_root : ∀ q o, queues s !! q = Some o → root o = root_of (sh q);
  models_count : ∀ q o, queues s !! q = Some o →
    elementCount o = Z.of_nat (tsize (sh q));
  models_stored : ∀ q, is_Some (queues s !! q) → stored (nodes s) (sh q);
  models_NoDup : ∀ q, is_Some (queues s !! q) → NoDup (locs (sh q));
  models_disjoint : ∀ q1 q2, q1 ≠ q2 →
    is_Some (queues s !! q1) → is_Some (queues s !! q2) →
    ∀ l, l ∈ locs (sh q1) → l ∉ locs (sh q2)
}.

(** The well-formed states. *)
Definition wf (s : state) : Prop := ∃ sh, models sh s.

(** *** Reachable nodes and the tree of a queue *)

(** [reach h p x]: the node at [x] is reachable from the pointer [p]. *)
Inductive reach (h : gmap loc Node) : ptr → loc → Prop :=
| reach_here l n : h !! l = Some n → reach h (Some l) l
| reach_left l n x : h !! l = Some n → reach h (left n) x → reach h (Some l) x
| reach_right l n x : h !! l = Some n → reach h (right n) x → reach h (Some l) x.

(** [contents s q t]: the pointer structure of the queue [q] is the tree
    [t]. *)
Definition contents (s : state) (q : qid) (t : tree) : Prop :=
  ∃ o, queues s !! q = Some o ∧ root o = root_of t ∧ stored (nodes s) t.

(** *** Copies, and the forest that [clear_nodes] works through *)

(** The same shape with the same values, at whatever addresses. *)
Fixpoint same_values (t t' : tree) : Prop :=
  match t, t' with
  | Nil, Nil => True
  | Tr _ v a b, Tr _ v' a' b' => v = v' ∧ same_values a a' ∧ same_values b b'
  | _, _ => False
  end.

(** The work stack of [clear_nodes] holds the roots of a forest: the trees
    still to free, the next one first. *)
Fixpoint stack_of (ts : list tree) : list loc :=
  match ts with
  | [] => []
  | Nil :: ts => stack_of ts
  | Tr l _ _ _ :: ts => l :: stack_of ts
  end.

Fixpoint forest_locs (ts : list tree) : list loc :=
  match ts with
  | [] => []
  | t :: ts => locs t ++ forest_locs ts
  end.

(** The capacity of a work stack of [top] entries. *)
Definition cap_ok (top : nat) (cap : Z) : Prop :=
  Z.of_nat top < cap ∧ cap * 8 < size_t_mod.

(** The stores a run leaves, but for the allocator's script. *)
Definition same_stores (s s' : state) : Prop :=
  nodes s' = nodes s ∧ queues s' = queues s ∧ cmp_st s' = cmp_st s.

(** [granted n pl]: the script [pl] grants the next [n] allocations. *)
Fixpoint granted (n : nat) (pl : list (exn + loc)) : Prop :=
  match n, pl with
  | O, _ => True
  | S n, inr _ :: pl => granted n pl
  | S _, _ => False
  end.


(** *** Operations and reachable states *)

Inductive op : Type :=
| Push (q : qid) (e : T)
| Pop (q : qid)
| Merge (q other : qid)
| Top (q : qid)
| Size (q : qid)
| Empty (q : qid).

(** Running an operation; the value a query returns is dropped. *)
Definition run_op (o : op) : M unit :=
  match o with
  | Push q e => push q e
  | Pop q => pop q
  | Merge q other => merge q other
  | Top q => top q;;; ret tt
  | Size q => size q;;; ret tt
  | Empty q => empty q;;; ret tt
  end.

(** The operation is called on queue objects that exist. *)
Definition op_valid (o : op) (s : state) : Prop :=
  match o with
  | Push q _ | Pop q | Top q | Size q | Empty q => is_Some (queues s !! q)
  | Merge q other => is_Some (queues s !! q) ∧ is_Some (queues s !! other)
  end.

(** The same stores in another environment: another state of the comparison,
    another script of the allocator. *)
Definition with_env (cs : cstate) (pl : list (exn + loc)) (s : state) : state :=
  mkState (nodes s) (queues s) cs pl.

(** The states a program can reach: it constructs queues, calls operations
    on them (which succeed or fail), copies queues by construction and by
    assignment, and the environment moves on. *)
Inductive reachable : state → Prop :=
| reachable_init cs pl : reachable (mkState ∅ ∅ cs pl)
| reachable_construct s q c :
    reachable s → queues s !! q = None → reachable (construct q c s).1
| reachable_op s o : reachable s → op_valid o s → reachable (run_op o s).1
| reachable_copy s q other :
    reachable s → queues s !! q = None → is_Some (queues s !! other) →
    (copy_construct q other s).2 = Ok tt → reachable (copy_construct q other s).1
| reachable_assign s q other :
    reachable s → is_Some (queues s !! q) → is_Some (queues s !! other) →
    (assign q other s).2 = Ok tt → reachable (assign q other s).1
| reachable_env s cs pl : reachable s → reachable (with_env cs pl s).

(** A property of trees that the operations maintain. *)
Record maintained (P : tree → Prop) : Prop := mkMaintained {
  maintained_Nil : P Nil;
  maintained_single : ∀ l e, P (Tr l e Nil Nil);
  maintained_children : ∀ l v a b, P (Tr l v a b) → P a ∧ P b;
  maintained_merge : ∀ c cs a b cs' t,
    P a → P b → skew_merge c cs a b = (cs', inr t) → P t;
  maintained_copy : ∀ t t', same_values t t' → P t → P t'
}.

(** The invariant, with a property of the trees. *)
Definition wf_with (P : tree → Prop) (s : state) : Prop :=
  ∃ sh, models sh s ∧ ∀ q, is_Some (queues s !! q) → P (sh q).

(** What an operation does to a well-formed state: it succeeds and keeps
    the invariant, or it throws and leaves both stores as they were. *)
Definition op_outcome (P : tree → Prop) (s s' : state) (r : outcome unit) : Prop :=
  (r = Ok tt ∧ wf_with P s' ∧ dom (queues s') = dom (queues s)) ∨
  (∃ e, r = Throw e ∧ nodes s' = nodes s ∧ queues s' = queues s).

(** *** Nodes without an owner *)

(** Every live node is reachable from the root of a queue: nothing has
    leaked. *)
Definition no_garbage (s : state) : Prop :=
  ∀ l, is_Some (nodes s !! l) →
    ∃ q pq, queues s !! q = Some pq ∧ reach (nodes s) (root pq) l.

(** *** The queues an operation works on, and the exceptions it lets out *)

Definition op_queues (o : op) : list qid :=
  match o with
  | Push q _ | Pop q | Top q | Size q | Empty q => [q]
  | Merge q other => [q; other]
  end.

(** [push] and [merge] let out what [catch (const runtime_error &)] catches,
    [pop] that or [container_is_empty], [top] the latter only. *)
Definition op_throws (o : op) (e : exn) : Prop :=
  match o with
  | Push _ _ | Merge _ _ => is_runtime_error e = true
  | Pop _ => e = container_is_empty ∨ is_runtime_error e = true
  | Top _ => e = container_is_empty
  | Size _ | Empty _ => False
  end.

(** In terms of the trees: every live node lies in the tree of a queue. *)
Definition tight (sh : qid → tree) (s : state) : Prop :=
  ∀ l, is_Some (nodes s !! l) → ∃ q, is_Some (queues s !! q) ∧ l ∈ locs (sh q).

(** [shrinks m]: every node that is live after a run of [m] was live
    before. *)
Definition shrinks {A} (m : M A) : Prop :=
  ∀ s l, is_Some (nodes (m s).1 !! l) → is_Some (nodes s !! l).

(** *** Draining a tree *)

(** What repeated [top] and [pop] deliver from a queue with the comparison
    object [c] and the tree [t]: the root value, then what the merge of the
    two children delivers; a comparison that throws ends it. *)
Fixpoint drain_tree (fuel : nat) (c : Compare) (cs : cstate) (t : tree)
    : cstate * (exn + list T) :=
  match fuel, t with
  | O, _ | _, Nil => (cs, inr [])
  | S fuel, Tr _ v a b =>
      match skew_merge c cs a b with
      | (cs1, inl e) => (cs1, inl (rethrown e))
      | (cs1, inr t') =>
          match drain_tree fuel c cs1 t' with
          | (cs2, inl e) => (cs2, inl e)
          | (cs2, inr vs) => (cs2, inr (v :: vs))
          end
      end
  end.

(** Two results of the reference merge that agree but for the addresses. *)
Definition same_merge (r r' : cstate * (exn + tree)) : Prop :=
  match r, r' with
  | (cs, inl e), (cs', inl e') => cs = cs' ∧ e = e'
  | (cs, inr t), (cs', inr t') => cs = cs' ∧ same_values t t'
  | _, _ => False
  end.

(** The outcome and the comparison state that a result of [drain_tree]
    stands for. *)
Definition drained (s' : state) (r : outcome (list T))
    (d : cstate * (exn + list T)) : Prop :=
  cmp_st s' = d.1 ∧
  match d.2 with
  | inl e => r = Throw e
  | inr vs => r = Ok vs
  end.

(** *** Comparisons that do not fail, and what a caller observes *)

(** From the states in [I] the comparison answers, and stays in [I]. *)
Definition never_fails (I : cstate → Prop) : Prop :=
  ∀ c cs x y, I cs → ∃ cs' b, call c cs x y = (cs', inr b) ∧ I cs'.

(** What an operation needs besides comparisons: memory for [push], an
    element for [pop] and [top]. *)
Definition ready (o : op) (s : state) : Prop :=
  match o with
  | Push _ e => ∃ s1 l, new_Node e s = (s1, Ok l)
  | Pop q | Top q => ∃ pq, queues s !! q = Some pq ∧ elementCount pq ≠ 0
  | _ => True
  end.

(** The elements in the order in which repeated [top] and [pop] deliver
    them. *)
Fixpoint drain (n : nat) (q : qid) : M (list T) :=
  match n with
  | O => ret []
  | S n =>
      e <- empty q;;
      if e : bool then ret []
      else
        v <- top q;;
        pop q;;;
        vs <- drain n q;;
        ret (v :: vs)
  end.

Definition pop_order (q : qid) : M (list T) := λ s,
  drain (base.size (nodes s)) q s.

(** The state after [push] of every element of a list, in order. *)
Definition push_all (q : qid) (xs : list T) (s : state) : state :=
  foldl (λ s x, (push q x s).1) s xs.

(** *** Stores that only grow *)

(** [grown h0 h]: the store [h] holds every node of [h0] unchanged, and the
    nodes it holds besides point to nodes outside [h0] only. *)
Definition grown (h0 h : gmap loc Node) : Prop :=
  (∀ l n, h0 !! l = Some n → h !! l = Some n) ∧
  (∀ l n c, h !! l = Some n → h0 !! l = None →
     left n = Some c ∨ right n = Some c → h0 !! c = None).

(** [fresh_ptr h0 p]: the pointer [p] is null or points outside [h0]. *)
Definition fresh_ptr (h0 : gmap loc Node) (p : ptr) : Prop :=
  ∀ l, p = Some l → h0 !! l = None.

(** The state [s] extends [s0]: a grown node store, the same queues. *)
Definition extends (s0 s : state) : Prop :=
  grown (nodes s0) (nodes s) ∧ queues s = queues s0.

(** [keeps s0 Q m]: from an extension of [s0] the run [m] ends, however it
    ends, in an extension of [s0]; a value it returns satisfies [Q]. *)
Definition keeps {A} (s0 : state) (Q : A → Prop) (m : M A) : Prop :=
  ∀ s s' r, extends s0 s → m s = (s', r) →
    extends s0 s' ∧ ∀ a, r = Ok a → Q a.

(** A stack of fresh nodes. *)
Definition fresh_stack (h0 : gmap loc Node) (stack : list loc) : Prop :=
  ∀ x, x ∈ stack → h0 !! x = None.

(** *** The heap order *)

(** The invariant as the specification words it: in the tree of every queue,
    the comparison that reports a node's value below the value of one of its
    children does not answer [true]. *)
Definition heap_order_holds (s : state) : Prop :=
  ∀ q pq l n lc nc,
    queues s !! q = Some pq →
    reach (nodes s) (root pq) l → nodes s !! l = Some n →
    left n = Some lc ∨ right n = Some lc → nodes s !! lc = Some nc →
    ∀ cs' b, call (comp pq) (cmp_st s) (value n) (value nc) = (cs', inr b) →
    b = false.

Section order_relation.

(** The relation the comparison decides. *)
Variable below : T → T → bool.

(** Whenever the comparison answers, whatever its state, the answer is
    [below x y]. *)
Definition answers_below : Prop :=
  ∀ c cs x y cs' b, call c cs x y = (cs', inr b) → b = below x y.

Definition asymmetric : Prop :=
  ∀ x y, below x y = true → below y x = false.

(** A strict weak ordering, as C++ requires of a comparison. *)
Record strict_weak_order : Prop := mkSWO {
  swo_irrefl : ∀ x, below x x = false;
  swo_trans : ∀ x y z, below x y = true → below y z = true → below x z = true;
  swo_incomparable : ∀ x y z,
    below x y = false → below y x = false →
    below y z = false → below z y = false →
    below x z = false ∧ below z x = false
}.

(** [v] is not below the root of [t]. *)
Definition not_below_root (v : T) (t : tree) : Prop :=
  match t with
  | Nil => True
  | Tr _ w _ _ => below v w = false
  end.

(** No node of the tree is below a child of its own. *)
Fixpoint heap_ordered (t : tree) : Prop :=
  match t with
  | Nil => True
  | Tr _ v a b =>
      not_below_root v a ∧ not_below_root v b ∧ heap_ordered a ∧ heap_ordered b
  end.


(** No element of the list is below a later one. *)
Fixpoint descending (vs : list T) : Prop :=
  match vs with
  | [] => True
  | v :: vs => (∀ x, x ∈ vs → below v x = false) ∧ descending vs
  end.

End order_relation.

(** ** Properties of the reference merge *)

Lemma tsize_Tr l v a b : tsize (Tr l v a b) = S (tsize a + tsize b).
Proof. unfold tsize. simpl. by rewrite length_app. Qed.

(** The defining equation of the reference merge on two non-empty trees. *)
Lemma skew_merge_Tr c cs la va al ar lb vb bl br :
  skew_merge c cs (Tr la va al ar) (Tr lb vb bl br) =
  match call c cs va vb with
  | (cs1, inl e) => (cs1, inl e)
  | (cs1, inr true) =>
      match skew_merge c cs1 br (Tr la va al ar) with
      | (cs2, inl e) => (cs2, inl e)
      | (cs2, inr m) => (cs2, inr (Tr lb vb m bl))
      end
  | (cs1, inr false) =>
      match skew_merge c cs1 ar (Tr lb vb bl br) with
      | (cs2, inl e) => (cs2, inl e)
      | (cs2, inr m) => (cs2, inr (Tr la va m al))
      end
  end.
Proof.
  simp skew_merge.
  destruct (call c cs va vb) as [cs1 [e|[|]]]; simpl; [done| |].
  - by destruct (skew_merge c cs1 br (Tr la va al ar)) as [cs2 [e|m]].
  - by destruct (skew_merge c cs1 ar (Tr lb vb bl br)) as [cs2 [e|m]].
Qed.

Lemma skew_merge_Nil_r c cs a : skew_merge c cs a Nil = (cs, inr a).
Proof. destruct a; by simp skew_merge. Qed.

(** Induction along the calls of the reference merge. *)
Lemma skew_merge_induction (c : Compare)
    (P : cstate → tree → tree → cstate * (exn + tree) → Prop) :
  (∀ cs b, P cs Nil b (cs, inr b)) →
  (∀ cs a, P cs a Nil (cs, inr a)) →
  (∀ cs la va al ar lb vb bl br cs1 e,
     call c cs va vb = (cs1, inl e) →
     P cs (Tr la va al ar) (Tr lb vb bl br) (cs1, inl e)) →
  (∀ cs la va al ar lb vb bl br cs1,
     call c cs va vb = (cs1, inr true) →
     P cs1 br (Tr la va al ar) (skew_merge c cs1 br (Tr la va al ar)) →
     P cs (Tr la va al ar) (Tr lb vb bl br)
       (graft lb vb bl (skew_merge c cs1 br (Tr la va al ar)))) →
  (∀ cs la va al ar lb vb bl br cs1,
     call c cs va vb = (cs1, inr false) →
     P cs1 ar (Tr lb vb bl br) (skew_merge c cs1 ar (Tr lb vb bl br)) →
     P cs (Tr la va al ar) (Tr lb vb bl br)
       (graft la va al (skew_merge c cs1 ar (Tr lb vb bl br)))) →
  ∀ cs a b, P cs a b (skew_merge c cs a b).
Proof.
  intros Hl Hr He Ht Hf cs a b.
  remember (tsize a + tsize b)%nat as n eqn:Hn.
  revert cs a b Hn. induction n as [n IH] using lt_wf_ind. intros cs a b ->.
  destruct a as [|la va al ar]; [simp skew_merge; apply Hl|].
  destruct b as [|lb vb bl br]; [rewrite skew_merge_Nil_r; apply Hr|].
  rewrite skew_merge_Tr.
  destruct (call c cs va vb) as [cs1 [e|[|]]] eqn:Hc.
  - by apply He.
  - apply (Ht _ _ _ _ _ _ _ _ _ _ Hc).
    eapply IH; [|done]. rewrite !tsize_Tr. lia.
  - apply (Hf _ _ _ _ _ _ _ _ _ _ Hc).
    eapply IH; [|done]. rewrite !tsize_Tr. lia.
Qed.

Lemma skew_merge_locs c cs a b cs' t :
  skew_merge c cs a b = (cs', inr t) → locs t ≡ₚ locs a ++ locs b.
Proof.
  revert cs' t.
  apply (skew_merge_induction c (λ cs a b r, ∀ cs' t,
    r = (cs', inr t) → locs t ≡ₚ locs a ++ locs b)); clear cs a b.
  - intros cs b cs' t [= <- <-]. done.
  - intros cs a cs' t [= <- <-]. by rewrite app_nil_r.
  - done.
  - intros cs la va al ar lb vb bl br cs1 _ IH cs' t.
    destruct (skew_merge c cs1 br (Tr la va al ar)) as [cs2 [e|m]]; [done|].
    intros [= <- <-]. simpl. rewrite (IH _ _ eq_refl). simpl.
    solve_Permutation.
  - intros cs la va al ar lb vb bl br cs1 _ IH cs' t.
    destruct (skew_merge c cs1 ar (Tr lb vb bl br)) as [cs2 [e|m]]; [done|].
    intros [= <- <-]. simpl. rewrite (IH _ _ eq_refl). simpl.
    solve_Permutation.
Qed.

Lemma skew_merge_elems c cs a b cs' t :
  skew_merge c cs a b = (cs', inr t) → elems t ≡ₚ elems a ++ elems b.
Proof.
  revert cs' t.
  apply (skew_merge_induction c (λ cs a b r, ∀ cs' t,
    r = (cs', inr t) → elems t ≡ₚ elems a ++ elems b)); clear cs a b.
  - intros cs b cs' t [= <- <-]. done.
  - intros cs a cs' t [= <- <-]. by rewrite app_nil_r.
  - done.
  - intros cs la va al ar lb vb bl br cs1 _ IH cs' t.
    destruct (skew_merge c cs1 br (Tr la va al ar)) as [cs2 [e|m]]; [done|].
    intros [= <- <-]. simpl. rewrite (IH _ _ eq_refl). simpl.
    solve_Permutation.
  - intros cs la va al ar lb vb bl br cs1 _ IH cs' t.
    destruct (skew_merge c cs1 ar (Tr lb vb bl br)) as [cs2 [e|m]]; [done|].
    intros [= <- <-]. simpl. rewrite (IH _ _ eq_refl). simpl.
    solve_Permutation.
Qed.

(** ** The store and the trees *)

Lemma stored_agree h h' t :
  (∀ l, l ∈ locs t → h' !! l = h !! l) → stored h t → stored h' t.
Proof.
  induction t as [|l v a IHa b IHb]; simpl; [done|].
  intros Hag (Hl & Ha & Hb). split_and!.
  - rewrite Hag; [done|]. set_solver.
  - apply IHa; [|done]. intros x Hx. apply Hag. set_solver.
  - apply IHb; [|done]. intros x Hx. apply Hag. set_solver.
Qed.

Lemma stored_live h t l : stored h t → l ∈ locs t → is_Some (h !! l).
Proof.
  induction t as [|l' v a IHa b IHb]; simpl; [set_solver|].
  intros (Hl & Ha & Hb) Hin.
  apply elem_of_cons in Hin as [->|Hin]; [by eexists|].
  apply elem_of_app in Hin as [?|?]; auto.
Qed.

Lemma run_as_mono m s fr fr' r :
  (∀ l, l ∈ fr → l ∈ fr') → run_as m s fr r → run_as m s fr' r.
Proof.
  intros Hsub. destruct r as [cs' [e|t]]; simpl; [done|].
  intros (h & ? & ? & Hfr & ?). exists h. split_and!; [done..| |done].
  intros l Hl. apply Hfr. auto.
Qed.

(** *** Running the primitives *)

Lemma bind_Ok {A B} (m : M A) (k : A → M B) s s' a :
  m s = (s', Ok a) → bind m k s = k a s'.
Proof. unfold bind. by intros ->. Qed.

Lemma bind_Throw {A B} (m : M A) (k : A → M B) s s' e :
  m s = (s', Throw e) → bind m k s = (s', Throw e).
Proof. unfold bind. by intros ->. Qed.

Lemma get_node_run l n s : nodes s !! l = Some n → get_node l s = (s, Ok n).
Proof. unfold get_node. by intros ->. Qed.

Lemma get_value_run l n s :
  nodes s !! l = Some n → get_value l s = (s, Ok (value n)).
Proof. intros H. unfold get_value. by rewrite (bind_Ok _ _ _ _ _ (get_node_run _ _ _ H)). Qed.

Lemma get_left_run l n s :
  nodes s !! l = Some n → get_left l s = (s, Ok (left n)).
Proof. intros H. unfold get_left. by rewrite (bind_Ok _ _ _ _ _ (get_node_run _ _ _ H)). Qed.

Lemma get_right_run l n s :
  nodes s !! l = Some n → get_right l s = (s, Ok (right n)).
Proof. intros H. unfold get_right. by rewrite (bind_Ok _ _ _ _ _ (get_node_run _ _ _ H)). Qed.

Lemma set_left_run l p n s :
  nodes s !! l = Some n →
  set_left l p s = (set_nodes (<[l:=mkNode (value n) p (right n)]> (nodes s)) s, Ok tt).
Proof. intros H. unfold set_left. by rewrite (bind_Ok _ _ _ _ _ (get_node_run _ _ _ H)). Qed.

Lemma set_right_run l p n s :
  nodes s !! l = Some n →
  set_right l p s = (set_nodes (<[l:=mkNode (value n) (left n) p]> (nodes s)) s, Ok tt).
Proof. intros H. unfold set_right. by rewrite (bind_Ok _ _ _ _ _ (get_node_run _ _ _ H)). Qed.

Lemma compare_Ok c x y s cs b :
  call c (cmp_st s) x y = (cs, inr b) → compare c x y s = (set_cmp_st cs s, Ok b).
Proof. unfold compare. by intros ->. Qed.

Lemma compare_Throw c x y s cs e :
  call c (cmp_st s) x y = (cs, inl e) → compare c x y s = (set_cmp_st cs s, Throw e).
Proof. unfold compare. by intros ->. Qed.

(** Run the next statement, whose effect the lemma [lem] describes. *)
Ltac step lem :=
  erewrite bind_Ok; [|eapply lem; simpl; try eassumption; try done].

Lemma NoDup_sub (l k : list loc) : NoDup k → l ⊆+ k → NoDup l.
Proof.
  intros Hk [k' Hp]%submseteq_Permutation. rewrite Hp in Hk.
  by apply NoDup_app in Hk as (? & _ & _).
Qed.

Lemma NoDup_sub_notin (x : loc) (l k : list loc) :
  NoDup k → x :: l ⊆+ k → x ∉ l.
Proof. intros Hk Hs. by apply (NoDup_cons_1_1 x l), (NoDup_sub _ k). Qed.

(** The rollback of a guard writes back what is there already. *)
Lemma MergeGuard_dtor_restore l v pl pr s :
  nodes s !! l = Some (mkNode v pl pr) →
  MergeGuard_dtor (mkGuard (Some l) pl pr true) s = (s, Ok tt).
Proof.
  intros H. unfold MergeGuard_dtor. simpl.
  step set_left_run. simpl.
  erewrite set_right_run; [|simpl; apply lookup_insert_eq]. simpl.
  unfold set_nodes. simpl. rewrite insert_insert_eq, insert_id by done.
  by destruct s.
Qed.

Lemma MergeGuard_new_run l n s :
  nodes s !! l = Some n →
  MergeGuard_new (Some l) s = (s, Ok (mkGuard (Some l) (left n) (right n) true)).
Proof.
  intros H. unfold MergeGuard_new.
  step get_left_run. by step get_right_run.
Qed.

(** One frame of [merge_nodes] after the comparison: the survivor is the
    node at [lx], the other tree is [y], and the recursive call behaves as
    the reference merge of the survivor's right child with [y]. *)
Lemma merge_frame_run fuel c lx vx xl xr y s r :
  stored (nodes s) (Tr lx vx xl xr) →
  NoDup (lx :: locs xl ++ locs xr ++ locs y) →
  (∀ cs' m, r = (cs', inr m) → locs m ≡ₚ locs xr ++ locs y) →
  run_as (merge_nodes_rec fuel c (root_of xr) (root_of y)) s (locs xr ++ locs y) r →
  run_as
    (guard <- MergeGuard_new (Some lx);;
     with_guard guard (
       ar <- get_right lx;;
       newRight <- merge_nodes_rec fuel c ar (root_of y);;
       set_right lx newRight;;;
       tmpChild <- get_left lx;;
       r <- get_right lx;;
       set_left lx r;;;
       set_right lx tmpChild;;;
       ret (commit guard, Some lx)))
    s (lx :: locs xl ++ locs xr ++ locs y) (graft lx vx xl r).
Proof.
  intros (Hlx & Hxl & Hxr) Hnd Hperm Hrec.
  pose proof (NoDup_cons_1_1 _ _ Hnd) as Hnotin.
  apply NoDup_cons_1_2, NoDup_app in Hnd as (_ & Hdisj & _).
  destruct r as [cs' [e|m]]; simpl in *.
  - step MergeGuard_new_run. simpl. unfold with_guard.
    step get_right_run. simpl. erewrite bind_Throw; [|exact Hrec].
    erewrite bind_Ok; [|apply (MergeGuard_dtor_restore _ vx); exact Hlx]. done.
  - destruct Hrec as (h & Hrun & Hm & Hfr & Hdom).
    specialize (Hperm _ _ eq_refl).
    assert (Hlx' : h !! lx = Some (mkNode vx (root_of xl) (root_of xr))).
    { rewrite Hfr; [done|]. intros Hin. apply Hnotin, elem_of_app. by right. }
    eexists. split.
    { step MergeGuard_new_run. simpl. unfold with_guard.
      step get_right_run. simpl. erewrite bind_Ok; [|exact Hrun].
      step set_right_run. simpl.
      erewrite bind_Ok; [|eapply get_left_run; simpl; apply lookup_insert_eq].
      erewrite bind_Ok; [|eapply get_right_run; simpl; apply lookup_insert_eq].
      erewrite bind_Ok; [|eapply set_left_run; simpl; apply lookup_insert_eq].
      erewrite bind_Ok; [|eapply set_right_run; simpl; apply lookup_insert_eq].
      simpl. unfold ret, after_merge, set_nodes. simpl. reflexivity. }
    rewrite !insert_insert_eq. simpl. split_and!.
    + apply lookup_insert_eq.
    + eapply stored_agree; [|exact Hm]. intros l Hl.
      rewrite lookup_insert_ne; [done|]. intros <-.
      rewrite Hperm in Hl. apply Hnotin, elem_of_app. by right.
    + eapply stored_agree; [|exact Hxl]. intros l Hl.
      rewrite lookup_insert_ne.
      * apply Hfr. by apply Hdisj.
      * intros <-. apply Hnotin, elem_of_app. by left.
    + intros l Hl.
      rewrite not_elem_of_cons, !not_elem_of_app in Hl.
      destruct Hl as (? & ? & ? & ?).
      rewrite lookup_insert_ne by done. apply Hfr.
      rewrite not_elem_of_app. done.
    + rewrite dom_insert_L, Hdom.
      apply elem_of_dom_2 in Hlx.
      apply set_eq. intros x. rewrite elem_of_union, elem_of_singleton.
      split; [intros [->|?]; done|auto].
Qed.

Lemma run_as_cmp m m' s cs1 fr r :
  m s = m' (set_cmp_st cs1 s) →
  run_as m' (set_cmp_st cs1 s) fr r → run_as m s fr r.
Proof. intros E. destruct r as [cs' [e|t]]; simpl; by rewrite E. Qed.

(** [merge_nodes_rec] on two stored, disjoint trees behaves as the reference
    merge of the two trees, whatever the comparison does. *)
Lemma merge_nodes_rec_spec c a b :
  ∀ fuel s,
    stored (nodes s) a → stored (nodes s) b →
    NoDup (locs a ++ locs b) → (tsize a + tsize b ≤ fuel)%nat →
    merge_run fuel c a b s (skew_merge c (cmp_st s) a b).
Proof.
  intros fuel s. remember (cmp_st s) as cs eqn:Hcs. revert fuel s Hcs.
  apply (skew_merge_induction c (λ cs a b r, ∀ fuel s, cs = cmp_st s →
    stored (nodes s) a → stored (nodes s) b →
    NoDup (locs a ++ locs b) → (tsize a + tsize b ≤ fuel)%nat →
    merge_run fuel c a b s r)); clear cs a b.
  - intros cs b fuel s -> _ Hb _ _. exists (nodes s). destruct s. by destruct fuel.
  - intros cs a fuel s -> Ha _ _ _. exists (nodes s). destruct s.
    by destruct a, fuel.
  - intros cs la va al ar lb vb bl br cs1 e Hc fuel s -> (Hla & _) (Hlb & _) _ Hf.
    rewrite !tsize_Tr in Hf. destruct fuel as [|fuel]; [lia|].
    unfold merge_run, run_as. cbn [merge_nodes_rec root_of].
    step get_value_run. step get_value_run. simpl.
    by erewrite bind_Throw; [|by eapply compare_Throw].
  - intros cs la va al ar lb vb bl br cs1 Hc IH fuel s ->
      (Hla & Hal & Har) (Hlb & Hbl & Hbr) Hnd Hf.
    rewrite !tsize_Tr in Hf. destruct fuel as [|fuel]; [lia|].
    assert (Hnd' : NoDup (locs br ++ locs (Tr la va al ar))).
    { apply (NoDup_sub _ _ Hnd). simpl. solve_submseteq. }
    specialize (IH fuel (set_cmp_st cs1 s) eq_refl Hbr (conj Hla (conj Hal Har)) Hnd').
    rewrite !tsize_Tr in IH. specialize (IH ltac:(lia)).
    eapply (merge_frame_run _ _ lb vb bl br (Tr la va al ar)) in IH.
    + eapply run_as_cmp; [|eapply run_as_mono; [|exact IH]].
      * cbn [merge_nodes_rec root_of].
        step get_value_run. step get_value_run. simpl.
        by erewrite bind_Ok; [|by eapply compare_Ok].
      * intros l. simpl. rewrite !elem_of_cons, !elem_of_app, !elem_of_cons, !elem_of_app.
        tauto.
    + done.
    + apply (NoDup_sub _ _ Hnd). simpl. solve_submseteq.
    + intros cs' m. apply skew_merge_locs.
  - intros cs la va al ar lb vb bl br cs1 Hc IH fuel s ->
      (Hla & Hal & Har) (Hlb & Hbl & Hbr) Hnd Hf.
    rewrite !tsize_Tr in Hf. destruct fuel as [|fuel]; [lia|].
    assert (Hnd' : NoDup (locs ar ++ locs (Tr lb vb bl br))).
    { apply (NoDup_sub _ _ Hnd). simpl. solve_submseteq. }
    specialize (IH fuel (set_cmp_st cs1 s) eq_refl Har (conj Hlb (conj Hbl Hbr)) Hnd').
    rewrite !tsize_Tr in IH. specialize (IH ltac:(lia)).
    eapply (merge_frame_run _ _ la va al ar (Tr lb vb bl br)) in IH.
    + eapply run_as_cmp; [|eapply run_as_mono; [|exact IH]].
      * cbn [merge_nodes_rec root_of].
        step get_value_run. step get_value_run. simpl.
        by erewrite bind_Ok; [|by eapply compare_Ok].
      * intros l. simpl. rewrite !elem_of_cons, !elem_of_app, !elem_of_cons, !elem_of_app.
        tauto.
    + done.
    + apply (NoDup_sub _ _ Hnd). simpl. solve_submseteq.
    + intros cs' m. apply skew_merge_locs.
Qed.

(** *** Counting live nodes *)

Lemma live_bound (h : gmap loc Node) (ls : list loc) :
  NoDup ls → (∀ l, l ∈ ls → is_Some (h !! l)) → (length ls ≤ base.size h)%nat.
Proof.
  intros Hnd Hlive.
  rewrite <- size_dom, <- (size_list_to_set (C:=gset loc) ls) by done.
  apply subseteq_size. intros l Hl. apply elem_of_list_to_set in Hl.
  by apply elem_of_dom, Hlive.
Qed.

(** Distinct addresses of a 64-bit machine are fewer than 2^64. *)
Lemma valid_addrs_bound (ls : list loc) :
  NoDup ls → (∀ l, l ∈ ls → valid_addr l = true) →
  Z.of_nat (length ls) < size_t_mod.
Proof.
  intros Hnd Hval.
  assert (Hsub : Z.pos <$> ls ⊆+ seqZ 1 (size_t_mod - 1)).
  { apply NoDup_submseteq.
    - apply NoDup_fmap_2; [|done]. intros x y. congruence.
    - intros z (l & -> & Hl)%list_elem_of_fmap.
      apply elem_of_seqZ. specialize (Hval l Hl).
      unfold valid_addr in Hval. apply bool_decide_eq_true in Hval. lia. }
  apply submseteq_length in Hsub.
  rewrite length_fmap, length_seqZ in Hsub.
  assert (0 < size_t_mod) by done. lia.
Qed.

Lemma stored_bound h a b :
  stored h a → stored h b → NoDup (locs a ++ locs b) →
  (tsize a + tsize b ≤ base.size h)%nat.
Proof.
  intros Ha Hb Hnd. unfold tsize. rewrite <- length_app.
  apply live_bound; [done|]. intros l [?|?]%elem_of_app; eauto using stored_live.
Qed.

(** [merge_nodes] on two stored, disjoint trees behaves as the reference
    merge. *)
Lemma merge_nodes_spec c a b s :
  stored (nodes s) a → stored (nodes s) b → NoDup (locs a ++ locs b) →
  run_as (merge_nodes c (root_of a) (root_of b)) s (locs a ++ locs b)
    (skew_merge c (cmp_st s) a b).
Proof.
  intros Ha Hb Hnd. unfold merge_nodes.
  pose proof (merge_nodes_rec_spec c a b (base.size (nodes s)) s Ha Hb Hnd
    (stored_bound _ _ _ Ha Hb Hnd)) as H.
  unfold merge_run, run_as in *.
  by destruct (skew_merge c (cmp_st s) a b) as [cs' [e|t]].
Qed.

(** The two early returns of [merge_nodes]. *)
Lemma merge_nodes_null_l (c : Compare) (p : ptr) (s : state) :
  merge_nodes c None p s = (s, Ok p).
Proof. unfold merge_nodes. by destruct (base.size (nodes s)). Qed.

Lemma merge_nodes_null_r (c : Compare) (p : ptr) (s : state) :
  merge_nodes c p None s = (s, Ok p).
Proof. unfold merge_nodes. by destruct p, (base.size (nodes s)). Qed.

(** ** The invariant of the store *)

(** The invariant depends on the two stores only. *)
Lemma models_env sh s s' :
  nodes s' = nodes s → queues s' = queues s → models sh s → models sh s'.
Proof.
  intros Hn Hq [H1 H2 H3 H4 H5 H6].
  split; rewrite ?Hn, ?Hq; done.
Qed.

(** A tree of the store is no larger than the store, which is smaller than
    the address space. *)
Lemma models_tsize_bound sh s q :
  models sh s → is_Some (queues s !! q) →
  Z.of_nat (tsize (sh q)) ≤ Z.of_nat (base.size (nodes s)) < size_t_mod.
Proof.
  intros Hm Hq. split.
  - apply inj_le. unfold tsize. apply live_bound; [by eapply models_NoDup|].
    intros l Hl. eapply stored_live; [|done]. by eapply models_stored.
  - rewrite <- size_dom. unfold base.size, set_size. simpl.
    apply valid_addrs_bound; [apply NoDup_elements|].
    intros l Hl%elem_of_elements%elem_of_dom. by eapply models_valid.
Qed.

(** The frame rule of the invariant: a step that changes the store on the
    addresses [fr] only, and the queues [touched] only, keeps the invariant
    when the trees of the touched queues stay within [fr] and the trees of
    the others stay out of it. *)
Lemma models_frame sh s sh' s' (touched : list qid) (fr : list loc) :
  models sh s →
  (∀ l, is_Some (nodes s' !! l) → valid_addr l = true) →
  (∀ l, l ∉ fr → nodes s' !! l = nodes s !! l) →
  (∀ q, q ∉ touched → queues s' !! q = queues s !! q ∧ sh' q = sh q) →
  (∀ q, q ∉ touched → is_Some (queues s !! q) → ∀ l, l ∈ locs (sh q) → l ∉ fr) →
  (∀ q o, q ∈ touched → queues s' !! q = Some o →
     root o = root_of (sh' q) ∧ elementCount o = Z.of_nat (tsize (sh' q)) ∧
     stored (nodes s') (sh' q) ∧ NoDup (locs (sh' q)) ∧
     ∀ l, l ∈ locs (sh' q) → l ∈ fr) →
  (∀ q1 q2, q1 ∈ touched → q2 ∈ touched → q1 ≠ q2 →
     ∀ l, l ∈ locs (sh' q1) → l ∉ locs (sh' q2)) →
  models sh' s'.
Proof.
  intros Hm Hval Hfr Hun Hout Hin Hdis.
  assert (Hdec : ∀ q, q ∈ touched ∨ q ∉ touched).
  { intros q. destruct (decide (q ∈ touched)); auto. }
  split.
  - done.
  - intros q o Hq. destruct (Hdec q) as [Ht|Ht].
    + by destruct (Hin q o Ht Hq) as (? & _).
    + destruct (Hun q Ht) as [Hq' ->]. rewrite Hq' in Hq. by eapply models_root.
  - intros q o Hq. destruct (Hdec q) as [Ht|Ht].
    + by destruct (Hin q o Ht Hq) as (_ & ? & _).
    + destruct (Hun q Ht) as [Hq' ->]. rewrite Hq' in Hq. by eapply models_count.
  - intros q [o Hq]. destruct (Hdec q) as [Ht|Ht].
    + by destruct (Hin q o Ht Hq) as (_ & _ & ? & _).
    + destruct (Hun q Ht) as [Hq' ->]. rewrite Hq' in Hq.
      eapply stored_agree; [|eapply models_stored; eauto].
      intros l Hl. apply Hfr. eapply Hout; eauto.
  - intros q [o Hq]. destruct (Hdec q) as [Ht|Ht].
    + by destruct (Hin q o Ht Hq) as (_ & _ & _ & ? & _).
    + destruct (Hun q Ht) as [Hq' ->]. rewrite Hq' in Hq.
      eapply models_NoDup; eauto.
  - intros q1 q2 Hne [o1 Hq1] [o2 Hq2] l Hl1 Hl2.
    destruct (Hdec q1) as [Ht1|Ht1], (Hdec q2) as [Ht2|Ht2].
    + by eapply (Hdis q1 q2).
    + destruct (Hin q1 o1 Ht1 Hq1) as (_ & _ & _ & _ & Hsub).
      destruct (Hun q2 Ht2) as [Hq2' Hsh2]. rewrite Hq2' in Hq2. rewrite Hsh2 in Hl2.
      eapply (Hout q2); eauto.
    + destruct (Hin q2 o2 Ht2 Hq2) as (_ & _ & _ & _ & Hsub).
      destruct (Hun q1 Ht1) as [Hq1' Hsh1]. rewrite Hq1' in Hq1. rewrite Hsh1 in Hl1.
      eapply (Hout q1); eauto.
    + destruct (Hun q1 Ht1) as [Hq1' Hsh1], (Hun q2 Ht2) as [Hq2' Hsh2].
      rewrite Hq1' in Hq1. rewrite Hq2' in Hq2. rewrite Hsh1 in Hl1. rewrite Hsh2 in Hl2.
      eapply (models_disjoint _ _ Hm q1 q2); eauto.
Qed.

(** ** The public operations on a well-formed state *)

Lemma get_queue_run q o s : queues s !! q = Some o → get_queue q s = (s, Ok o).
Proof. unfold get_queue. by intros ->. Qed.

Lemma set_root_run q p o s :
  queues s !! q = Some o →
  set_root q p s
  = (set_queues (<[q:=mkQueue p (elementCount o) (comp o)]> (queues s)) s, Ok tt).
Proof. intros H. unfold set_root. by rewrite (bind_Ok _ _ _ _ _ (get_queue_run _ _ _ H)). Qed.

Lemma set_elementCount_run q n o s :
  queues s !! q = Some o →
  set_elementCount q n s
  = (set_queues (<[q:=mkQueue (root o) n (comp o)]> (queues s)) s, Ok tt).
Proof.
  intros H. unfold set_elementCount.
  by rewrite (bind_Ok _ _ _ _ _ (get_queue_run _ _ _ H)).
Qed.

Lemma delete_Node_run l n s :
  nodes s !! l = Some n →
  delete_Node l s = (set_nodes (delete l (nodes s)) s, Ok tt).
Proof. unfold delete_Node. by intros ->. Qed.

Lemma rethrow_run {A} e s : rethrow (A:=A) e s = (s, Throw (rethrown e)).
Proof. unfold rethrow, rethrown. by destruct (is_runtime_error e). Qed.

Lemma try_catch_Ok {A} (m : M A) h s s' a :
  m s = (s', Ok a) → try_catch m h s = (s', Ok a).
Proof. unfold try_catch. by intros ->. Qed.

Lemma try_catch_Throw {A} (m : M A) h s s' e :
  m s = (s', Throw e) → try_catch m h s = h e s'.
Proof. unfold try_catch. by intros ->. Qed.

(** A successful [new Node(e)]. *)
Lemma new_Node_Ok e s s1 l :
  new_Node e s = (s1, Ok l) →
  ∃ rest, plan s = inr l :: rest ∧ nodes s !! l = None ∧ valid_addr l = true ∧
    s1 = mkState (<[l:=mkNode e None None]> (nodes s)) (queues s) (cmp_st s) rest.
Proof.
  unfold new_Node. destruct (plan s) as [|[ex|l'] rest]; [done..|].
  destruct (nodes s !! l') eqn:Hl'; [done|].
  destruct (valid_addr l') eqn:Hv; [|done].
  intros [= <- <-]. by exists rest.
Qed.

(** A failed [new Node(e)] leaves both stores alone. *)
Lemma new_Node_Throw e s s1 ex :
  new_Node e s = (s1, Throw ex) →
  s1 = mkState (nodes s) (queues s) (cmp_st s) (tail (plan s)).
Proof.
  unfold new_Node. destruct s as [h qs cs pl]; simpl.
  destruct pl as [|[ex'|l'] rest]; simpl; [by intros [= <- _]..|].
  destruct (h !! l'); [by intros [= <- _]|].
  destruct (valid_addr l'); [done|by intros [= <- _]].
Qed.

Lemma new_Node_outcome e s : (new_Node e s).2 ≠ Fault ∧ (new_Node e s).2 ≠ OutOfFuel.
Proof.
  unfold new_Node. destruct (plan s) as [|[ex|l'] rest]; simpl; [done..|].
  destruct (nodes s !! l'); [done|]. by destruct (valid_addr l').
Qed.

(** [push] after a successful allocation at [l]. *)
Lemma push_run sh s q o e s1 l :
  models sh s → queues s !! q = Some o → new_Node e s = (s1, Ok l) →
  match skew_merge (comp o) (cmp_st s) (sh q) (Tr l e Nil Nil) with
  | (cs', inl ex) =>
      push q e s = (mkState (nodes s) (queues s) cs' (plan s1), Throw (rethrown ex))
  | (cs', inr t') =>
      ∃ s', push q e s = (s', Ok tt) ∧ models (<[q:=t']> sh) s' ∧
        cmp_st s' = cs' ∧ plan s' = plan s1 ∧
        queues s' = <[q:=mkQueue (root_of t') (size_t_add (elementCount o) 1) (comp o)]> (queues s)
  end.
Proof.
  intros Hm Hq Hnew.
  destruct (new_Node_Ok _ _ _ _ Hnew) as (rest & Hplan & Hfresh & Hvalid & ->).
  set (s1 := mkState _ _ _ rest) in *.
  assert (Hsq : stored (nodes s1) (sh q)).
  { eapply stored_agree; [|eapply models_stored; eauto]. intros l' Hl'. simpl.
    apply lookup_insert_ne. intros <-.
    eapply stored_live in Hl'; [|eapply models_stored; eauto].
    rewrite Hfresh in Hl'. by destruct Hl'. }
  assert (Hnd : NoDup (locs (sh q) ++ locs (Tr l e Nil Nil))).
  { simpl. apply NoDup_app. split_and!; [eapply models_NoDup; eauto| |apply NoDup_singleton].
    intros l' Hl' ->%list_elem_of_singleton.
    eapply stored_live in Hl'; [|eapply models_stored; eauto].
    rewrite Hfresh in Hl'. by destruct Hl'. }
  assert (Hsn : stored (nodes s1) (Tr l e Nil Nil)).
  { simpl. split_and!; [apply lookup_insert_eq|done..]. }
  pose proof (merge_nodes_spec (comp o) _ _ s1 Hsq Hsn Hnd) as Hrun.
  pose proof (models_root _ _ Hm _ _ Hq) as Hroot.
  simpl root_of in Hrun. rewrite <- Hroot in Hrun.
  change (cmp_st s1) with (cmp_st s) in Hrun.
  destruct (skew_merge (comp o) (cmp_st s) (sh q) (Tr l e Nil Nil))
    as [cs' [ex|t']] eqn:Hsm; simpl in Hrun.
  - unfold push. rewrite Hnew.
    erewrite try_catch_Throw.
    2:{ step get_queue_run. erewrite bind_Throw; [|exact Hrun]. done. }
    erewrite bind_Ok; [|eapply set_right_run; simpl; apply lookup_insert_eq].
    erewrite bind_Ok; [|eapply set_left_run; simpl; apply lookup_insert_eq].
    erewrite bind_Ok; [|eapply delete_Node_run; simpl; apply lookup_insert_eq].
    rewrite rethrow_run. simpl. unfold set_nodes. simpl.
    by rewrite !insert_insert_eq, delete_insert_eq, delete_id.
  - destruct Hrun as (h & Hrun & Ht' & Hfr & Hdom).
    pose proof (skew_merge_locs _ _ _ _ _ _ Hsm) as Hperm. simpl in Hperm.
    assert (Hndt : NoDup (locs t')) by (by rewrite Hperm).
    assert (Hvalh : ∀ l', is_Some (h !! l') → valid_addr l' = true).
    { intros l' Hl'%elem_of_dom. rewrite Hdom in Hl'.
      apply elem_of_dom in Hl'. destruct (decide (l' = l)) as [->|Hne]; [done|].
      rewrite lookup_insert_ne in Hl' by done. by eapply models_valid. }
    eexists. split; [|split_and!].
    + unfold push. rewrite Hnew. erewrite try_catch_Ok; [reflexivity|].
      step get_queue_run. erewrite bind_Ok; [|exact Hrun].
      step set_root_run.
      erewrite bind_Ok; [|eapply get_queue_run; simpl; apply lookup_insert_eq].
      erewrite set_elementCount_run; [|simpl; apply lookup_insert_eq].
      simpl. unfold set_queues, after_merge. simpl.
      rewrite insert_insert_eq. reflexivity.
    + eapply (models_frame sh s _ _ [q] (l :: locs (sh q))); simpl; try done.
      * intros l' [Hne Hl']%not_elem_of_cons. rewrite Hfr.
        -- by apply lookup_insert_ne.
        -- rewrite not_elem_of_app, list_elem_of_singleton. done.
      * intros q' Hq'%not_elem_of_cons. destruct Hq' as [Hq' _]. split.
        -- by apply lookup_insert_ne.
        -- by apply fn_lookup_insert_ne.
      * intros q' [Hq' _]%not_elem_of_cons Hsome l' Hl'.
        apply not_elem_of_cons. split.
        -- intros ->. eapply stored_live in Hl'; [|by eapply models_stored].
           rewrite Hfresh in Hl'. by destruct Hl'.
        -- eapply (models_disjoint _ _ Hm q' q); eauto.
      * intros q' o' ->%list_elem_of_singleton.
        rewrite lookup_insert_eq, fn_lookup_insert. intros [= <-]. simpl.
        split_and!; try done.
        -- erewrite models_count by eauto.
           assert (Z.of_nat (tsize t') < size_t_mod).
           { apply valid_addrs_bound; [done|]. intros l' Hl'.
             apply Hvalh. by eapply stored_live. }
           unfold tsize in *. rewrite Hperm, length_app in *. simpl in *.
           unfold size_t_add. rewrite Z.mod_small; lia.
        -- intros l'. rewrite Hperm, elem_of_app, !elem_of_cons, elem_of_nil.
           tauto.
      * intros q1 q2 ->%list_elem_of_singleton ->%list_elem_of_singleton. done.
    + done.
    + done.
    + done.
Qed.

Lemma push_alloc_fail q e s s1 ex :
  new_Node e s = (s1, Throw ex) → push q e s = (s1, Throw (rethrown ex)).
Proof. intros H. unfold push. rewrite H. apply rethrow_run. Qed.

Lemma empty_run q o s :
  queues s !! q = Some o →
  empty q s = (s, Ok (bool_decide (elementCount o = 0))).
Proof. intros H. unfold empty. by step get_queue_run. Qed.

(** [pop] on an empty queue. *)
Lemma pop_empty q o s :
  queues s !! q = Some o → elementCount o = 0 →
  pop q s = (s, Throw container_is_empty).
Proof.
  intros Hq H0. unfold pop. step empty_run.
  by rewrite bool_decide_eq_true_2.
Qed.

(** A queue whose count is not zero has a root node. *)
Lemma models_nonempty sh s q o :
  models sh s → queues s !! q = Some o → elementCount o ≠ 0 →
  ∃ l v a b, sh q = Tr l v a b.
Proof.
  intros Hm Hq Hne. erewrite models_count in Hne by eauto.
  destruct (sh q) as [|l v a b]; [done|]. eauto.
Qed.

(** [pop] on a queue that holds the tree [Tr l v a b]. *)
Lemma pop_run sh s q o l v a b :
  models sh s → queues s !! q = Some o → sh q = Tr l v a b →
  match skew_merge (comp o) (cmp_st s) a b with
  | (cs', inl ex) =>
      pop q s = (mkState (nodes s) (queues s) cs' (plan s), Throw (rethrown ex))
  | (cs', inr t') =>
      ∃ s', pop q s = (s', Ok tt) ∧ models (<[q:=t']> sh) s' ∧
        cmp_st s' = cs' ∧ plan s' = plan s ∧
        queues s' = <[q:=mkQueue (root_of t') (size_t_sub (elementCount o) 1) (comp o)]> (queues s) ∧
        nodes s' !! l = None
  end.
Proof.
  intros Hm Hq Hsh.
  pose proof (models_root _ _ Hm _ _ Hq) as Hroot.
  pose proof (models_count _ _ Hm _ _ Hq) as Hcount.
  pose proof (models_stored _ _ Hm q (mk_is_Some _ _ Hq)) as Hst.
  pose proof (models_NoDup _ _ Hm q (mk_is_Some _ _ Hq)) as Hnd.
  rewrite Hsh in Hroot, Hcount, Hst, Hnd. simpl in Hroot, Hst, Hnd.
  destruct Hst as (Hl & Ha & Hb).
  pose proof (NoDup_cons_1_1 _ _ Hnd) as Hnotin.
  pose proof (NoDup_cons_1_2 _ _ Hnd) as Hnd'.
  pose proof (merge_nodes_spec (comp o) _ _ s Ha Hb Hnd') as Hrun.
  assert (Hne : elementCount o ≠ 0) by (rewrite Hcount, tsize_Tr; lia).
  destruct (skew_merge (comp o) (cmp_st s) a b) as [cs' [ex|t']] eqn:Hsm;
    simpl in Hrun.
  - unfold pop. step empty_run. rewrite bool_decide_eq_false_2 by done.
    step get_queue_run. rewrite Hroot.
    step get_left_run. step get_right_run. simpl.
    erewrite try_catch_Throw; [|by erewrite bind_Throw; [|exact Hrun]].
    by rewrite rethrow_run.
  - destruct Hrun as (h & Hrun & Ht' & Hfr & Hdom).
    pose proof (skew_merge_locs _ _ _ _ _ _ Hsm) as Hperm.
    assert (Hlh : h !! l = Some (mkNode v (root_of a) (root_of b))).
    { by rewrite Hfr. }
    eexists. split; [|split_and!].
    + unfold pop. step empty_run. rewrite bool_decide_eq_false_2 by done.
      step get_queue_run. rewrite Hroot.
      step get_left_run. step get_right_run. simpl.
      erewrite try_catch_Ok; [reflexivity|].
      erewrite bind_Ok; [|exact Hrun].
      step set_root_run. step set_right_run.
      erewrite bind_Ok; [|eapply set_left_run; simpl; apply lookup_insert_eq].
      erewrite bind_Ok; [|eapply delete_Node_run; simpl; apply lookup_insert_eq].
      erewrite bind_Ok; [|eapply get_queue_run; simpl; apply lookup_insert_eq].
      erewrite set_elementCount_run; [|simpl; apply lookup_insert_eq].
      simpl. unfold set_queues, set_nodes, after_merge. simpl.
      rewrite !insert_insert_eq, delete_insert_eq. reflexivity.
    + eapply (models_frame sh s _ _ [q] (l :: locs a ++ locs b)); simpl; try done.
      * intros l' [n Hl']. destruct (decide (l' = l)) as [->|Hne'].
        { by rewrite lookup_delete_eq in Hl'. }
        rewrite lookup_delete_ne in Hl' by done.
        eapply models_valid; [done|]. apply elem_of_dom. rewrite <- Hdom.
        by apply elem_of_dom.
      * intros l' [Hne' Hl']%not_elem_of_cons.
        rewrite lookup_delete_ne by done. by apply Hfr.
      * intros q' [Hq' _]%not_elem_of_cons. split.
        -- by apply lookup_insert_ne.
        -- by apply fn_lookup_insert_ne.
      * intros q' [Hq' _]%not_elem_of_cons Hsome l' Hl'.
        pose proof (models_disjoint _ _ Hm q' q Hq' Hsome (mk_is_Some _ _ Hq) l' Hl') as Hd.
        by rewrite Hsh in Hd.
      * intros q' o' ->%list_elem_of_singleton.
        rewrite lookup_insert_eq, fn_lookup_insert. intros [= <-]. simpl.
        split_and!; try done.
        -- rewrite Hcount. unfold tsize in *. simpl. rewrite Hperm.
           pose proof (models_tsize_bound _ _ q Hm (mk_is_Some _ _ Hq)) as Hb'.
           rewrite Hsh in Hb'. unfold tsize in Hb'. simpl in Hb'.
           unfold size_t_sub. rewrite Z.mod_small; lia.
        -- eapply stored_agree; [|exact Ht']. intros l' Hl'.
           apply lookup_delete_ne. intros <-. by rewrite Hperm in Hl'.
        -- by rewrite Hperm.
        -- intros l'. rewrite Hperm, elem_of_cons. tauto.
      * intros q1 q2 ->%list_elem_of_singleton ->%list_elem_of_singleton. done.
    + done.
    + done.
    + done.
    + simpl. apply lookup_delete_eq.
Qed.

(** [merge] of two distinct queues. *)
Lemma merge_run_distinct sh s q1 q2 o1 o2 :
  models sh s → q1 ≠ q2 →
  queues s !! q1 = Some o1 → queues s !! q2 = Some o2 →
  match skew_merge (comp o1) (cmp_st s) (sh q1) (sh q2) with
  | (cs', inl ex) =>
      merge q1 q2 s = (mkState (nodes s) (queues s) cs' (plan s), Throw (rethrown ex))
  | (cs', inr t') =>
      ∃ s', merge q1 q2 s = (s', Ok tt) ∧
        models (<[q2:=Nil]> (<[q1:=t']> sh)) s' ∧
        cmp_st s' = cs' ∧ plan s' = plan s ∧
        queues s' =
          <[q2:=mkQueue None 0 (comp o2)]>
            (<[q1:=mkQueue (root_of t')
                     (size_t_add (elementCount o1) (elementCount o2)) (comp o1)]>
               (queues s))
  end.
Proof.
  intros Hm Hne Hq1 Hq2.
  pose proof (models_root _ _ Hm _ _ Hq1) as Hroot1.
  pose proof (models_root _ _ Hm _ _ Hq2) as Hroot2.
  pose proof (models_stored _ _ Hm q1 (mk_is_Some _ _ Hq1)) as Hst1.
  pose proof (models_stored _ _ Hm q2 (mk_is_Some _ _ Hq2)) as Hst2.
  assert (Hnd : NoDup (locs (sh q1) ++ locs (sh q2))).
  { apply NoDup_app. split_and!; [by eapply models_NoDup| |by eapply models_NoDup].
    by eapply (models_disjoint _ _ Hm q1 q2). }
  pose proof (merge_nodes_spec (comp o1) _ _ s Hst1 Hst2 Hnd) as Hrun.
  rewrite <- Hroot1, <- Hroot2 in Hrun.
  destruct (skew_merge (comp o1) (cmp_st s) (sh q1) (sh q2))
    as [cs' [ex|t']] eqn:Hsm; simpl in Hrun.
  - unfold merge. rewrite decide_False by done.
    erewrite try_catch_Throw.
    2:{ step get_queue_run. step get_queue_run.
        erewrite bind_Throw; [|exact Hrun]. done. }
    by rewrite rethrow_run.
  - destruct Hrun as (h & Hrun & Ht' & Hfr & Hdom).
    pose proof (skew_merge_locs _ _ _ _ _ _ Hsm) as Hperm.
    eexists. split; [|split_and!].
    + unfold merge. rewrite decide_False by done.
      erewrite try_catch_Ok; [reflexivity|].
      step get_queue_run. step get_queue_run.
      erewrite bind_Ok; [|exact Hrun].
      step set_root_run.
      erewrite bind_Ok; [|eapply get_queue_run; simpl; apply lookup_insert_eq].
      erewrite bind_Ok;
        [|eapply get_queue_run; simpl; rewrite lookup_insert_ne by done; exact Hq2].
      erewrite bind_Ok; [|eapply set_elementCount_run; simpl; apply lookup_insert_eq].
      erewrite bind_Ok;
        [|eapply set_root_run; simpl; rewrite !lookup_insert_ne by done; exact Hq2].
      erewrite set_elementCount_run; [|simpl; apply lookup_insert_eq].
      simpl. unfold set_queues, set_nodes, after_merge. simpl.
      rewrite !insert_insert_eq. reflexivity.
    + eapply (models_frame sh s _ _ [q1; q2] (locs (sh q1) ++ locs (sh q2)));
        simpl; try done.
      * intros l' Hl'%elem_of_dom. rewrite Hdom in Hl'. apply elem_of_dom in Hl'.
        by eapply models_valid.
      * intros q' [Hq1' [Hq2' _]%not_elem_of_cons]%not_elem_of_cons. split.
        -- by rewrite !lookup_insert_ne.
        -- by rewrite !fn_lookup_insert_ne.
      * intros q' [Hq1' [Hq2' _]%not_elem_of_cons]%not_elem_of_cons Hsome l' Hl'.
        apply not_elem_of_app. split.
        -- eapply (models_disjoint _ _ Hm q' q1); eauto.
        -- eapply (models_disjoint _ _ Hm q' q2); eauto.
      * intros q' o' Hq'. apply elem_of_cons in Hq' as [->|Hq'].
        -- rewrite lookup_insert_ne, lookup_insert_eq by done.
           rewrite fn_lookup_insert_ne, fn_lookup_insert by done.
           intros [= <-]. simpl. split_and!; try done.
           ++ erewrite (models_count _ _ Hm q1), (models_count _ _ Hm q2) by eauto.
              assert (Z.of_nat (tsize t') < size_t_mod).
              { apply valid_addrs_bound; [by rewrite Hperm|]. intros l' Hl'.
                eapply models_valid; [done|]. apply elem_of_dom. rewrite <- Hdom.
                apply elem_of_dom. by eapply stored_live. }
              unfold tsize in *. rewrite Hperm, length_app in *.
              unfold size_t_add. rewrite Z.mod_small; lia.
           ++ by rewrite Hperm.
           ++ intros l'. by rewrite Hperm.
        -- apply list_elem_of_singleton in Hq' as ->.
           rewrite lookup_insert_eq, fn_lookup_insert. intros [= <-]. simpl.
           split_and!; try done; [apply NoDup_nil_2|]. intros l' Hl'.
           by apply elem_of_nil in Hl'.
      * intros x y Hx Hy Hxy l'.
        apply elem_of_cons in Hx as [-> | ->%list_elem_of_singleton];
        apply elem_of_cons in Hy as [-> | ->%list_elem_of_singleton]; try done.
        -- rewrite fn_lookup_insert. intros _ Hl'. by apply elem_of_nil in Hl'.
        -- rewrite fn_lookup_insert. intros Hl'. by apply elem_of_nil in Hl'.
    + done.
    + done.
    + done.
Qed.

(** [merge] of a queue into itself. *)
Lemma merge_run_self q s : merge q q s = (s, Ok tt).
Proof. unfold merge. by rewrite decide_True. Qed.

(** [top] on a well-formed state. *)
Lemma top_run sh s q o :
  models sh s → queues s !! q = Some o →
  top q s = (s, match sh q with
                | Nil => Throw container_is_empty
                | Tr _ v _ _ => Ok v
                end).
Proof.
  intros Hm Hq.
  pose proof (models_root _ _ Hm _ _ Hq) as Hroot.
  pose proof (models_count _ _ Hm _ _ Hq) as Hcount.
  pose proof (models_stored _ _ Hm q (mk_is_Some _ _ Hq)) as Hst.
  unfold top. step empty_run.
  destruct (sh q) as [|l v a b]; simpl in *.
  - by rewrite bool_decide_eq_true_2.
  - rewrite bool_decide_eq_false_2 by (rewrite Hcount, tsize_Tr; lia).
    step get_queue_run. rewrite Hroot. destruct Hst as (Hl & _).
    by rewrite (get_value_run _ _ _ Hl).
Qed.

Lemma size_run q o s : queues s !! q = Some o → size q s = (s, Ok (elementCount o)).
Proof. intros H. unfold size. by step get_queue_run. Qed.

(** ** Reachable nodes and the tree of a queue *)

Lemma stored_reach h t x : stored h t → reach h (root_of t) x ↔ x ∈ locs t.
Proof.
  intros Hst. split.
  - remember (root_of t) as p eqn:Hp. intros Hr. revert t Hst Hp.
    induction Hr as [l n Hl|l n x Hl Hr IH|l n x Hl Hr IH]; intros t Hst Hp;
      destruct t as [|l' v a b]; simplify_eq/=; destruct Hst as (Hl' & Ha & Hb);
      rewrite Hl' in Hl; simplify_eq/=.
    + apply elem_of_cons. by left.
    + apply elem_of_cons. right. apply elem_of_app. left. by apply IH.
    + apply elem_of_cons. right. apply elem_of_app. right. by apply IH.
  - induction t as [|l v a IHa b IHb]; simpl in *; [by intros ?%elem_of_nil|].
    destruct Hst as (Hl & Ha & Hb).
    intros [->|[Hx|Hx]%elem_of_app]%elem_of_cons.
    + by eapply reach_here.
    + eapply reach_left; [done|]. by apply IHa.
    + eapply reach_right; [done|]. by apply IHb.
Qed.

(** A pointer of the store is the root of at most one tree. *)
Lemma stored_unique h t t' :
  stored h t → stored h t' → root_of t = root_of t' → t = t'.
Proof.
  revert t'. induction t as [|l v a IHa b IHb]; intros [|l' v' a' b']; simpl;
    try done.
  intros (Hl & Ha & Hb) (Hl' & Ha' & Hb') [= <-].
  rewrite Hl in Hl'. injection Hl' as <- Hra Hrb.
  f_equal; auto.
Qed.

Lemma models_contents sh s q :
  models sh s → is_Some (queues s !! q) → contents s q (sh q).
Proof.
  intros Hm [o Hq]. exists o. split_and!; [done|by eapply models_root|].
  by eapply models_stored.
Qed.

Lemma contents_models sh s q t : models sh s → contents s q t → sh q = t.
Proof.
  intros Hm (o & Hq & Hroot & Hst).
  eapply stored_unique; [by eapply models_stored| done |].
  by erewrite <- models_root.
Qed.

(** ** Clearing, cloning and assigning *)

Lemma new_array_run cap s :
  ∃ s' r, new_array cap s = (s', r) ∧ same_stores s s' ∧
    (r = Throw bad_alloc ∨ (r = Ok tt ∧ cap * 8 < size_t_mod)).
Proof.
  unfold new_array. case_bool_decide as Hc.
  { eexists _, _. split; [done|]. split; [done|]. by left. }
  destruct (plan s) as [|[e|l] rest]; eexists _, _; (split; [done|]);
    (split; [done|]); [by left..|right; split; [done|lia]].
Qed.

Lemma stack_push_run x stack cap s :
  cap_ok (length stack) cap →
  ∃ s' r, stack_push x stack cap s = (s', r) ∧ same_stores s s' ∧
    (r = Throw bad_alloc ∨
     ∃ cap', r = Ok (x :: stack, cap') ∧ cap_ok (S (length stack)) cap').
Proof.
  intros [Htop Hcap]. unfold stack_push.
  assert (Hmod : size_t_mod = 2 ^ 64) by done.
  assert (Hadd : size_t_add (Z.of_nat (length stack)) 1 = Z.of_nat (length stack) + 1).
  { unfold size_t_add. apply Z.mod_small. lia. }
  rewrite Hadd. case_bool_decide as Hgrow.
  - assert (Hmul : size_t_mul cap 2 = cap * 2).
    { unfold size_t_mul. apply Z.mod_small. lia. }
    rewrite Hmul.
    destruct (new_array_run (cap * 2) s) as (s' & r & Hrun & Hsame & [->| [-> Hfit]]).
    + eexists _, _. split; [by erewrite bind_Throw; [|by erewrite bind_Throw]|].
      split; [done|]. by left.
    + eexists _, _. split.
      { erewrite bind_Ok; [|by erewrite bind_Ok]. simpl.
        rewrite bool_decide_eq_true_2 by lia. reflexivity. }
      split; [done|]. right. eexists. split; [done|]. split; lia.
  - eexists _, _. split.
    { erewrite bind_Ok; [|reflexivity]. rewrite bool_decide_eq_true_2 by lia. reflexivity. }
    split; [done|]. right. eexists. split; [done|]. split; lia.
Qed.

Lemma push_child_run a ts cap s :
  cap_ok (length (stack_of ts)) cap →
  ∃ s' r, push_child (root_of a) (stack_of ts) cap s = (s', r) ∧ same_stores s s' ∧
    (r = Throw bad_alloc ∨
     ∃ cap', r = Ok (stack_of (a :: ts), cap') ∧
             cap_ok (length (stack_of (a :: ts))) cap').
Proof.
  intros Hcap. destruct a as [|l v a b]; simpl.
  - eexists _, _. split; [done|]. split; [done|]. right. by exists cap.
  - by apply stack_push_run.
Qed.

Lemma forest_locs_cons t ts : forest_locs (t :: ts) = locs t ++ forest_locs ts.
Proof. done. Qed.

Lemma forest_locs_elem t ts l : t ∈ ts → l ∈ locs t → l ∈ forest_locs ts.
Proof.
  induction ts as [|t' ts IH]; [by intros ?%elem_of_nil|].
  intros [->|Ht]%elem_of_cons Hl; simpl; apply elem_of_app; auto.
Qed.

(** The loop of [clear_nodes] on a forest of the store: it frees every node
    of the forest, unless an allocation for the stack fails on the way; the
    nodes outside the forest are not touched. *)
Lemma clear_nodes_loop_run fuel :
  ∀ ts cap s,
    Forall (stored (nodes s)) ts → NoDup (forest_locs ts) →
    (length (forest_locs ts) ≤ fuel)%nat → cap_ok (length (stack_of ts)) cap →
    ∃ s' r, clear_nodes_loop fuel (stack_of ts) cap s = (s', r) ∧
      queues s' = queues s ∧ cmp_st s' = cmp_st s ∧
      (∀ l, l ∉ forest_locs ts → nodes s' !! l = nodes s !! l) ∧
      (r = Throw bad_alloc ∨
       (r = Ok tt ∧ ∀ l, l ∈ forest_locs ts → nodes s' !! l = None)).
Proof.
  induction fuel as [|fuel IHf]; (induction ts as [|t ts IHts]; intros cap s Hst Hnd Hf Hcap).
  1,3: (exists s, (Ok tt); split_and!; [done..|right; split; [done|]];
        by intros l []%elem_of_nil).
  - destruct t as [|cur v a b]; [|simpl in Hf; lia].
    apply IHts; [by inversion Hst|done..].
  - destruct t as [|cur v a b].
    { apply IHts; [by inversion Hst|done..]. }
    apply Forall_cons in Hst as [(Hcur & Ha & Hb) Hts].
    rewrite forest_locs_cons in Hnd, Hf. simpl in Hnd, Hf.
    assert (Hcap0 : cap_ok (length (stack_of ts)) cap).
    { destruct Hcap as [? ?]. simpl in *. split; lia. }
    cbn [stack_of clear_nodes_loop].
    destruct (push_child_run a ts cap s Hcap0)
      as (s1 & r1 & Hrun1 & (Hn1 & Hq1 & Hc1) & Hr1).
    assert (Hcur1 : nodes s1 !! cur = Some (mkNode v (root_of a) (root_of b)))
      by (by rewrite Hn1).
    destruct Hr1 as [->|(cap1 & -> & Hcap1)].
    { eexists _, _. split.
      { step get_left_run. simpl. by erewrite bind_Throw. }
      split_and!; [done|done| |by left]. intros l _. by rewrite Hn1. }
    destruct (push_child_run b (a :: ts) cap1 s1 Hcap1)
      as (s2 & r2 & Hrun2 & (Hn2 & Hq2 & Hc2) & Hr2).
    assert (Hcur2 : nodes s2 !! cur = Some (mkNode v (root_of a) (root_of b)))
      by (by rewrite Hn2).
    destruct Hr2 as [->|(cap2 & -> & Hcap2)].
    { eexists _, _. split.
      { step get_left_run. simpl. erewrite bind_Ok; [|exact Hrun1].
        step get_right_run. simpl. by erewrite bind_Throw. }
      split_and!; [congruence|congruence| |by left]. intros l _. by rewrite Hn2, Hn1. }
    pose proof (NoDup_cons_1_1 _ _ Hnd) as Hnotin.
    apply NoDup_cons_1_2 in Hnd.
    set (s3 := set_nodes (delete cur (nodes s2)) s2).
    assert (Hperm : forest_locs (b :: a :: ts) ≡ₚ (locs a ++ locs b) ++ forest_locs ts).
    { rewrite !forest_locs_cons. solve_Permutation. }
    destruct (IHf (b :: a :: ts) cap2 s3) as (s' & r & Hrun & Hq & Hc & Hout & Hr).
    { assert (Hag : ∀ t, stored (nodes s) t → cur ∉ locs t → stored (nodes s3) t).
      { intros t Ht Hn. eapply stored_agree; [|exact Ht]. intros l Hl. simpl.
        rewrite lookup_delete_ne, Hn2, Hn1; [done|]. by intros <-. }
      rewrite !not_elem_of_app in Hnotin. destruct Hnotin as ((? & ?) & Hnts).
      repeat apply Forall_cons_2; auto.
      apply Forall_forall. intros t Ht. apply Hag; [by eapply Forall_forall|].
      intros Hin. apply Hnts. by eapply forest_locs_elem. }
    { by rewrite Hperm. }
    { rewrite Hperm. rewrite !length_app in *. lia. }
    { done. }
    exists s', r. split.
    { step get_left_run. simpl. erewrite bind_Ok; [|exact Hrun1].
      step get_right_run. simpl. erewrite bind_Ok; [|exact Hrun2].
      step delete_Node_run. exact Hrun. }
    assert (Hin : ∀ l, l ∈ forest_locs (b :: a :: ts) ↔ l ∈ (locs a ++ locs b) ++ forest_locs ts).
    { intros l. by rewrite Hperm. }
    split_and!.
    + rewrite Hq. simpl. by rewrite Hq2.
    + rewrite Hc. simpl. by rewrite Hc2.
    + intros l [Hne Hl]%not_elem_of_cons.
      rewrite Hout by (by rewrite Hin).
      simpl. by rewrite lookup_delete_ne, Hn2, Hn1.
    + destruct Hr as [->|[-> Hfree]]; [by left|right]. split; [done|].
      intros l [->|Hl]%elem_of_cons.
      * rewrite Hout; [simpl; apply lookup_delete_eq|].
        by rewrite Hin.
      * apply Hfree. by rewrite Hin.
Qed.

(** [clear_nodes] on a tree of the store. *)
Lemma clear_nodes_run t s :
  stored (nodes s) t → NoDup (locs t) →
  ∃ s' r, clear_nodes (root_of t) s = (s', r) ∧
    queues s' = queues s ∧ cmp_st s' = cmp_st s ∧
    (∀ l, l ∉ locs t → nodes s' !! l = nodes s !! l) ∧
    (r = Throw bad_alloc ∨ (r = Ok tt ∧ ∀ l, l ∈ locs t → nodes s' !! l = None)).
Proof.
  intros Hst Hnd. destruct t as [|l v a b].
  { exists s, (Ok tt). split_and!; [done..|]. right. split; [done|].
    by intros l []%elem_of_nil. }
  cbn [root_of clear_nodes].
  destruct (new_array_run 1024 s) as (s1 & r1 & Hrun1 & (Hn1 & Hq1 & Hc1) & Hr1).
  destruct Hr1 as [->|[-> _]].
  { eexists _, _. split; [by erewrite bind_Throw|].
    split_and!; [done|done| |by left]. intros x _. by rewrite Hn1. }
  destruct (clear_nodes_loop_run (base.size (nodes s1)) [Tr l v a b] 1024 s1)
    as (s' & r & Hrun & Hq & Hc & Hout & Hr).
  { apply Forall_singleton. by rewrite Hn1. }
  { simpl. by rewrite app_nil_r. }
  { simpl. rewrite app_nil_r, Hn1. apply (live_bound _ (locs (Tr l v a b))); [done|].
    intros x Hx. by eapply stored_live. }
  { split; [simpl; lia|done]. }
  simpl in Hout, Hr. rewrite app_nil_r in Hout, Hr.
  exists s', r. split; [by erewrite bind_Ok|].
  split_and!; [congruence|congruence| |done].
  intros x Hx. by rewrite Hout, Hn1.
Qed.

Lemma stored_preserved h h' t :
  (∀ l n, h !! l = Some n → h' !! l = Some n) → stored h t → stored h' t.
Proof.
  intros Hp Hst. eapply stored_agree; [|exact Hst]. intros l Hl.
  destruct (stored_live _ _ _ Hst Hl) as [n Hn]. by rewrite Hn, (Hp _ _ Hn).
Qed.

(** [clone_nodes_rec] on a tree of the store: it returns a copy of the tree
    at fresh addresses, or throws; no node that was live changes. *)
Lemma clone_nodes_rec_run fuel :
  ∀ t s,
    stored (nodes s) t → (tsize t ≤ fuel)%nat →
    ∃ s' r, clone_nodes_rec fuel (root_of t) s = (s', r) ∧
      queues s' = queues s ∧ cmp_st s' = cmp_st s ∧
      (∀ l n, nodes s !! l = Some n → nodes s' !! l = Some n) ∧
      ((∃ e, r = Throw e) ∨
       ∃ t', r = Ok (root_of t') ∧ same_values t t' ∧ stored (nodes s') t' ∧
             NoDup (locs t') ∧
             (∀ l, l ∈ locs t' → nodes s !! l = None ∧ valid_addr l = true) ∧
             (∀ l, l ∉ locs t' → nodes s' !! l = nodes s !! l)).
Proof.
  induction fuel as [|fuel IH]; intros [|l v a b] s Hst Hf.
  1,3: (exists s, (Ok None); split_and!; [done..|right; exists Nil];
        split_and!; [done|done|done|apply NoDup_nil_2| |done];
        by intros ? []%elem_of_nil).
  { rewrite tsize_Tr in Hf. lia. }
  rewrite tsize_Tr in Hf. destruct Hst as (Hl & Ha & Hb).
  cbn [root_of clone_nodes_rec].
  erewrite bind_Ok; [|apply (get_value_run _ _ _ Hl)]. cbn [value].
  destruct (new_Node v s) as [s1 [copy|e| |]] eqn:Hnew.
  3: { destruct (new_Node_outcome v s) as [H _]. by rewrite Hnew in H. }
  3: { destruct (new_Node_outcome v s) as [_ H]. by rewrite Hnew in H. }
  2: { exists s1, (Throw e). split; [by erewrite bind_Throw|].
       rewrite (new_Node_Throw _ _ _ _ Hnew). split_and!; [done..|]. left. eauto. }
  destruct (new_Node_Ok _ _ _ _ Hnew) as (rest & Hplan & Hfresh & Hvalid & Hs1).
  erewrite bind_Ok; [|exact Hnew].
  assert (Hne : ∀ x n, nodes s !! x = Some n → x ≠ copy) by (intros x n Hx ->; congruence).
  assert (Hp1 : ∀ x n, nodes s !! x = Some n → nodes s1 !! x = Some n).
  { intros x n Hx. rewrite Hs1. simpl. rewrite lookup_insert_ne; [done|].
    intros <-. congruence. }
  assert (Hcopy1 : nodes s1 !! copy = Some (mkNode v None None)).
  { rewrite Hs1. simpl. apply lookup_insert_eq. }
  assert (Hq1 : queues s1 = queues s) by (by rewrite Hs1).
  assert (Hc1 : cmp_st s1 = cmp_st s) by (by rewrite Hs1).
  clear Hnew Hplan.
  (* the left subtree *)
  destruct (IH a s1) as (s2 & r2 & Hrun2 & Hq2 & Hc2 & Hp2 & Hr2);
    [by eapply stored_preserved|lia|].
  destruct Hr2 as [[e ->]|(a' & -> & Hsa & Hsta & Hnda & Hfa & Houta)].
  { destruct (clear_nodes_run (Tr copy v Nil Nil) s2)
      as (s3 & r3 & Hrun3 & Hq3 & Hc3 & Hout3 & Hr3).
    { simpl. split_and!; try done. by apply Hp2. }
    { apply NoDup_singleton. }
    assert (Hbody : ∃ e', (try_catch
      (nl <- get_left l;; cl <- clone_nodes_rec fuel nl;; set_left copy cl;;;
       nr <- get_right l;; cr <- clone_nodes_rec fuel nr;; set_right copy cr)
      (λ e, clear_nodes (Some copy);;; throw e)) s1 = (s3, Throw e')).
    { erewrite try_catch_Throw.
      2:{ erewrite bind_Ok; [|apply (get_left_run _ _ _ (Hp1 _ _ Hl))]. cbn [left].
          by erewrite bind_Throw. }
      destruct Hr3 as [->|[-> _]].
      - exists bad_alloc. by erewrite bind_Throw.
      - exists e. by erewrite bind_Ok. }
    destruct Hbody as [e' Hbody].
    exists s3, (Throw e'). split; [by erewrite bind_Throw|].
    split_and!; [congruence|congruence| |left; eauto].
    intros x n Hx. rewrite Hout3; [by apply Hp2, Hp1|].
    simpl. rewrite not_elem_of_cons. split; [by eapply Hne|apply not_elem_of_nil]. }
  assert (Hcopya : copy ∉ locs a').
  { intros Hin. destruct (Hfa _ Hin) as [Hnone _]. congruence. }
  set (s3 := set_nodes (<[copy:=mkNode v (root_of a') None]> (nodes s2)) s2).
  assert (Hp3 : ∀ x n, nodes s !! x = Some n → nodes s3 !! x = Some n).
  { intros x n Hx. simpl. rewrite lookup_insert_ne; [by apply Hp2, Hp1|].
    intros <-. congruence. }
  assert (Hcopy3 : nodes s3 !! copy = Some (mkNode v (root_of a') None)).
  { simpl. apply lookup_insert_eq. }
  assert (Hsta3 : stored (nodes s3) a').
  { eapply stored_agree; [|exact Hsta]. intros x Hx. simpl.
    rewrite lookup_insert_ne; [done|]. by intros <-. }
  (* the right subtree *)
  destruct (IH b s3) as (s4 & r4 & Hrun4 & Hq4 & Hc4 & Hp4 & Hr4);
    [by eapply stored_preserved|lia|].
  assert (Hprefix : ∀ (k : ptr → M unit) ,
    (nl <- get_left l;; cl <- clone_nodes_rec fuel nl;; set_left copy cl;;;
     nr <- get_right l;; cr <- clone_nodes_rec fuel nr;; k cr) s1
    = (cr <- clone_nodes_rec fuel (root_of b);; k cr) s3).
  { intros k.
    erewrite bind_Ok; [|apply (get_left_run _ _ _ (Hp1 _ _ Hl))]. cbn [left].
    erewrite bind_Ok; [|exact Hrun2].
    erewrite bind_Ok; [|apply (set_left_run _ _ _ _ (Hp2 _ _ Hcopy1))].
    cbn [value right]. fold s3.
    erewrite bind_Ok; [|apply (get_right_run _ _ _ (Hp3 _ _ Hl))]. done. }
  destruct Hr4 as [[e ->]|(b' & -> & Hsb & Hstb & Hndb & Hfb & Houtb)].
  { destruct (clear_nodes_run (Tr copy v a' Nil) s4)
      as (s5 & r5 & Hrun5 & Hq5 & Hc5 & Hout5 & Hr5).
    { simpl. split_and!; [by apply Hp4|by eapply stored_preserved|done]. }
    { simpl. rewrite app_nil_r. by apply NoDup_cons. }
    assert (Hbody : ∃ e', (try_catch
      (nl <- get_left l;; cl <- clone_nodes_rec fuel nl;; set_left copy cl;;;
       nr <- get_right l;; cr <- clone_nodes_rec fuel nr;; set_right copy cr)
      (λ e, clear_nodes (Some copy);;; throw e)) s1 = (s5, Throw e')).
    { erewrite try_catch_Throw; [|rewrite Hprefix; by erewrite bind_Throw].
      destruct Hr5 as [->|[-> _]].
      - exists bad_alloc. by erewrite bind_Throw.
      - exists e. by erewrite bind_Ok. }
    destruct Hbody as [e' Hbody].
    exists s5, (Throw e'). split; [by erewrite bind_Throw|].
    split_and!; [simpl in *; congruence|simpl in *; congruence| |left; eauto].
    intros x n Hx. rewrite Hout5; [by apply Hp4, Hp3|].
    simpl. rewrite app_nil_r, not_elem_of_cons. split; [by eapply Hne|].
    intros Hin. destruct (Hfa _ Hin) as [Hnone _]. rewrite (Hp1 _ _ Hx) in Hnone. done. }
  assert (Hcopyb : copy ∉ locs b').
  { intros Hin. destruct (Hfb _ Hin) as [Hnone _]. congruence. }
  set (s5 := set_nodes (<[copy:=mkNode v (root_of a') (root_of b')]> (nodes s4)) s4).
  exists s5, (Ok (Some copy)). split.
  { erewrite bind_Ok; [done|]. erewrite try_catch_Ok; [done|].
    rewrite Hprefix. erewrite bind_Ok; [|exact Hrun4].
    by erewrite (set_right_run _ _ _ _ (Hp4 _ _ Hcopy3)). }
  assert (Hfresh' : ∀ x, x ∈ locs (Tr copy v a' b') →
            nodes s !! x = None ∧ valid_addr x = true).
  { intros x [->|[Hx|Hx]%elem_of_app]%elem_of_cons; [done| |].
    - destruct (Hfa _ Hx) as [Hnone ?]. split; [|done].
      destruct (nodes s !! x) as [n|] eqn:Hx'; [|done].
      by rewrite (Hp1 _ _ Hx') in Hnone.
    - destruct (Hfb _ Hx) as [Hnone ?]. split; [|done].
      destruct (nodes s !! x) as [n|] eqn:Hx'; [|done].
      by rewrite (Hp3 _ _ Hx') in Hnone. }
  assert (Hout' : ∀ x, x ∉ locs (Tr copy v a' b') → nodes s5 !! x = nodes s !! x).
  { intros x. simpl. rewrite not_elem_of_cons, not_elem_of_app.
    intros (Hx & Hxa & Hxb).
    rewrite lookup_insert_ne by done. rewrite Houtb by done. simpl.
    rewrite lookup_insert_ne by done. rewrite Houta by done.
    rewrite Hs1. simpl. by rewrite lookup_insert_ne. }
  split_and!; [simpl in *; congruence|simpl in *; congruence| |right].
  { intros x n Hx. rewrite Hout'; [done|]. intros Hin.
    destruct (Hfresh' _ Hin) as [Hnone _]. congruence. }
  exists (Tr copy v a' b'). split_and!; [done|done| | |done|done].
  - simpl. split_and!.
    + apply lookup_insert_eq.
    + eapply stored_agree; [|eapply stored_preserved; [exact Hp4|exact Hsta3]].
      intros x Hx. rewrite lookup_insert_ne; [done|]. by intros <-.
    + eapply stored_agree; [|exact Hstb].
      intros x Hx. rewrite lookup_insert_ne; [done|]. by intros <-.
  - simpl. apply NoDup_cons. split.
    + rewrite not_elem_of_app. done.
    + apply NoDup_app. split_and!; [done| |done].
      intros x Hxa Hxb. destruct (Hfb _ Hxb) as [Hnone _].
      destruct (stored_live _ _ _ Hsta3 Hxa) as [n Hn]. congruence.
Qed.

Lemma clone_nodes_null s : clone_nodes None s = (s, Ok None).
Proof. unfold clone_nodes. by destruct (base.size (nodes s)). Qed.

(** [clone_nodes] on a tree of the store. *)
Lemma clone_nodes_run t s :
  stored (nodes s) t → NoDup (locs t) →
  ∃ s' r, clone_nodes (root_of t) s = (s', r) ∧
    queues s' = queues s ∧ cmp_st s' = cmp_st s ∧
    (∀ l n, nodes s !! l = Some n → nodes s' !! l = Some n) ∧
    ((∃ e, r = Throw e) ∨
     ∃ t', r = Ok (root_of t') ∧ same_values t t' ∧ stored (nodes s') t' ∧
           NoDup (locs t') ∧
           (∀ l, l ∈ locs t' → nodes s !! l = None ∧ valid_addr l = true) ∧
           (∀ l, l ∉ locs t' → nodes s' !! l = nodes s !! l)).
Proof.
  intros Hst Hnd. apply clone_nodes_rec_run; [done|].
  apply live_bound; [done|]. intros l Hl. by eapply stored_live.
Qed.

Lemma same_values_tsize t t' : same_values t t' → tsize t' = tsize t.
Proof.
  revert t'. induction t as [|l v a IHa b IHb]; intros [|l' v' a' b']; simpl; try done.
  intros (_ & Ha & Hb). rewrite !tsize_Tr. by rewrite (IHa _ Ha), (IHb _ Hb).
Qed.

Lemma same_values_elems t t' : same_values t t' → elems t' = elems t.
Proof.
  revert t'. induction t as [|l v a IHa b IHb]; intros [|l' v' a' b']; simpl; try done.
  intros (<- & Ha & Hb). by rewrite (IHa _ Ha), (IHb _ Hb).
Qed.

(** A queue adopts a tree of fresh nodes, and the nodes in [dead] are
    freed. *)
Lemma models_adopt sh s s' this t' o' (dead : list loc) :
  models sh s →
  queues s' = <[this:=o']> (queues s) →
  root o' = root_of t' → elementCount o' = Z.of_nat (tsize t') →
  stored (nodes s') t' → NoDup (locs t') →
  (∀ l, l ∈ locs t' → nodes s !! l = None ∧ valid_addr l = true) →
  (∀ l, l ∉ dead → l ∉ locs t' → nodes s' !! l = nodes s !! l) →
  (∀ l, l ∈ dead → nodes s' !! l = None) →
  (∀ q, q ≠ this → is_Some (queues s !! q) → ∀ l, l ∈ locs (sh q) → l ∉ dead) →
  models (<[this:=t']> sh) s'.
Proof.
  intros Hm Hqs Hroot Hcount Hst Hnd Hfresh Hout Hdead Hothers.
  apply (models_frame sh s _ _ [this] (dead ++ locs t')); try done.
  - intros l Hl. destruct (decide (l ∈ dead)) as [Hd|Hd].
    { rewrite (Hdead _ Hd) in Hl. by destruct Hl. }
    destruct (decide (l ∈ locs t')) as [Ht|Ht]; [by apply Hfresh|].
    rewrite Hout in Hl by done. by eapply models_valid.
  - intros l [? ?]%not_elem_of_app. by apply Hout.
  - intros q [Hne _]%not_elem_of_cons.
    by rewrite Hqs, lookup_insert_ne, fn_lookup_insert_ne.
  - intros q [Hne _]%not_elem_of_cons Hq l Hl. apply not_elem_of_app. split.
    + by eapply Hothers.
    + intros Hin. destruct (Hfresh _ Hin) as [Hnone _].
      destruct (stored_live _ _ _ (models_stored _ _ Hm q Hq) Hl) as [n Hn]. congruence.
  - intros q o ->%list_elem_of_singleton. rewrite Hqs, lookup_insert_eq, fn_lookup_insert.
    intros [= <-]. split_and!; try done. intros l Hl. apply elem_of_app. by right.
  - intros q1 q2 ->%list_elem_of_singleton ->%list_elem_of_singleton. done.
Qed.

Lemma set_comp_run q c o s :
  queues s !! q = Some o →
  set_comp q c s
  = (set_queues (<[q:=mkQueue (root o) (elementCount o) c]> (queues s)) s, Ok tt).
Proof. intros H. unfold set_comp. by rewrite (bind_Ok _ _ _ _ _ (get_queue_run _ _ _ H)). Qed.

(** Copy-assignment between two distinct queues of a well-formed state: it
    throws, or the destination holds a copy of the source's tree at fresh
    addresses, with the count and the comparison of the source. *)
Lemma assign_run sh s this other o p :
  models sh s → this ≠ other →
  queues s !! this = Some o → queues s !! other = Some p →
  ∃ s' r, assign this other s = (s', r) ∧ cmp_st s' = cmp_st s ∧
    ((∃ e, r = Throw e) ∨
     (r = Ok tt ∧ ∃ t',
        same_values (sh other) t' ∧ models (<[this:=t']> sh) s' ∧
        queues s' = <[this:=mkQueue (root_of t') (elementCount p) (comp p)]> (queues s) ∧
        (∀ l, l ∈ locs t' → nodes s !! l = None) ∧
        (∀ l, l ∈ locs (sh this) → nodes s' !! l = None) ∧
        (∀ l, l ∉ locs (sh this) → l ∉ locs t' → nodes s' !! l = nodes s !! l))).
Proof.
  intros Hm Hne Ho Hp. unfold assign. rewrite decide_False by done.
  erewrite bind_Ok; [|by apply get_queue_run].
  pose proof (models_root _ _ Hm _ _ Hp) as Hrp.
  pose proof (models_root _ _ Hm _ _ Ho) as Hro.
  destruct (clone_nodes_run (sh other) s) as (s1 & r1 & Hrun1 & Hq1 & Hc1 & Hp1 & Hr1).
  { by eapply models_stored. }
  { by eapply models_NoDup. }
  assert (Hclone : (match root p with
                    | Some _ => clone_nodes (root p)
                    | None => ret None
                    end) s = (s1, r1)).
  { rewrite Hrp. destruct (sh other); [|done]. simpl in *.
    by rewrite clone_nodes_null in Hrun1. }
  destruct Hr1 as [[e ->]|(t' & -> & Hsv & Hst' & Hnd' & Hfresh & Hout1)].
  { exists s1, (Throw e). split; [|split; [done|left; eauto]].
    erewrite bind_Throw; [done|]. by erewrite try_catch_Throw. }
  erewrite bind_Ok; [|by erewrite try_catch_Ok].
  erewrite bind_Ok; [|apply get_queue_run; by rewrite Hq1].
  destruct (clear_nodes_run (sh this) s1) as (s2 & r2 & Hrun2 & Hq2 & Hc2 & Hout2 & Hr2).
  { eapply stored_preserved; [exact Hp1|]. by eapply models_stored. }
  { by eapply models_NoDup. }
  rewrite Hro.
  destruct Hr2 as [->|[-> Hfree]].
  { exists s2, (Throw bad_alloc). split; [by erewrite bind_Throw|].
    split; [congruence|left; eauto]. }
  erewrite bind_Ok; [|exact Hrun2].
  assert (Ho2 : queues s2 !! this = Some o) by (by rewrite Hq2, Hq1).
  assert (Hp2 : queues s2 !! other = Some p) by (by rewrite Hq2, Hq1).
  erewrite bind_Ok; [|by apply set_root_run].
  erewrite bind_Ok; [|apply get_queue_run; simpl; by rewrite lookup_insert_ne].
  erewrite bind_Ok; [|eapply set_elementCount_run; simpl; apply lookup_insert_eq].
  erewrite set_comp_run; [|simpl; apply lookup_insert_eq].
  simpl. rewrite !insert_insert_eq, Hq2, Hq1.
  eexists _, _. split; [done|]. simpl. split; [congruence|]. right. split; [done|].
  assert (Hdisj : ∀ l, l ∈ locs (sh this) → l ∉ locs t').
  { intros l Hl Hin. destruct (Hfresh _ Hin) as [Hnone _].
    destruct (stored_live _ _ _ (models_stored _ _ Hm this (mk_is_Some _ _ Ho)) Hl)
      as [n Hn]. congruence. }
  exists t'. split_and!; [done| |done|by intros l [? _]%Hfresh|done|].
  - eapply (models_adopt sh s _ this t' _ (locs (sh this))); simpl; try done.
    + simpl. rewrite (same_values_tsize _ _ Hsv). by eapply models_count.
    + eapply stored_agree; [|exact Hst']. intros l Hl. apply Hout2.
      intros Hin. by eapply Hdisj.
    + intros l Hl1 Hl2. by rewrite Hout2, Hout1.
    + intros q Hq [? ?] l Hl Hin.
      eapply (models_disjoint _ _ Hm q this); eauto.
  - intros l Hl1 Hl2. simpl. by rewrite Hout2, Hout1.
Qed.

(** The copy constructor on a well-formed state: it throws, or the new queue
    holds a copy of the source's tree at fresh addresses. *)
Lemma copy_construct_run sh s this other p :
  models sh s → queues s !! this = None → queues s !! other = Some p →
  ∃ s' r, copy_construct this other s = (s', r) ∧ cmp_st s' = cmp_st s ∧
    ((∃ e, r = Throw e ∧ queues s' = queues s) ∨
     (r = Ok tt ∧ ∃ t',
        same_values (sh other) t' ∧ models (<[this:=t']> sh) s' ∧
        queues s' = <[this:=mkQueue (root_of t') (elementCount p) (comp p)]> (queues s) ∧
        (∀ l, l ∈ locs t' → nodes s !! l = None) ∧
        (∀ l, l ∉ locs t' → nodes s' !! l = nodes s !! l))).
Proof.
  intros Hm Hthis Hp. unfold copy_construct.
  erewrite bind_Ok; [|by apply get_queue_run].
  pose proof (models_root _ _ Hm _ _ Hp) as Hrp.
  destruct (clone_nodes_run (sh other) s) as (s1 & r1 & Hrun1 & Hq1 & Hc1 & Hp1 & Hr1).
  { by eapply models_stored. }
  { by eapply models_NoDup. }
  assert (Hclone : (match root p with
                    | Some _ => clone_nodes (root p)
                    | None => ret None
                    end) s = (s1, r1)).
  { rewrite Hrp. destruct (sh other); [|done]. simpl in *.
    by rewrite clone_nodes_null in Hrun1. }
  destruct Hr1 as [[e ->]|(t' & -> & Hsv & Hst' & Hnd' & Hfresh & Hout1)].
  { exists s1, (Throw e). split; [by erewrite bind_Throw|]. split; [done|left; eauto]. }
  erewrite bind_Ok; [|exact Hclone].
  eexists _, _. split; [done|]. simpl. split; [done|]. right. split; [done|].
  exists t'. rewrite Hq1. split_and!; [done| |done|by intros l [? _]%Hfresh|done].
  eapply (models_adopt sh s _ this t' _ []); simpl; try done.
  - simpl. rewrite (same_values_tsize _ _ Hsv). by eapply models_count.
  - intros l _. apply Hout1.
  - by intros l []%elem_of_nil.
  - intros q _ _ l _. apply not_elem_of_nil.
Qed.

(** ** With memory, copies succeed *)

Lemma new_Node_granted v l rest s :
  plan s = inr l :: rest → nodes s !! l = None → valid_addr l = true →
  new_Node v s
  = (mkState (<[l:=mkNode v None None]> (nodes s)) (queues s) (cmp_st s) rest, Ok l).
Proof. unfold new_Node. by intros -> -> ->. Qed.

(** When the allocator hands out the fresh addresses [ls], one for every
    node of the tree, [clone_nodes_rec] returns a copy that lies at these
    addresses, in the order of the allocations. *)
Lemma clone_nodes_rec_granted fuel :
  ∀ t s ls rest,
    stored (nodes s) t → (tsize t ≤ fuel)%nat →
    plan s = (inr <$> ls) ++ rest → length ls = tsize t → NoDup ls →
    (∀ l, l ∈ ls → nodes s !! l = None ∧ valid_addr l = true) →
    ∃ s' t', clone_nodes_rec fuel (root_of t) s = (s', Ok (root_of t')) ∧
      locs t' = ls ∧ plan s' = rest ∧ stored (nodes s') t' ∧
      (∀ l, l ∉ ls → nodes s' !! l = nodes s !! l).
Proof.
  induction fuel as [|fuel IH]; intros [|l v a b] s ls rest Hst Hf Hplan Hlen Hnd Hfresh.
  1,3: (destruct ls; [|done]; exists s, Nil; by split_and!).
  { rewrite tsize_Tr in Hf. lia. }
  rewrite tsize_Tr in Hf, Hlen. destruct Hst as (Hl & Ha & Hb).
  destruct ls as [|c ls]; [done|]. simpl in Hlen.
  set (la := take (tsize a) ls). set (lb := drop (tsize a) ls).
  assert (Hls : ls = la ++ lb) by (symmetry; apply take_drop).
  assert (Hla : length la = tsize a) by (unfold la; rewrite length_take; lia).
  assert (Hlb : length lb = tsize b) by (unfold lb; rewrite length_drop; lia).
  clearbody la lb. subst ls.
  apply NoDup_cons in Hnd as [Hc Hnd]. apply NoDup_app in Hnd as (Hnda & Hdisj & Hndb).
  rewrite not_elem_of_app in Hc. destruct Hc as [Hca Hcb].
  destruct (Hfresh c) as [Hcf Hcv]; [by left|].
  assert (Hfa : ∀ x, x ∈ la → nodes s !! x = None ∧ valid_addr x = true).
  { intros x Hx. apply Hfresh. right. apply elem_of_app. by left. }
  assert (Hfb : ∀ x, x ∈ lb → nodes s !! x = None ∧ valid_addr x = true).
  { intros x Hx. apply Hfresh. right. apply elem_of_app. by right. }
  assert (Hlive : ∀ t x, stored (nodes s) t → x ∈ locs t →
            x ≠ c ∧ (x ∉ la) ∧ (x ∉ lb)).
  { intros t x Ht Hx. destruct (stored_live _ _ _ Ht Hx) as [n Hn].
    split_and!.
    - intros ->. congruence.
    - intros Hin. destruct (Hfa _ Hin). congruence.
    - intros Hin. destruct (Hfb _ Hin). congruence. }
  destruct (Hlive (Tr l v a b) l) as (Hlc & Hlla & Hllb); [by split_and!|by left|].
  cbn [root_of clone_nodes_rec].
  erewrite bind_Ok; [|apply (get_value_run _ _ _ Hl)]. cbn [value].
  erewrite bind_Ok; [|by apply (new_Node_granted v c ((inr <$> (la ++ lb)) ++ rest))].
  set (s1 := mkState (<[c:=mkNode v None None]> (nodes s)) (queues s) (cmp_st s)
               ((inr <$> (la ++ lb)) ++ rest)).
  assert (Hl1 : nodes s1 !! l = Some (mkNode v (root_of a) (root_of b))).
  { simpl. by rewrite lookup_insert_ne. }
  destruct (IH a s1 la ((inr <$> lb) ++ rest))
    as (s2 & a' & Hrun2 & Hla' & Hplan2 & Hsta & Hout2).
  { eapply stored_agree; [|exact Ha]. intros x Hx. simpl.
    rewrite lookup_insert_ne; [done|]. intros <-. by destruct (Hlive a c Ha Hx). }
  { lia. }
  { simpl. by rewrite fmap_app, <- app_assoc. }
  { done. }
  { done. }
  { intros x Hx. simpl. rewrite lookup_insert_ne; [by apply Hfa|]. by intros <-. }
  assert (Hc2 : nodes s2 !! c = Some (mkNode v None None)).
  { rewrite Hout2 by done. simpl. apply lookup_insert_eq. }
  assert (Hl2 : nodes s2 !! l = Some (mkNode v (root_of a) (root_of b))).
  { rewrite Hout2 by done. simpl. by rewrite lookup_insert_ne. }
  set (s3 := set_nodes (<[c:=mkNode v (root_of a') None]> (nodes s2)) s2).
  assert (Hl3 : nodes s3 !! l = Some (mkNode v (root_of a) (root_of b))).
  { simpl. by rewrite lookup_insert_ne. }
  destruct (IH b s3 lb rest) as (s4 & b' & Hrun4 & Hlb' & Hplan4 & Hstb & Hout4).
  { eapply stored_agree; [|exact Hb]. intros x Hx.
    destruct (Hlive b x Hb Hx) as (? & ? & ?). simpl.
    rewrite lookup_insert_ne, Hout2 by done. simpl. by rewrite lookup_insert_ne. }
  { lia. }
  { done. }
  { done. }
  { done. }
  { intros x Hx. simpl.
    assert (x ≠ c) by (by intros ->).
    assert (x ∉ la) by (intros ?; by eapply Hdisj).
    rewrite lookup_insert_ne, Hout2 by done. simpl.
    rewrite lookup_insert_ne by done. by apply Hfb. }
  assert (Hc4 : nodes s4 !! c = Some (mkNode v (root_of a') None)).
  { rewrite Hout4 by done. simpl. apply lookup_insert_eq. }
  exists (set_nodes (<[c:=mkNode v (root_of a') (root_of b')]> (nodes s4)) s4),
    (Tr c v a' b').
  split_and!.
  - erewrite bind_Ok; [done|]. erewrite try_catch_Ok; [done|].
    erewrite bind_Ok; [|apply (get_left_run _ _ _ Hl1)].
    cbn [left]. erewrite bind_Ok; [|exact Hrun2].
    erewrite bind_Ok; [|apply (set_left_run _ _ _ _ Hc2)]. cbn [value right]. fold s3.
    erewrite bind_Ok; [|apply (get_right_run _ _ _ Hl3)].
    cbn [right]. erewrite bind_Ok; [|exact Hrun4].
    by erewrite (set_right_run _ _ _ _ Hc4).
  - simpl. by rewrite Hla', Hlb'.
  - done.
  - simpl. split_and!.
    + apply lookup_insert_eq.
    + eapply stored_agree; [|exact Hsta]. rewrite Hla'. intros x Hx.
      assert (x ≠ c) by (by intros ->).
      assert (x ∉ lb) by (intros ?; by eapply Hdisj).
      rewrite lookup_insert_ne, Hout4 by done. simpl. by rewrite lookup_insert_ne.
    + eapply stored_agree; [|exact Hstb]. rewrite Hlb'. intros x Hx.
      rewrite lookup_insert_ne; [done|]. by intros <-.
  - intros x. rewrite not_elem_of_cons, not_elem_of_app. intros (? & ? & ?). simpl.
    rewrite lookup_insert_ne, Hout4 by done. simpl.
    rewrite lookup_insert_ne, Hout2 by done. simpl. by rewrite lookup_insert_ne.
Qed.

Lemma granted_S n pl : granted (S n) pl → granted n pl.
Proof.
  revert pl. induction n as [|n IH]; intros pl; [done|].
  destruct pl as [|[e|l] pl]; simpl; try done. apply IH.
Qed.

Lemma granted_le n m pl : (m ≤ n)%nat → granted n pl → granted m pl.
Proof. induction 1 as [|n Hle IH]; [done|]. intros H. by apply IH, granted_S. Qed.

Lemma new_array_granted cap n s :
  cap * 8 < size_t_mod → granted (S n) (plan s) →
  ∃ s', new_array cap s = (s', Ok tt) ∧ same_stores s s' ∧ granted n (plan s').
Proof.
  intros Hcap Hg. unfold new_array. rewrite bool_decide_eq_false_2 by lia.
  destruct (plan s) as [|[e|l] rest] eqn:Hplan; simpl in Hg; try done.
  eexists. split; [done|]. by split.
Qed.

Lemma stack_push_granted x stack cap n s :
  cap_ok (length stack) cap → Z.of_nat (length stack) + 1 < 2 ^ 60 →
  granted (S n) (plan s) →
  ∃ s' cap', stack_push x stack cap s = (s', Ok (x :: stack, cap')) ∧
    same_stores s s' ∧ cap_ok (S (length stack)) cap' ∧ granted n (plan s').
Proof.
  intros [Htop Hcap] Hsmall Hg. unfold stack_push.
  assert (Hmod : size_t_mod = 2 ^ 64) by done.
  assert (Hadd : size_t_add (Z.of_nat (length stack)) 1 = Z.of_nat (length stack) + 1).
  { unfold size_t_add. apply Z.mod_small. lia. }
  rewrite Hadd. case_bool_decide as Hgrow.
  - assert (Hmul : size_t_mul cap 2 = cap * 2).
    { unfold size_t_mul. apply Z.mod_small. lia. }
    rewrite Hmul.
    destruct (new_array_granted (cap * 2) n s) as (s' & Hrun & Hsame & Hg'); [lia|done|].
    exists s', (cap * 2). split_and!; [|done| |done].
    + erewrite bind_Ok; [|by erewrite bind_Ok]. simpl.
      rewrite bool_decide_eq_true_2 by lia. reflexivity.
    + split; lia.
  - exists s, cap. split_and!; [|done| |by apply granted_S].
    + erewrite bind_Ok; [|reflexivity]. rewrite bool_decide_eq_true_2 by lia. reflexivity.
    + split; lia.
Qed.

Lemma stack_of_length ts : (length (stack_of ts) ≤ length (forest_locs ts))%nat.
Proof.
  induction ts as [|[|l v a b] ts IH]; simpl; [lia|lia|].
  rewrite !length_app. lia.
Qed.

Lemma stack_of_cons_length t ts :
  (length (stack_of (t :: ts)) ≤ tsize t + length (stack_of ts))%nat.
Proof. destruct t; [simpl; lia|]. rewrite tsize_Tr. simpl. lia. Qed.

Lemma push_child_granted a ts cap n s :
  cap_ok (length (stack_of ts)) cap →
  Z.of_nat (length (stack_of ts)) + 1 < 2 ^ 60 →
  granted n (plan s) → (tsize a ≤ n)%nat →
  ∃ s' cap' n', push_child (root_of a) (stack_of ts) cap s
                = (s', Ok (stack_of (a :: ts), cap')) ∧
    same_stores s s' ∧ cap_ok (length (stack_of (a :: ts))) cap' ∧
    granted n' (plan s') ∧
    (n + length (stack_of ts) ≤ n' + length (stack_of (a :: ts)))%nat.
Proof.
  intros Hcap Hsmall Hg Hn. destruct a as [|l v a b]; simpl.
  - exists s, cap, n. by split_and!.
  - rewrite tsize_Tr in Hn. destruct n as [|n]; [lia|].
    destruct (stack_push_granted l (stack_of ts) cap n s Hcap Hsmall Hg)
      as (s' & cap' & Hrun & Hsame & Hcap' & Hg').
    exists s', cap', n. split_and!; [done..|lia].
Qed.

(** One iteration of the loop leaves the forest of the children and of the
    trees below on the stack. *)
Lemma forest_step h cur v a b ts :
  Forall (stored h) (Tr cur v a b :: ts) →
  NoDup (forest_locs (Tr cur v a b :: ts)) →
  Forall (stored (delete cur h)) (b :: a :: ts) ∧
  NoDup (forest_locs (b :: a :: ts)) ∧
  length (forest_locs (Tr cur v a b :: ts)) = S (length (forest_locs (b :: a :: ts))).
Proof.
  intros [(Hcur & Ha & Hb) Hts]%Forall_cons Hnd. simpl in Hnd.
  pose proof (NoDup_cons_1_1 _ _ Hnd) as Hnotin.
  apply NoDup_cons_1_2 in Hnd.
  assert (Hperm : forest_locs (b :: a :: ts) ≡ₚ (locs a ++ locs b) ++ forest_locs ts).
  { simpl. solve_Permutation. }
  split_and!.
  - assert (Hag : ∀ t, stored h t → cur ∉ locs t → stored (delete cur h) t).
    { intros t Ht Hn. eapply stored_agree; [|exact Ht]. intros l Hl.
      rewrite lookup_delete_ne; [done|]. by intros <-. }
    rewrite !not_elem_of_app in Hnotin. destruct Hnotin as ((? & ?) & Hnts).
    repeat apply Forall_cons_2; auto.
    apply Forall_forall. intros t Ht. apply Hag; [by eapply Forall_forall|].
    intros Hin. apply Hnts. by eapply forest_locs_elem.
  - by rewrite Hperm.
  - simpl. rewrite !length_app. lia.
Qed.

(** With memory for its stack, the loop of [clear_nodes] runs to its end. *)
Lemma clear_nodes_loop_granted fuel :
  ∀ ts cap n s,
    Forall (stored (nodes s)) ts → NoDup (forest_locs ts) →
    (length (forest_locs ts) ≤ fuel)%nat → cap_ok (length (stack_of ts)) cap →
    Z.of_nat (length (forest_locs ts)) < 2 ^ 59 →
    granted n (plan s) →
    (length (forest_locs ts) ≤ n + length (stack_of ts))%nat →
    ∃ s' n', clear_nodes_loop fuel (stack_of ts) cap s = (s', Ok tt) ∧
      granted n' (plan s') ∧
      (n + length (stack_of ts) ≤ n' + length (forest_locs ts))%nat.
Proof.
  induction fuel as [|fuel IHf];
    (induction ts as [|t ts IHts]; intros cap n s Hst Hnd Hf Hcap Hsmall Hg Hn).
  1,3: by exists s, n.
  - destruct t as [|cur v a b]; [|simpl in Hf; lia].
    eapply IHts; eauto. by inversion Hst.
  - destruct t as [|cur v a b].
    { eapply IHts; eauto. by inversion Hst. }
    destruct (forest_step _ _ _ _ _ _ Hst Hnd) as (Hst' & Hnd' & Hlen).
    apply Forall_cons in Hst as [(Hcur & Ha & Hb) Hts].
    pose proof (stack_of_length ts) as Hsl.
    pose proof (stack_of_cons_length a ts) as Hsa.
    pose proof (stack_of_cons_length b (a :: ts)) as Hsb.
    assert (Hflen : length (forest_locs (b :: a :: ts))
                    = (tsize b + (tsize a + length (forest_locs ts)))%nat).
    { simpl. by rewrite !length_app. }
    assert (Hcap0 : cap_ok (length (stack_of ts)) cap).
    { destruct Hcap as [? ?]. simpl in *. split; lia. }
    change (length (stack_of (Tr cur v a b :: ts)))
      with (S (length (stack_of ts))) in Hn, Hcap.
    destruct (push_child_granted a ts cap n s Hcap0 ltac:(lia) Hg ltac:(lia))
      as (s1 & cap1 & n1 & Hrun1 & (Hn1 & Hq1 & Hc1) & Hcap1 & Hg1 & Hle1).
    destruct (push_child_granted b (a :: ts) cap1 n1 s1 Hcap1 ltac:(lia) Hg1 ltac:(lia))
      as (s2 & cap2 & n2 & Hrun2 & (Hn2 & Hq2 & Hc2) & Hcap2 & Hg2 & Hle2).
    destruct (IHf (b :: a :: ts) cap2 n2 (set_nodes (delete cur (nodes s2)) s2))
      as (s' & n' & Hrun & Hg' & Hle'); simpl nodes; simpl plan; try done.
    { by rewrite Hn2, Hn1. }
    { lia. }
    { lia. }
    { lia. }
    exists s', n'. split_and!; [|done|]; cycle 1.
    { change (length (stack_of (Tr cur v a b :: ts)))
        with (S (length (stack_of ts))). lia. }
    cbn [stack_of clear_nodes_loop].
    erewrite bind_Ok; [|apply (get_left_run _ _ _ Hcur)]. cbn [left].
    erewrite bind_Ok; [|exact Hrun1].
    erewrite bind_Ok; [|apply (get_right_run cur (mkNode v (root_of a) (root_of b)));
                        by rewrite Hn1]. cbn [right fst snd].
    erewrite bind_Ok; [|exact Hrun2].
    erewrite bind_Ok; [|apply (delete_Node_run cur (mkNode v (root_of a) (root_of b)));
                        by rewrite Hn2, Hn1].
    exact Hrun.
Qed.

(** With memory for its stack, [clear_nodes] frees the tree; it makes at
    most one allocation for every node. *)
Lemma clear_nodes_granted t n s :
  stored (nodes s) t → NoDup (locs t) →
  granted n (plan s) → (tsize t ≤ n)%nat → Z.of_nat (tsize t) < 2 ^ 59 →
  ∃ s' n', clear_nodes (root_of t) s = (s', Ok tt) ∧
    granted n' (plan s') ∧ (n ≤ n' + tsize t)%nat.
Proof.
  intros Hst Hnd Hg Hn Hsmall. destruct t as [|l v a b].
  { exists s, n. split_and!; [done|done|lia]. }
  cbn [root_of clear_nodes].
  destruct n as [|n]; [rewrite tsize_Tr in Hn; lia|].
  destruct (new_array_granted 1024 n s) as (s1 & Hrun1 & (Hn1 & Hq1 & Hc1) & Hg1);
    [done|done|].
  destruct (clear_nodes_loop_granted (base.size (nodes s1)) [Tr l v a b] 1024 n s1)
    as (s' & n' & Hrun & Hg' & Hle).
  { apply Forall_singleton. by rewrite Hn1. }
  { simpl. by rewrite app_nil_r. }
  { simpl. rewrite app_nil_r, Hn1. apply (live_bound _ (locs (Tr l v a b))); [done|].
    intros x Hx. by eapply stored_live. }
  { split; [simpl; lia|done]. }
  { simpl. rewrite app_nil_r. exact Hsmall. }
  { done. }
  { simpl. rewrite app_nil_r. unfold tsize in Hn. simpl in Hn. lia. }
  exists s', n'. split_and!; [by erewrite bind_Ok|done|].
  simpl in Hle. rewrite app_nil_r in Hle. unfold tsize. simpl. lia.
Qed.

Lemma clone_nodes_granted t s ls rest :
  stored (nodes s) t → NoDup (locs t) →
  plan s = (inr <$> ls) ++ rest → length ls = tsize t → NoDup ls →
  (∀ l, l ∈ ls → nodes s !! l = None ∧ valid_addr l = true) →
  ∃ s' t', clone_nodes (root_of t) s = (s', Ok (root_of t')) ∧
    locs t' = ls ∧ plan s' = rest ∧ stored (nodes s') t' ∧
    (∀ l, l ∉ ls → nodes s' !! l = nodes s !! l).
Proof.
  intros Hst Hnd. apply clone_nodes_rec_granted; [done|].
  apply live_bound; [done|]. intros l Hl. by eapply stored_live.
Qed.

(** [operator=] once the clone and the teardown have succeeded. *)
Lemma assign_Ok s this other o p s1 r s2 :
  this ≠ other → queues s !! this = Some o → queues s !! other = Some p →
  clone_nodes (root p) s = (s1, Ok r) → queues s1 = queues s →
  clear_nodes (root o) s1 = (s2, Ok tt) → queues s2 = queues s1 →
  ∃ s', assign this other s = (s', Ok tt).
Proof.
  intros Hne Ho Hp Hclone Hq1 Hclear Hq2. unfold assign.
  rewrite decide_False by done.
  erewrite bind_Ok; [|by apply get_queue_run].
  assert (Hclone' : (match root p with
                     | Some _ => clone_nodes (root p)
                     | None => ret None
                     end) s = (s1, Ok r)).
  { destruct (root p); [done|]. by rewrite clone_nodes_null in Hclone. }
  erewrite bind_Ok; [|by erewrite try_catch_Ok].
  erewrite bind_Ok; [|apply get_queue_run; by rewrite Hq1].
  erewrite bind_Ok; [|exact Hclear].
  erewrite bind_Ok; [|apply (set_root_run this r o); by rewrite Hq2, Hq1].
  erewrite bind_Ok; [|apply (get_queue_run other p); simpl;
                      by rewrite lookup_insert_ne, Hq2, Hq1].
  erewrite bind_Ok; [|eapply set_elementCount_run; simpl; apply lookup_insert_eq].
  erewrite set_comp_run; [|simpl; apply lookup_insert_eq]. eauto.
Qed.

(** ** A single failed allocation is cleaned up *)

(** With memory for its stack, [clear_nodes] frees exactly the tree. *)
Lemma clear_nodes_freed t n s :
  stored (nodes s) t → NoDup (locs t) →
  granted n (plan s) → (tsize t ≤ n)%nat → Z.of_nat (tsize t) < 2 ^ 59 →
  ∃ s' n', clear_nodes (root_of t) s = (s', Ok tt) ∧
    granted n' (plan s') ∧ (n ≤ n' + tsize t)%nat ∧ queues s' = queues s ∧
    (∀ l, l ∉ locs t → nodes s' !! l = nodes s !! l) ∧
    (∀ l, l ∈ locs t → nodes s' !! l = None).
Proof.
  intros Hst Hnd Hg Hn Hsmall.
  destruct (clear_nodes_granted t n s Hst Hnd Hg Hn Hsmall) as (s' & n' & Hrun & Hg' & Hle).
  destruct (clear_nodes_run t s Hst Hnd) as (s'' & r & Hrun' & Hq & _ & Hout & Hr).
  rewrite Hrun in Hrun'. injection Hrun' as <- <-.
  destruct Hr as [?|[_ Hfree]]; [done|].
  exists s', n'. by split_and!.
Qed.

Lemma new_Node_refused v e rest s :
  plan s = inl e :: rest → new_Node v s = (set_plan rest s, Throw e).
Proof. unfold new_Node. by intros ->. Qed.

(** A single failure: the allocator hands out the fresh addresses [ls], fewer
    than the tree has nodes, then refuses once with [e], and grants what the
    handlers ask for.  [clone_nodes_rec] throws [e], and every node it has
    allocated is freed. *)
Lemma clone_nodes_rec_fails fuel :
  ∀ t s ls e rest n,
    stored (nodes s) t → (tsize t ≤ fuel)%nat →
    plan s = (inr <$> ls) ++ inl e :: rest → (length ls < tsize t)%nat → NoDup ls →
    (∀ l, l ∈ ls → nodes s !! l = None ∧ valid_addr l = true) →
    Z.of_nat (length ls) < 2 ^ 59 →
    granted (length ls + n) rest →
    ∃ s', clone_nodes_rec fuel (root_of t) s = (s', Throw e) ∧
      nodes s' = nodes s ∧ queues s' = queues s ∧ granted n (plan s').
Proof.
  induction fuel as [|fuel IH];
    intros [|l v a b] s ls e rest n Hst Hf Hplan Hlen Hnd Hfresh Hsmall Hg.
  1,3: (unfold tsize in Hlen; simpl in Hlen; lia).
  { rewrite tsize_Tr in Hf. lia. }
  rewrite tsize_Tr in Hf, Hlen. destruct Hst as (Hl & Ha & Hb).
  cbn [root_of clone_nodes_rec].
  erewrite bind_Ok; [|apply (get_value_run _ _ _ Hl)]. cbn [value].
  destruct ls as [|c ls].
  { simpl in Hplan, Hg. exists (set_plan rest s). split_and!; [|done..].
    by erewrite bind_Throw; [|by apply new_Node_refused]. }
  apply NoDup_cons in Hnd as [Hc Hnd].
  destruct (Hfresh c) as [Hcf Hcv]; [by left|].
  assert (Hfls : ∀ x, x ∈ ls → nodes s !! x = None ∧ valid_addr x = true).
  { intros x Hx. apply Hfresh. by right. }
  assert (Hlc : l ≠ c) by (intros ->; congruence).
  cbn [length] in Hlen, Hsmall, Hg.
  erewrite bind_Ok;
    [|by apply (new_Node_granted v c ((inr <$> ls) ++ inl e :: rest))].
  set (s1 := mkState (<[c:=mkNode v None None]> (nodes s)) (queues s) (cmp_st s)
               ((inr <$> ls) ++ inl e :: rest)).
  assert (Hl1 : nodes s1 !! l = Some (mkNode v (root_of a) (root_of b))).
  { simpl. by rewrite lookup_insert_ne. }
  assert (Hst1 : ∀ t, stored (nodes s) t → stored (nodes s1) t).
  { intros t Ht. eapply stored_preserved; [|exact Ht]. intros x n' Hx. simpl.
    rewrite lookup_insert_ne; [done|]. intros <-. congruence. }
  assert (Hf1 : ∀ x, x ∈ ls → nodes s1 !! x = None ∧ valid_addr x = true).
  { intros x Hx. simpl. rewrite lookup_insert_ne; [by apply Hfls|]. by intros <-. }
  (* the body throws [e] in a state [s4] where the partial copy is the tree
     [part], and the handler has memory to free it *)
  assert (Hbody : ∃ s4 part, (
      nl <- get_left l;; cl <- clone_nodes_rec fuel nl;; set_left c cl;;;
      nr <- get_right l;; cr <- clone_nodes_rec fuel nr;; set_right c cr) s1
      = (s4, Throw e) ∧ queues s4 = queues s ∧
      root_of part = Some c ∧ stored (nodes s4) part ∧ NoDup (locs part) ∧
      (∀ x, x ∈ locs part → nodes s !! x = None) ∧
      (∀ x, x ∉ locs part → nodes s4 !! x = nodes s !! x) ∧
      (tsize part ≤ S (length ls))%nat ∧
      granted (tsize part + n) (plan s4)).
  { destruct (decide (length ls < tsize a)%nat) as [Hlt|Hge].
    - (* the failure is in the left subtree *)
      destruct (IH a s1 ls e rest (S n)) as (s2 & Hrun2 & Hn2 & Hq2 & Hg2);
        [by apply Hst1|lia|done|done|done|done|lia| |].
      { by rewrite Nat.add_succ_r. }
      exists s2, (Tr c v Nil Nil). split_and!.
      + erewrite bind_Ok; [|apply (get_left_run _ _ _ Hl1)]. cbn [left].
        by erewrite bind_Throw.
      + by rewrite Hq2.
      + done.
      + simpl. rewrite Hn2. simpl. by rewrite lookup_insert_eq.
      + apply NoDup_singleton.
      + by intros x ->%list_elem_of_singleton.
      + intros x Hx. rewrite Hn2. simpl. rewrite lookup_insert_ne; [done|].
        intros <-. apply Hx. by left.
      + rewrite tsize_Tr. unfold tsize. simpl. lia.
      + done.
    - (* the left subtree is copied, the failure is in the right subtree *)
      set (la := take (tsize a) ls). set (lb := drop (tsize a) ls).
      assert (Hls : ls = la ++ lb) by (symmetry; apply take_drop).
      assert (Hla : length la = tsize a) by (unfold la; rewrite length_take; lia).
      assert (Hlb : (length lb < tsize b)%nat) by (unfold lb; rewrite length_drop; lia).
      clearbody la lb. subst ls. rewrite length_app in *.
      apply NoDup_app in Hnd as (Hnda & Hdisj & Hndb).
      rewrite not_elem_of_app in Hc. destruct Hc as [Hca Hcb].
      destruct (clone_nodes_rec_granted fuel a s1 la ((inr <$> lb) ++ inl e :: rest))
        as (s2 & a' & Hrun2 & Hla' & Hplan2 & Hsta & Hout2).
      { by apply Hst1. }
      { lia. }
      { simpl. by rewrite fmap_app, <- app_assoc. }
      { done. }
      { done. }
      { intros x Hx. apply Hf1, elem_of_app. by left. }
      assert (Hc2 : nodes s2 !! c = Some (mkNode v None None)).
      { rewrite Hout2 by done. simpl. apply lookup_insert_eq. }
      set (s3 := set_nodes (<[c:=mkNode v (root_of a') None]> (nodes s2)) s2).
      assert (Hlive : ∀ t x, stored (nodes s) t → x ∈ locs t →
                x ≠ c ∧ (x ∉ la) ∧ (x ∉ lb)).
      { intros t x Ht Hx. destruct (stored_live _ _ _ Ht Hx) as [n' Hn'].
        split_and!.
        - intros ->. congruence.
        - intros Hin. destruct (Hfls x); [apply elem_of_app; by left|]. congruence.
        - intros Hin. destruct (Hfls x); [apply elem_of_app; by right|]. congruence. }
      destruct (Hlive (Tr l v a b) l) as (_ & Hlla & Hllb); [by split_and!|by left|].
      assert (Hl3 : nodes s3 !! l = Some (mkNode v (root_of a) (root_of b))).
      { simpl. rewrite lookup_insert_ne, Hout2 by done. done. }
      destruct (IH b s3 lb e rest (S (length la) + n)%nat) as (s4 & Hrun4 & Hn4 & Hq4 & Hg4).
      { eapply stored_agree; [|exact Hb]. intros x Hx.
        destruct (Hlive b x Hb Hx) as (? & ? & ?). simpl.
        rewrite lookup_insert_ne, Hout2 by done. simpl. by rewrite lookup_insert_ne. }
      { lia. }
      { done. }
      { done. }
      { done. }
      { intros x Hx. simpl.
        assert (x ≠ c) by (by intros ->).
        assert (x ∉ la) by (intros ?; by eapply Hdisj).
        rewrite lookup_insert_ne, Hout2 by done. simpl.
        rewrite lookup_insert_ne by done. apply Hfls, elem_of_app. by right. }
      { lia. }
      { eapply granted_le; [|exact Hg]. lia. }
      exists s4, (Tr c v a' Nil). split_and!.
      + erewrite bind_Ok; [|apply (get_left_run _ _ _ Hl1)]. cbn [left].
        erewrite bind_Ok; [|exact Hrun2].
        erewrite bind_Ok; [|apply (set_left_run _ _ _ _ Hc2)]. cbn [value right]. fold s3.
        erewrite bind_Ok; [|apply (get_right_run _ _ _ Hl3)]. cbn [right].
        by erewrite bind_Throw.
      + rewrite Hq4. simpl.
        destruct (clone_nodes_rec_run fuel a s1) as (s2' & r2 & Hrun2' & Hq2 & _);
          [by apply Hst1|lia|].
        rewrite Hrun2 in Hrun2'. injection Hrun2' as <- <-. by rewrite Hq2.
      + done.
      + simpl. rewrite Hn4. simpl. split_and!; [apply lookup_insert_eq| |done].
        eapply stored_agree; [|exact Hsta]. rewrite Hla'. intros x Hx.
        rewrite lookup_insert_ne; [done|]. by intros <-.
      + simpl. rewrite app_nil_r, Hla'. by apply NoDup_cons.
      + simpl. rewrite app_nil_r, Hla'. intros x [->|Hx]%elem_of_cons; [done|].
        apply Hfls, elem_of_app. by left.
      + simpl. rewrite app_nil_r, Hla'. intros x [? ?]%not_elem_of_cons.
        rewrite Hn4. simpl. rewrite lookup_insert_ne, Hout2 by done. simpl.
        by rewrite lookup_insert_ne.
      + unfold tsize. simpl. rewrite app_nil_r, Hla'. lia.
      + unfold tsize. simpl. rewrite app_nil_r, Hla'. done. }
  destruct Hbody as (s4 & part & Hbody & Hq4 & Hroot & Hstp & Hndp & Hfp & Houtp & Hsz & Hgp).
  destruct (clear_nodes_freed part (tsize part + n)%nat s4)
    as (s5 & n' & Hclear & Hg5 & Hle5 & Hq5 & Hout5 & Hfree5); [done|done|done|lia|lia|].
  rewrite Hroot in Hclear.
  exists s5. split_and!.
  - erewrite bind_Throw; [done|]. erewrite try_catch_Throw; [|exact Hbody].
    by erewrite bind_Ok.
  - apply map_eq. intros x. destruct (decide (x ∈ locs part)) as [Hx|Hx].
    + by rewrite (Hfree5 _ Hx), (Hfp _ Hx).
    + by rewrite (Hout5 _ Hx), (Houtp _ Hx).
  - by rewrite Hq5.
  - eapply granted_le; [|exact Hg5]. lia.
Qed.

(** ** Operations and reachable states *)

Lemma wf_with_wf P s : wf_with P s → wf s.
Proof. intros (sh & Hm & _). by exists sh. Qed.

Lemma wf_wf_with s : wf s → wf_with (λ _, True) s.
Proof. intros (sh & Hm). by exists sh. Qed.

Lemma maintained_True : maintained (λ _, True).
Proof. by split. Qed.

Lemma dom_insert_present (qs : gmap qid priority_queue) q o o' :
  qs !! q = Some o → dom (<[q:=o']> qs) = dom qs.
Proof.
  intros Hq. rewrite dom_insert_L. apply elem_of_dom_2 in Hq.
  apply set_eq. intros x. rewrite elem_of_union, elem_of_singleton.
  split; [intros [->|?]; done|auto].
Qed.

Lemma wf_with_insert P sh s s' q t' o' :
  models (<[q:=t']> sh) s' → queues s' = <[q:=o']> (queues s) →
  (∀ q, is_Some (queues s !! q) → P (sh q)) → P t' →
  wf_with P s'.
Proof.
  intros Hm Hqs HP Ht'. exists (<[q:=t']> sh). split; [done|].
  intros q' Hq'. destruct (decide (q = q')) as [->|Hne].
  - by rewrite fn_lookup_insert.
  - rewrite fn_lookup_insert_ne by done. apply HP.
    by rewrite Hqs, lookup_insert_ne in Hq'.
Qed.

Lemma run_op_step P sh s o :
  maintained P → models sh s → (∀ q, is_Some (queues s !! q) → P (sh q)) →
  op_valid o s →
  ∃ s' r, run_op o s = (s', r) ∧ op_outcome P s s' r.
Proof.
  intros HP Hm Hsh Hv. destruct o as [q e|q|q other|q|q|q]; simpl in *.
  - (* push *)
    destruct Hv as [o Hq].
    destruct (new_Node e s) as [s1 [l|ex| |]] eqn:Hnew.
    + pose proof (push_run _ _ _ _ _ _ _ Hm Hq Hnew) as Hrun.
      destruct (skew_merge (comp o) (cmp_st s) (sh q) (Tr l e Nil Nil))
        as [cs' [ex|t']] eqn:Hsm.
      * eexists _, _. split; [exact Hrun|]. right. eauto.
      * destruct Hrun as (s' & Hrun & Hm' & _ & _ & Hqs).
        eexists _, _. split; [exact Hrun|]. left. split_and!; [done| |].
        -- eapply wf_with_insert; eauto.
           eapply (maintained_merge P HP); [| |exact Hsm]; eauto.
           apply (maintained_single P HP).
        -- rewrite Hqs. by eapply dom_insert_present.
    + eexists _, _. split; [by apply push_alloc_fail|]. right.
      rewrite (new_Node_Throw _ _ _ _ Hnew). eauto.
    + destruct (new_Node_outcome e s) as [H _]. by rewrite Hnew in H.
    + destruct (new_Node_outcome e s) as [_ H]. by rewrite Hnew in H.
  - (* pop *)
    destruct Hv as [o Hq].
    destruct (decide (elementCount o = 0)) as [H0|Hne].
    { eexists _, _. split; [by eapply pop_empty|]. right. eauto. }
    destruct (models_nonempty _ _ _ _ Hm Hq Hne) as (l & v & a & b & Hshq).
    pose proof (pop_run _ _ _ _ _ _ _ _ Hm Hq Hshq) as Hrun.
    destruct (skew_merge (comp o) (cmp_st s) a b) as [cs' [ex|t']] eqn:Hsm.
    + eexists _, _. split; [exact Hrun|]. right. eauto.
    + destruct Hrun as (s' & Hrun & Hm' & _ & _ & Hqs & _).
      eexists _, _. split; [exact Hrun|]. left. split_and!; [done| |].
      * eapply wf_with_insert; eauto.
        assert (P (sh q)) as HPq by eauto. rewrite Hshq in HPq.
        apply (maintained_children P HP) in HPq as [? ?].
        eapply (maintained_merge P HP); [| |exact Hsm]; done.
      * rewrite Hqs. by eapply dom_insert_present.
  - (* merge *)
    destruct Hv as [[o1 Hq1] [o2 Hq2]].
    destruct (decide (q = other)) as [->|Hne].
    { eexists _, _. split; [apply merge_run_self|]. left. split_and!; [done| |done].
      by exists sh. }
    pose proof (merge_run_distinct _ _ _ _ _ _ Hm Hne Hq1 Hq2) as Hrun.
    destruct (skew_merge (comp o1) (cmp_st s) (sh q) (sh other))
      as [cs' [ex|t']] eqn:Hsm.
    + eexists _, _. split; [exact Hrun|]. right. eauto.
    + destruct Hrun as (s' & Hrun & Hm' & _ & _ & Hqs).
      eexists _, _. split; [exact Hrun|]. left. split_and!; [done| |].
      * eexists. split; [exact Hm'|]. intros q' Hq'.
        destruct (decide (other = q')) as [->|Hne2].
        { rewrite fn_lookup_insert. apply (maintained_Nil P HP). }
        rewrite fn_lookup_insert_ne by done.
        destruct (decide (q = q')) as [->|Hne1].
        { rewrite fn_lookup_insert. eapply (maintained_merge P HP); [| |exact Hsm]; eauto. }
        rewrite fn_lookup_insert_ne by done. apply Hsh.
        by rewrite Hqs, !lookup_insert_ne in Hq'.
      * rewrite Hqs. erewrite dom_insert_present.
        -- by eapply dom_insert_present.
        -- by rewrite lookup_insert_ne.
  - (* top *)
    destruct Hv as [o Hq]. unfold bind. rewrite (top_run _ _ _ _ Hm Hq).
    destruct (sh q) as [|l v a b]; eexists _, _; (split; [reflexivity|]).
    + right. eauto.
    + left. split_and!; [done| |done]. by exists sh.
  - (* size *)
    destruct Hv as [o Hq]. unfold bind. rewrite (size_run _ _ _ Hq).
    eexists _, _. split; [reflexivity|]. left. split_and!; [done| |done]. by exists sh.
  - (* empty *)
    destruct Hv as [o Hq]. unfold bind. rewrite (empty_run _ _ _ Hq).
    eexists _, _. split; [reflexivity|]. left. split_and!; [done| |done]. by exists sh.
Qed.

Lemma wf_with_env P s s' :
  nodes s' = nodes s → queues s' = queues s → wf_with P s → wf_with P s'.
Proof.
  intros Hn Hq (sh & Hm & HP). exists sh. split; [by eapply models_env|].
  intros q. rewrite Hq. apply HP.
Qed.

(** Every operation keeps the invariant, whether it succeeds or fails. *)
Lemma run_op_wf P s o :
  maintained P → wf_with P s → op_valid o s → wf_with P (run_op o s).1.
Proof.
  intros HP (sh & Hm & Hsh) Hv.
  destruct (run_op_step P sh s o HP Hm Hsh Hv) as (s' & r & Hrun & Hout).
  rewrite Hrun. simpl. destruct Hout as [(_ & ? & _)|(e & _ & Hn & Hq)]; [done|].
  eapply wf_with_env; [done..|]. by exists sh.
Qed.

(** No operation creates or destroys a queue object. *)
Lemma run_op_queues_dom s o :
  wf s → op_valid o s → dom (queues (run_op o s).1) = dom (queues s).
Proof.
  intros (sh & Hm) Hv.
  destruct (run_op_step (λ _, True) sh s o maintained_True Hm (λ _ _, I) Hv)
    as (s' & r & Hrun & Hout).
  rewrite Hrun. simpl. destruct Hout as [(_ & _ & ?)|(e & _ & _ & Hq)]; [done|].
  by rewrite Hq.
Qed.

Lemma construct_wf P s q c :
  maintained P → wf_with P s → queues s !! q = None →
  wf_with P (construct q c s).1.
Proof.
  intros HP (sh & Hm & Hsh) Hq. exists (<[q:=Nil]> sh). split.
  - eapply (models_frame sh s _ _ [q] []); simpl; try done.
    + by eapply models_valid.
    + intros q' [Hne _]%not_elem_of_cons.
      by rewrite lookup_insert_ne, fn_lookup_insert_ne.
    + intros q' _ _ l _. apply not_elem_of_nil.
    + intros q' o' ->%list_elem_of_singleton.
      rewrite lookup_insert_eq, fn_lookup_insert. intros [= <-]. simpl.
      split_and!; try done. apply NoDup_nil_2.
    + intros q1 q2 ->%list_elem_of_singleton ->%list_elem_of_singleton. done.
  - intros q' Hq'. simpl in Hq'. destruct (decide (q = q')) as [->|Hne].
    + rewrite fn_lookup_insert. apply (maintained_Nil P HP).
    + rewrite fn_lookup_insert_ne by done. apply Hsh.
      by rewrite lookup_insert_ne in Hq'.
Qed.

(** A successful copy, by construction or by assignment, keeps the
    invariant. *)
Lemma copy_construct_wf P s q other :
  maintained P → wf_with P s → queues s !! q = None → is_Some (queues s !! other) →
  (copy_construct q other s).2 = Ok tt → wf_with P (copy_construct q other s).1.
Proof.
  intros HP (sh & Hm & Hsh) Hq [p Hp].
  destruct (copy_construct_run sh s q other p Hm Hq Hp)
    as (s' & r & Hrun & _ & [(e & -> & _)|(-> & t' & Hsv & Hm' & Hqs & _)]);
    rewrite Hrun; simpl; [done|]. intros _.
  eapply wf_with_insert; eauto.
  eapply (maintained_copy P HP); [exact Hsv|]. apply Hsh. by eexists.
Qed.

Lemma assign_wf P s q other :
  maintained P → wf_with P s → is_Some (queues s !! q) → is_Some (queues s !! other) →
  (assign q other s).2 = Ok tt → wf_with P (assign q other s).1.
Proof.
  intros HP (sh & Hm & Hsh) [o Hq] [p Hp].
  destruct (decide (q = other)) as [->|Hne].
  { unfold assign. rewrite decide_True by done. intros _. by exists sh. }
  destruct (assign_run sh s q other o p Hm Hne Hq Hp)
    as (s' & r & Hrun & _ & [(e & ->)|(-> & t' & Hsv & Hm' & Hqs & _)]);
    rewrite Hrun; simpl; [done|]. intros _.
  eapply wf_with_insert; eauto.
  eapply (maintained_copy P HP); [exact Hsv|]. apply Hsh. by eexists.
Qed.

(** Reachable states satisfy the invariant. *)
Lemma reachable_wf_with P s : maintained P → reachable s → wf_with P s.
Proof.
  intros HP. induction 1 as [cs pl|s q c _ IH Hq|s o _ IH Hv
    |s q other _ IH Hq Ho Hok|s q other _ IH Hq Ho Hok|s cs pl _ IH].
  - exists (λ _, Nil). split.
    + split; simpl.
      * intros l [? Hl]. by rewrite lookup_empty in Hl.
      * intros q o Hq. by rewrite lookup_empty in Hq.
      * intros q o Hq. by rewrite lookup_empty in Hq.
      * done.
      * intros. apply NoDup_nil_2.
      * intros q1 q2 _ _ _ l Hl. by apply elem_of_nil in Hl.
    + simpl. intros q [? Hq]. by rewrite lookup_empty in Hq.
  - by apply construct_wf.
  - by apply run_op_wf.
  - by apply copy_construct_wf.
  - by apply assign_wf.
  - by apply (wf_with_env P s).
Qed.

Lemma reachable_wf s : reachable s → wf s.
Proof. intros H. eapply wf_with_wf, reachable_wf_with, H. apply maintained_True. Qed.

(** ** Comparisons that do not fail *)

Lemma skew_merge_never_fails I c cs a b :
  never_fails I → I cs →
  ∃ cs' t, skew_merge c cs a b = (cs', inr t) ∧ I cs'.
Proof.
  intros HI. apply (skew_merge_induction c (λ cs a b r,
    I cs → ∃ cs' t, r = (cs', inr t) ∧ I cs')); clear cs a b.
  - intros cs b Hcs. eauto.
  - intros cs a Hcs. eauto.
  - intros cs la va al ar lb vb bl br cs1 e Hc Hcs.
    destruct (HI c cs va vb Hcs) as (? & ? & Hc' & _). congruence.
  - intros cs la va al ar lb vb bl br cs1 Hc IH Hcs.
    destruct (HI c cs va vb Hcs) as (cs1' & b' & Hc' & Hcs1).
    rewrite Hc in Hc'. injection Hc' as <- _.
    destruct (IH Hcs1) as (cs2 & m & -> & Hcs2). simpl. eauto.
  - intros cs la va al ar lb vb bl br cs1 Hc IH Hcs.
    destruct (HI c cs va vb Hcs) as (cs1' & b' & Hc' & Hcs1).
    rewrite Hc in Hc'. injection Hc' as <- _.
    destruct (IH Hcs1) as (cs2 & m & -> & Hcs2). simpl. eauto.
Qed.

(** With a comparison that does not fail, a ready operation succeeds. *)
Lemma run_op_ready I sh s o :
  models sh s → op_valid o s → never_fails I → I (cmp_st s) → ready o s →
  ∃ s', run_op o s = (s', Ok tt).
Proof.
  intros Hm Hv HI Hcs Hr. destruct o as [q e|q|q other|q|q|q]; simpl in *.
  - destruct Hv as [o Hq]. destruct Hr as (s1 & l & Hnew).
    pose proof (push_run _ _ _ _ _ _ _ Hm Hq Hnew) as Hrun.
    destruct (skew_merge_never_fails I (comp o) (cmp_st s) (sh q) (Tr l e Nil Nil)
      HI Hcs) as (cs' & t' & Hsm & _).
    rewrite Hsm in Hrun. destruct Hrun as (s' & Hrun & _). eauto.
  - destruct Hr as (o & Hq & Hne).
    destruct (models_nonempty _ _ _ _ Hm Hq Hne) as (l & v & a & b & Hshq).
    pose proof (pop_run _ _ _ _ _ _ _ _ Hm Hq Hshq) as Hrun.
    destruct (skew_merge_never_fails I (comp o) (cmp_st s) a b HI Hcs)
      as (cs' & t' & Hsm & _).
    rewrite Hsm in Hrun. destruct Hrun as (s' & Hrun & _). eauto.
  - destruct Hv as [[o1 Hq1] [o2 Hq2]].
    destruct (decide (q = other)) as [->|Hne].
    { eexists. apply merge_run_self. }
    pose proof (merge_run_distinct _ _ _ _ _ _ Hm Hne Hq1 Hq2) as Hrun.
    destruct (skew_merge_never_fails I (comp o1) (cmp_st s) (sh q) (sh other)
      HI Hcs) as (cs' & t' & Hsm & _).
    rewrite Hsm in Hrun. destruct Hrun as (s' & Hrun & _). eauto.
  - destruct Hr as (o & Hq & Hne). unfold bind.
    rewrite (top_run _ _ _ _ Hm Hq).
    destruct (models_nonempty _ _ _ _ Hm Hq Hne) as (l & v & a & b & ->). eauto.
  - destruct Hv as [o Hq]. unfold bind. rewrite (size_run _ _ _ Hq). eauto.
  - destruct Hv as [o Hq]. unfold bind. rewrite (empty_run _ _ _ Hq). eauto.
Qed.

(** *** What a caller observes of a queue *)


(** ** Cloning and clearing touch fresh nodes only *)

Lemma extends_refl s : extends s s.
Proof. split; [|done]. split; [done|]. intros l n c Hl Hl'. congruence. Qed.

Lemma keeps_ret {A} s0 (Q : A → Prop) a : Q a → keeps s0 Q (ret a).
Proof. intros HQ s s' r He [= <- <-]. split; [done|]. by intros ? [= <-]. Qed.

Lemma keeps_throw {A} s0 (Q : A → Prop) e : keeps s0 Q (throw e).
Proof. intros s s' r He [= <- <-]. done. Qed.

Lemma keeps_fault {A} s0 (Q : A → Prop) : keeps s0 Q fault.
Proof. intros s s' r He [= <- <-]. done. Qed.

Lemma keeps_out_of_fuel {A} s0 (Q : A → Prop) : keeps s0 Q out_of_fuel.
Proof. intros s s' r He [= <- <-]. done. Qed.

Lemma keeps_bind {A B} s0 (Q1 : A → Prop) (Q2 : B → Prop) m k :
  keeps s0 Q1 m → (∀ a, Q1 a → keeps s0 Q2 (k a)) → keeps s0 Q2 (bind m k).
Proof.
  intros Hm Hk s s' r He. unfold bind.
  destruct (m s) as [s1 r1] eqn:Hms.
  destruct (Hm _ _ _ He Hms) as [He1 HQ1].
  destruct r1 as [a|e| |]; [|by intros [= <- <-]..].
  intros Hk'. eapply Hk; [by apply HQ1|exact He1|exact Hk'].
Qed.

Lemma keeps_try_catch {A} s0 (Q : A → Prop) m h :
  keeps s0 Q m → (∀ e, keeps s0 Q (h e)) → keeps s0 Q (try_catch m h).
Proof.
  intros Hm Hh s s' r He. unfold try_catch.
  destruct (m s) as [s1 r1] eqn:Hms.
  destruct (Hm _ _ _ He Hms) as [He1 HQ1].
  destruct r1 as [a|e| |]; [|by apply Hh|..]; by intros [= <- <-].
Qed.

Lemma keeps_weaken {A} s0 (Q Q' : A → Prop) m :
  (∀ a, Q a → Q' a) → keeps s0 Q m → keeps s0 Q' m.
Proof.
  intros HQ Hm s s' r He Hr. destruct (Hm _ _ _ He Hr) as [? ?]. auto.
Qed.

Lemma keeps_get_node s0 l :
  keeps s0 (λ n, nodes s0 !! l = None →
                 fresh_ptr (nodes s0) (left n) ∧ fresh_ptr (nodes s0) (right n))
    (get_node l).
Proof.
  intros s s' r He. unfold get_node. destruct (nodes s !! l) as [n|] eqn:Hl;
    intros [= <- <-]; [|done].
  split; [done|]. intros ? [= <-] Hfresh. destruct He as [[_ Hg] _].
  split; intros c Hc; eapply Hg; eauto.
Qed.

Lemma keeps_get_value s0 l : keeps s0 (λ _, True) (get_value l).
Proof.
  eapply keeps_bind; [apply keeps_get_node|]. intros n _. by apply keeps_ret.
Qed.

Lemma keeps_get_left s0 l :
  keeps s0 (λ p, nodes s0 !! l = None → fresh_ptr (nodes s0) p) (get_left l).
Proof.
  eapply keeps_bind; [apply keeps_get_node|]. intros n Hn. apply keeps_ret.
  intros Hl. by apply Hn.
Qed.

Lemma keeps_get_right s0 l :
  keeps s0 (λ p, nodes s0 !! l = None → fresh_ptr (nodes s0) p) (get_right l).
Proof.
  eapply keeps_bind; [apply keeps_get_node|]. intros n Hn. apply keeps_ret.
  intros Hl. by apply Hn.
Qed.

Lemma keeps_put_node s0 l n :
  nodes s0 !! l = None →
  fresh_ptr (nodes s0) (left n) → fresh_ptr (nodes s0) (right n) →
  keeps s0 (λ _, True) (put_node l n).
Proof.
  intros Hl Hnl Hnr s s' r [[Hg1 Hg2] Hq] [= <- <-]. split; [|done].
  split; [|done]. simpl. split.
  - intros l' n' Hl'. rewrite lookup_insert_ne by congruence. by apply Hg1.
  - intros l' n' c Hl' Hfresh Hc. destruct (decide (l = l')) as [<-|Hne].
    + rewrite lookup_insert_eq in Hl'. injection Hl' as <-.
      destruct Hc as [Hc|Hc]; [by apply Hnl|by apply Hnr].
    + rewrite lookup_insert_ne in Hl' by done. eauto.
Qed.

Lemma keeps_set_left s0 l p :
  nodes s0 !! l = None → fresh_ptr (nodes s0) p →
  keeps s0 (λ _, True) (set_left l p).
Proof.
  intros Hl Hp. eapply keeps_bind; [apply keeps_get_node|].
  intros n Hn. apply keeps_put_node; [done..|]. by apply Hn.
Qed.

Lemma keeps_set_right s0 l p :
  nodes s0 !! l = None → fresh_ptr (nodes s0) p →
  keeps s0 (λ _, True) (set_right l p).
Proof.
  intros Hl Hp. eapply keeps_bind; [apply keeps_get_node|].
  intros n Hn. apply keeps_put_node; [done| |done]. by apply Hn.
Qed.

Lemma keeps_new_Node s0 v :
  keeps s0 (λ l, nodes s0 !! l = None) (new_Node v).
Proof.
  intros s s' r [[Hg1 Hg2] Hq]. unfold new_Node.
  destruct (plan s) as [|[e|l] rest]; [by intros [= <- <-]..|].
  destruct (nodes s !! l) as [n|] eqn:Hl; [by intros [= <- <-]|].
  destruct (valid_addr l); [|by intros [= <- <-]].
  intros [= <- <-].
  assert (Hl0 : nodes s0 !! l = None).
  { destruct (nodes s0 !! l) as [n|] eqn:Hl0; [|done].
    apply Hg1 in Hl0. congruence. }
  split; [|by intros ? [= <-]]. split; [|done]. simpl. split.
  - intros l' n' Hl'. rewrite lookup_insert_ne by congruence. by apply Hg1.
  - intros l' n' c Hl' Hfresh Hc. destruct (decide (l = l')) as [<-|Hne].
    + rewrite lookup_insert_eq in Hl'. injection Hl' as <-. by destruct Hc.
    + rewrite lookup_insert_ne in Hl' by done. eauto.
Qed.

Lemma keeps_delete_Node s0 l :
  nodes s0 !! l = None → keeps s0 (λ _, True) (delete_Node l).
Proof.
  intros Hl s s' r [[Hg1 Hg2] Hq]. unfold delete_Node.
  destruct (nodes s !! l) as [n|] eqn:Hl'; intros [= <- <-]; [|done].
  split; [|done]. split; [|done]. simpl. split.
  - intros l' n' Hl0. rewrite lookup_delete_ne by congruence. by apply Hg1.
  - intros l' n' c Hl0 Hfresh Hc. destruct (decide (l = l')) as [<-|Hne].
    + by rewrite lookup_delete_eq in Hl0.
    + rewrite lookup_delete_ne in Hl0 by done. eauto.
Qed.

Lemma keeps_new_array s0 cap : keeps s0 (λ _, True) (new_array cap).
Proof.
  intros s s' r He. unfold new_array.
  case_bool_decide; [by intros [= <- <-]|].
  destruct (plan s) as [|[e|l] rest]; by intros [= <- <-].
Qed.

Lemma keeps_stack_push s0 x stack cap :
  nodes s0 !! x = None → fresh_stack (nodes s0) stack →
  keeps s0 (λ sc, fresh_stack (nodes s0) sc.1) (stack_push x stack cap).
Proof.
  intros Hx Hst. unfold stack_push.
  eapply (keeps_bind _ (λ _, True)).
  - case_bool_decide; [|by apply keeps_ret].
    eapply keeps_bind; [apply keeps_new_array|]. intros _ _. by apply keeps_ret.
  - intros cap' _. case_bool_decide; [|apply keeps_fault].
    apply keeps_ret. simpl. intros y [->|Hy]%elem_of_cons; auto.
Qed.

Lemma keeps_push_child s0 child stack cap :
  fresh_ptr (nodes s0) child → fresh_stack (nodes s0) stack →
  keeps s0 (λ sc, fresh_stack (nodes s0) sc.1) (push_child child stack cap).
Proof.
  intros Hc Hst. destruct child as [x|]; simpl.
  - apply keeps_stack_push; auto.
  - by apply keeps_ret.
Qed.

Lemma keeps_clear_nodes_loop s0 fuel stack cap :
  fresh_stack (nodes s0) stack →
  keeps s0 (λ _, True) (clear_nodes_loop fuel stack cap).
Proof.
  revert stack cap. induction fuel as [|fuel IH]; intros stack cap Hst;
    (destruct stack as [|cur stack]; simpl; [by apply keeps_ret|]).
  { apply keeps_out_of_fuel. }
  assert (Hcur : nodes s0 !! cur = None) by (apply Hst, elem_of_cons; by left).
  assert (Hst' : fresh_stack (nodes s0) stack).
  { intros x Hx. apply Hst, elem_of_cons. by right. }
  eapply keeps_bind; [apply keeps_get_left|]. intros l Hl.
  eapply keeps_bind; [apply keeps_push_child; auto|]. intros sc Hsc.
  eapply keeps_bind; [apply keeps_get_right|]. intros r Hr.
  eapply keeps_bind; [apply keeps_push_child; auto|]. intros sc' Hsc'.
  eapply keeps_bind; [by apply keeps_delete_Node|]. intros _ _.
  by apply IH.
Qed.

Lemma keeps_clear_nodes s0 n :
  fresh_ptr (nodes s0) n → keeps s0 (λ _, True) (clear_nodes n).
Proof.
  intros Hn. destruct n as [l|]; simpl; [|by apply keeps_ret].
  eapply keeps_bind; [apply keeps_new_array|]. intros _ _.
  intros s s' r He. apply keeps_clear_nodes_loop; [|done].
  intros x ->%list_elem_of_singleton. by apply Hn.
Qed.

Lemma keeps_clone_nodes_rec s0 fuel n :
  keeps s0 (fresh_ptr (nodes s0)) (clone_nodes_rec fuel n).
Proof.
  revert n. induction fuel as [|fuel IH]; intros [l|]; simpl;
    try (apply keeps_ret; by intros ?).
  { apply keeps_out_of_fuel. }
  eapply keeps_bind; [apply keeps_get_value|]. intros v _.
  eapply keeps_bind; [apply keeps_new_Node|]. intros copy Hcopy.
  eapply (keeps_bind _ (λ _, True)).
  - apply keeps_try_catch.
    + eapply keeps_bind; [apply keeps_get_left|]. intros nl _.
      eapply keeps_bind; [apply IH|]. intros cl Hcl.
      eapply keeps_bind; [by apply keeps_set_left|]. intros _ _.
      eapply keeps_bind; [apply keeps_get_right|]. intros nr _.
      eapply keeps_bind; [apply IH|]. intros cr Hcr.
      by apply keeps_set_right.
    + intros e. eapply keeps_bind; [|intros _ _; apply keeps_throw].
      apply (keeps_clear_nodes s0 (Some copy)). by intros ? [= <-].
  - intros _ _. apply keeps_ret. by intros ? [= <-].
Qed.

Lemma keeps_clone_nodes s0 n : keeps s0 (fresh_ptr (nodes s0)) (clone_nodes n).
Proof. intros s s' r He. by apply keeps_clone_nodes_rec. Qed.

(** What a queue that has adopted a copy of the tree of [other] looks
    like. *)
Lemma copy_adopted sh s s' this other p t' :
  models sh s → this ≠ other → queues s !! other = Some p →
  models (<[this:=t']> sh) s' →
  queues s' = <[this:=mkQueue (root_of t') (elementCount p) (comp p)]> (queues s) →
  contents s' this t' ∧ contents s' other (sh other) ∧
  (size this s').2 = (size other s).2 ∧
  NoDup (locs t' ++ locs (sh other)).
Proof.
  intros Hm Hne Hp Hm' Hqs.
  assert (Hthis : queues s' !! this = Some (mkQueue (root_of t') (elementCount p) (comp p)))
    by (by rewrite Hqs, lookup_insert_eq).
  assert (Hother : queues s' !! other = Some p)
    by (by rewrite Hqs, lookup_insert_ne).
  pose proof (models_contents _ _ this Hm' (mk_is_Some _ _ Hthis)) as Hc1.
  pose proof (models_contents _ _ other Hm' (mk_is_Some _ _ Hother)) as Hc2.
  pose proof (models_NoDup _ _ Hm' this (mk_is_Some _ _ Hthis)) as Hnd1.
  pose proof (models_NoDup _ _ Hm' other (mk_is_Some _ _ Hother)) as Hnd2.
  pose proof (models_disjoint _ _ Hm' this other Hne (mk_is_Some _ _ Hthis)
    (mk_is_Some _ _ Hother)) as Hdisj.
  rewrite fn_lookup_insert in Hc1, Hnd1, Hdisj.
  rewrite fn_lookup_insert_ne in Hc2, Hnd2, Hdisj by done.
  split_and!; [done|done| |by apply NoDup_app].
  by rewrite (size_run _ _ _ Hthis), (size_run _ _ _ Hp).
Qed.

(** ** What the operations do, queue by queue *)

Lemma rethrown_is_runtime_error e : is_runtime_error (rethrown e) = true.
Proof. unfold rethrown. by destruct (is_runtime_error e) eqn:E. Qed.

(** What an operation does to a well-formed state, queue by queue. *)
Lemma run_op_cases sh s o :
  models sh s → op_valid o s →
  ∃ s' r, run_op o s = (s', r) ∧
    ((∃ e, r = Throw e ∧ nodes s' = nodes s ∧ queues s' = queues s ∧ op_throws o e) ∨
     (r = Ok tt ∧ ∃ sh', models sh' s' ∧
        ∀ q', q' ∉ op_queues o → sh' q' = sh q' ∧ queues s' !! q' = queues s !! q')).
Proof.
  intros Hm Hv. destruct o as [q e|q|q other|q|q|q]; simpl in *.
  - (* push *)
    destruct Hv as [o Hq].
    destruct (new_Node e s) as [s1 [l|ex| |]] eqn:Hnew.
    + pose proof (push_run _ _ _ _ _ _ _ Hm Hq Hnew) as Hrun.
      destruct (skew_merge (comp o) (cmp_st s) (sh q) (Tr l e Nil Nil))
        as [cs' [ex|t']] eqn:Hsm.
      * eexists _, _. split; [exact Hrun|]. left. eexists. split_and!; try done.
        apply rethrown_is_runtime_error.
      * destruct Hrun as (s' & Hrun & Hm' & _ & _ & Hqs).
        eexists _, _. split; [exact Hrun|]. right. split; [done|].
        eexists. split; [exact Hm'|]. intros q' [Hne _]%not_elem_of_cons.
        by rewrite fn_lookup_insert_ne, Hqs, lookup_insert_ne.
    + eexists _, _. split; [by apply push_alloc_fail|]. left.
      rewrite (new_Node_Throw _ _ _ _ Hnew). eexists. split_and!; try done.
      apply rethrown_is_runtime_error.
    + destruct (new_Node_outcome e s) as [H _]. by rewrite Hnew in H.
    + destruct (new_Node_outcome e s) as [_ H]. by rewrite Hnew in H.
  - (* pop *)
    destruct Hv as [o Hq].
    destruct (decide (elementCount o = 0)) as [H0|Hne].
    { eexists _, _. split; [by eapply pop_empty|]. left. eexists.
      split_and!; try done. by left. }
    destruct (models_nonempty _ _ _ _ Hm Hq Hne) as (l & v & a & b & Hshq).
    pose proof (pop_run _ _ _ _ _ _ _ _ Hm Hq Hshq) as Hrun.
    destruct (skew_merge (comp o) (cmp_st s) a b) as [cs' [ex|t']] eqn:Hsm.
    + eexists _, _. split; [exact Hrun|]. left. eexists. split_and!; try done.
      right. apply rethrown_is_runtime_error.
    + destruct Hrun as (s' & Hrun & Hm' & _ & _ & Hqs & _).
      eexists _, _. split; [exact Hrun|]. right. split; [done|].
      eexists. split; [exact Hm'|]. intros q' [Hne' _]%not_elem_of_cons.
      by rewrite fn_lookup_insert_ne, Hqs, lookup_insert_ne.
  - (* merge *)
    destruct Hv as [[o1 Hq1] [o2 Hq2]].
    destruct (decide (q = other)) as [->|Hne].
    { eexists _, _. split; [apply merge_run_self|]. right. split; [done|].
      by exists sh. }
    pose proof (merge_run_distinct _ _ _ _ _ _ Hm Hne Hq1 Hq2) as Hrun.
    destruct (skew_merge (comp o1) (cmp_st s) (sh q) (sh other))
      as [cs' [ex|t']] eqn:Hsm.
    + eexists _, _. split; [exact Hrun|]. left. eexists. split_and!; try done.
      apply rethrown_is_runtime_error.
    + destruct Hrun as (s' & Hrun & Hm' & _ & _ & Hqs).
      eexists _, _. split; [exact Hrun|]. right. split; [done|].
      eexists. split; [exact Hm'|].
      intros q' [Hne1 [Hne2 _]%not_elem_of_cons]%not_elem_of_cons.
      by rewrite !fn_lookup_insert_ne, Hqs, !lookup_insert_ne.
  - (* top *)
    destruct Hv as [o Hq]. unfold bind. rewrite (top_run _ _ _ _ Hm Hq).
    destruct (sh q) as [|l v a b]; eexists _, _; (split; [reflexivity|]).
    + left. eexists. by split_and!.
    + right. split; [done|]. by exists sh.
  - (* size *)
    destruct Hv as [o Hq]. unfold bind. rewrite (size_run _ _ _ Hq).
    eexists _, _. split; [reflexivity|]. right. split; [done|]. by exists sh.
  - (* empty *)
    destruct Hv as [o Hq]. unfold bind. rewrite (empty_run _ _ _ Hq).
    eexists _, _. split; [reflexivity|]. right. split; [done|]. by exists sh.
Qed.

Lemma length_elems t : length (elems t) = tsize t.
Proof.
  induction t as [|l v a IHa b IHb]; [done|].
  rewrite tsize_Tr. simpl. rewrite length_app. lia.
Qed.

(** A [push] that returns. *)
Lemma push_Ok_inv sh s q o e s' :
  models sh s → queues s !! q = Some o → push q e s = (s', Ok tt) →
  ∃ l t', (∃ rest, plan s = inr l :: rest ∧ plan s' = rest) ∧
    skew_merge (comp o) (cmp_st s) (sh q) (Tr l e Nil Nil) = (cmp_st s', inr t') ∧
    models (<[q:=t']> sh) s' ∧
    queues s' = <[q:=mkQueue (root_of t') (size_t_add (elementCount o) 1) (comp o)]>
                  (queues s).
Proof.
  intros Hm Hq Hpush.
  destruct (new_Node e s) as [s1 [l|ex| |]] eqn:Hnew.
  - pose proof (push_run _ _ _ _ _ _ _ Hm Hq Hnew) as Hrun.
    destruct (new_Node_Ok _ _ _ _ Hnew) as (rest & Hplan & _ & _ & Hs1).
    destruct (skew_merge (comp o) (cmp_st s) (sh q) (Tr l e Nil Nil))
      as [cs' [ex|t']] eqn:Hsm.
    + rewrite Hrun in Hpush. done.
    + destruct Hrun as (s'' & Hrun & Hm' & Hcs & Hpl & Hqs).
      rewrite Hrun in Hpush. injection Hpush as <-.
      exists l, t'. rewrite Hcs. split_and!; [|done..].
      exists rest. split; [done|]. by rewrite Hpl, Hs1.
  - by rewrite (push_alloc_fail _ _ _ _ _ Hnew) in Hpush.
  - destruct (new_Node_outcome e s) as [H _]. by rewrite Hnew in H.
  - destruct (new_Node_outcome e s) as [_ H]. by rewrite Hnew in H.
Qed.

(** A [pop] that returns. *)
Lemma pop_Ok_inv sh s q o s' :
  models sh s → queues s !! q = Some o → pop q s = (s', Ok tt) →
  ∃ l v a b t', sh q = Tr l v a b ∧
    skew_merge (comp o) (cmp_st s) a b = (cmp_st s', inr t') ∧
    models (<[q:=t']> sh) s' ∧
    queues s' = <[q:=mkQueue (root_of t') (size_t_sub (elementCount o) 1) (comp o)]>
                  (queues s) ∧
    nodes s' !! l = None.
Proof.
  intros Hm Hq Hpop.
  destruct (decide (elementCount o = 0)) as [H0|Hne].
  { by rewrite (pop_empty _ _ _ Hq H0) in Hpop. }
  destruct (models_nonempty _ _ _ _ Hm Hq Hne) as (l & v & a & b & Hshq).
  pose proof (pop_run _ _ _ _ _ _ _ _ Hm Hq Hshq) as Hrun.
  destruct (skew_merge (comp o) (cmp_st s) a b) as [cs' [ex|t']] eqn:Hsm.
  - by rewrite Hrun in Hpop.
  - destruct Hrun as (s'' & Hrun & Hm' & Hcs & _ & Hqs & Hfree).
    rewrite Hrun in Hpop. injection Hpop as <-.
    exists l, v, a, b, t'. by rewrite Hcs.
Qed.

(** The size a queue reports is the number of its elements. *)
Lemma size_elems sh s q :
  models sh s → is_Some (queues s !! q) →
  (size q s).2 = Ok (Z.of_nat (length (elems (sh q)))).
Proof.
  intros Hm [o Hq]. rewrite (size_run _ _ _ Hq). simpl.
  by rewrite (models_count _ _ Hm _ _ Hq), length_elems.
Qed.

(** ** Runs that allocate nothing *)

Lemma shrinks_ret {A} (a : A) : shrinks (ret a).
Proof. by intros s l. Qed.

Lemma shrinks_throw {A} e : shrinks (throw (A:=A) e).
Proof. by intros s l. Qed.

Lemma shrinks_bind {A B} (m : M A) (k : A → M B) :
  shrinks m → (∀ a, shrinks (k a)) → shrinks (bind m k).
Proof.
  intros Hm Hk s l. unfold bind. specialize (Hm s l).
  destruct (m s) as [s1 [a|e| |]]; simpl in *; auto.
  intros Hl. by apply Hm, (Hk a).
Qed.

Lemma shrinks_try_catch {A} (m : M A) h :
  shrinks m → (∀ e, shrinks (h e)) → shrinks (try_catch m h).
Proof.
  intros Hm Hh s l. unfold try_catch. specialize (Hm s l).
  destruct (m s) as [s1 [a|e| |]]; simpl in *; auto.
  intros Hl. by apply Hm, (Hh e).
Qed.

Lemma shrinks_get_node l : shrinks (get_node l).
Proof. intros s x. unfold get_node. by destruct (nodes s !! l). Qed.

Lemma shrinks_set_left l p : shrinks (set_left l p).
Proof.
  intros s x. unfold set_left, bind, get_node, put_node.
  destruct (nodes s !! l) as [n|] eqn:Hl; simpl; [|done].
  destruct (decide (l = x)) as [<-|Hne]; [by rewrite Hl|].
  by rewrite lookup_insert_ne.
Qed.

Lemma shrinks_set_right l p : shrinks (set_right l p).
Proof.
  intros s x. unfold set_right, bind, get_node, put_node.
  destruct (nodes s !! l) as [n|] eqn:Hl; simpl; [|done].
  destruct (decide (l = x)) as [<-|Hne]; [by rewrite Hl|].
  by rewrite lookup_insert_ne.
Qed.

Lemma shrinks_delete_Node l : shrinks (delete_Node l).
Proof.
  intros s x. unfold delete_Node.
  destruct (nodes s !! l) as [n|] eqn:Hl; simpl; [|done].
  destruct (decide (l = x)) as [<-|Hne]; [by rewrite lookup_delete_eq; intros []|].
  by rewrite lookup_delete_ne.
Qed.

Lemma shrinks_compare c x y : shrinks (compare c x y).
Proof. intros s l. unfold compare. by destruct (call c (cmp_st s) x y) as [cs [e|b]]. Qed.

Lemma shrinks_get_queue q : shrinks (get_queue q).
Proof. intros s x. unfold get_queue. by destruct (queues s !! q). Qed.

Lemma shrinks_put_queue q o : shrinks (put_queue q o).
Proof. by intros s x. Qed.

Create HintDb shrinks discriminated.
#[local] Hint Resolve shrinks_ret shrinks_throw shrinks_get_node shrinks_set_left
  shrinks_set_right shrinks_delete_Node shrinks_compare shrinks_get_queue
  shrinks_put_queue : shrinks.

Ltac shrinks :=
  repeat first
    [ progress auto with shrinks
    | apply shrinks_bind; [|intros ?]
    | apply shrinks_try_catch; [|intros ?] ].

Lemma shrinks_get_value l : shrinks (get_value l).
Proof. unfold get_value. shrinks. Qed.
Lemma shrinks_get_left l : shrinks (get_left l).
Proof. unfold get_left. shrinks. Qed.
Lemma shrinks_get_right l : shrinks (get_right l).
Proof. unfold get_right. shrinks. Qed.
Lemma shrinks_set_root q p : shrinks (set_root q p).
Proof. unfold set_root. shrinks. Qed.
Lemma shrinks_set_elementCount q n : shrinks (set_elementCount q n).
Proof. unfold set_elementCount. shrinks. Qed.
Lemma shrinks_rethrow {A} e : shrinks (rethrow (A:=A) e).
Proof. unfold rethrow. destruct (is_runtime_error e); shrinks. Qed.
#[local] Hint Resolve shrinks_get_value shrinks_get_left shrinks_get_right
  shrinks_set_root shrinks_set_elementCount shrinks_rethrow : shrinks.

Lemma shrinks_MergeGuard_new n : shrinks (MergeGuard_new n).
Proof. destruct n; simpl; shrinks. Qed.

Lemma shrinks_MergeGuard_dtor g : shrinks (MergeGuard_dtor g).
Proof. unfold MergeGuard_dtor. destruct (active g), (node g); shrinks. Qed.

Lemma shrinks_with_guard {A} g (body : M (MergeGuard * A)) :
  shrinks body → shrinks (with_guard g body).
Proof.
  intros Hb s l. unfold with_guard. specialize (Hb s l).
  destruct (body s) as [s1 [[g' a]|e| |]]; simpl in *; auto; intros Hl; apply Hb.
  - revert Hl. apply (shrinks_bind (MergeGuard_dtor g') (λ _, ret a));
      auto using shrinks_MergeGuard_dtor with shrinks.
  - revert Hl. apply (shrinks_bind (MergeGuard_dtor g) (λ _, throw e));
      auto using shrinks_MergeGuard_dtor with shrinks.
Qed.

Lemma shrinks_merge_nodes_rec fuel c a b : shrinks (merge_nodes_rec fuel c a b).
Proof.
  revert a b. induction fuel as [|fuel IH]; intros [la|] [lb|];
    cbn [merge_nodes_rec]; try (by intros s l).
  apply shrinks_bind; [shrinks|intros va].
  apply shrinks_bind; [shrinks|intros vb].
  apply shrinks_bind; [shrinks|intros lt].
  assert (Hframe : ∀ x y, shrinks (
    guard <- MergeGuard_new (Some x);;
    with_guard guard (
      ar <- get_right x;;
      newRight <- merge_nodes_rec fuel c ar (Some y);;
      set_right x newRight;;;
      tmpChild <- get_left x;;
      r <- get_right x;;
      set_left x r;;;
      set_right x tmpChild;;;
      ret (commit guard, Some x)))).
  { intros x y. apply shrinks_bind; [apply shrinks_MergeGuard_new|intros g].
    apply shrinks_with_guard.
    apply shrinks_bind; [shrinks|intros ar].
    apply shrinks_bind; [apply IH|intros nr]. shrinks. }
  destruct lt; apply Hframe.
Qed.

Lemma shrinks_merge_nodes c a b : shrinks (merge_nodes c a b).
Proof. intros s l. apply shrinks_merge_nodes_rec. Qed.
#[local] Hint Resolve shrinks_merge_nodes : shrinks.

Lemma shrinks_empty q : shrinks (empty q).
Proof. unfold empty. shrinks. Qed.

Lemma shrinks_size q : shrinks (size q).
Proof. unfold size. shrinks. Qed.

Lemma shrinks_top q : shrinks (top q).
Proof.
  unfold top. apply shrinks_bind; [apply shrinks_empty|intros b].
  destruct b; [shrinks|].
  apply shrinks_bind; [shrinks|intros o]. destruct (root o); [shrinks|by intros ? ?].
Qed.

Lemma shrinks_pop q : shrinks (pop q).
Proof.
  unfold pop. apply shrinks_bind; [apply shrinks_empty|intros b].
  destruct b; [shrinks|].
  apply shrinks_bind; [shrinks|intros o]. destruct (root o); [|by intros ? ?].
  shrinks.
Qed.

Lemma shrinks_merge q other : shrinks (merge q other).
Proof. unfold merge. destruct (decide (q = other)); shrinks. Qed.

(** Apart from the node that [push] allocates, no operation allocates. *)
Lemma run_op_live s o l :
  is_Some (nodes (run_op o s).1 !! l) →
  is_Some (nodes s !! l) ∨
  ∃ q e rest, o = Push q e ∧ plan s = inr l :: rest.
Proof.
  destruct o as [q e|q|q other|q|q|q]; simpl.
  - unfold push. destruct (new_Node e s) as [s1 [x|ex| |]] eqn:Hnew.
    + destruct (new_Node_Ok _ _ _ _ Hnew) as (rest & Hplan & _ & _ & ->).
      match goal with
      | |- is_Some (nodes (?m _).1 !! _) → _ => assert (Hs : shrinks m) by shrinks
      end.
      intros Hl%Hs. simpl in Hl.
      destruct (decide (x = l)) as [->|Hne]; [right; eauto|].
      left. by rewrite lookup_insert_ne in Hl.
    + rewrite (new_Node_Throw _ _ _ _ Hnew). intros Hl. left.
      by apply (shrinks_rethrow ex) in Hl.
    + destruct (new_Node_outcome e s) as [H _]. by rewrite Hnew in H.
    + destruct (new_Node_outcome e s) as [_ H]. by rewrite Hnew in H.
  - intros Hl. left. by apply shrinks_pop in Hl.
  - intros Hl. left. by apply shrinks_merge in Hl.
  - intros Hl. left. revert Hl.
    apply (shrinks_bind (top q) (λ _, ret tt)); [apply shrinks_top|intros; shrinks].
  - intros Hl. left. revert Hl.
    apply (shrinks_bind (size q) (λ _, ret tt)); [apply shrinks_size|intros; shrinks].
  - intros Hl. left. revert Hl.
    apply (shrinks_bind (empty q) (λ _, ret tt)); [apply shrinks_empty|intros; shrinks].
Qed.

(** A [merge] of two distinct queues that returns. *)
Lemma merge_Ok_inv sh s q other o1 o2 s' :
  models sh s → q ≠ other →
  queues s !! q = Some o1 → queues s !! other = Some o2 →
  merge q other s = (s', Ok tt) →
  ∃ t', skew_merge (comp o1) (cmp_st s) (sh q) (sh other) = (cmp_st s', inr t') ∧
    models (<[other:=Nil]> (<[q:=t']> sh)) s' ∧
    queues s' =
      <[other:=mkQueue None 0 (comp o2)]>
        (<[q:=mkQueue (root_of t')
                (size_t_add (elementCount o1) (elementCount o2)) (comp o1)]>
           (queues s)).
Proof.
  intros Hm Hne Hq1 Hq2 Hmerge.
  pose proof (merge_run_distinct _ _ _ _ _ _ Hm Hne Hq1 Hq2) as Hrun.
  destruct (skew_merge (comp o1) (cmp_st s) (sh q) (sh other)) as [cs' [ex|t']] eqn:Hsm.
  - by rewrite Hrun in Hmerge.
  - destruct Hrun as (s'' & Hrun & Hm' & Hcs & _ & Hqs).
    rewrite Hrun in Hmerge. injection Hmerge as <-.
    exists t'. by rewrite Hcs.
Qed.

(** ** No node without an owner *)

Lemma no_garbage_tight sh s : models sh s → no_garbage s ↔ tight sh s.
Proof.
  intros Hm. split; intros H l Hl.
  - destruct (H l Hl) as (q & pq & Hq & Hr). exists q. split; [by eexists|].
    rewrite (models_root _ _ Hm _ _ Hq) in Hr.
    apply stored_reach in Hr; [done|]. eapply models_stored; [done|by eexists].
  - destruct (H l Hl) as (q & [pq Hq] & Hin). exists q, pq. split; [done|].
    rewrite (models_root _ _ Hm _ _ Hq).
    apply stored_reach; [|done]. eapply models_stored; [done|by eexists].
Qed.

(** The queues of an operation adopt what they held before: the step from
    [sh] to [sh'] keeps a tight store tight. *)
Lemma tight_step sh sh' s s' (touched : list qid) :
  tight sh s →
  (∀ q, q ∉ touched → sh' q = sh q) →
  (∀ q, is_Some (queues s !! q) → is_Some (queues s' !! q)) →
  (∀ l, is_Some (nodes s' !! l) →
     (is_Some (nodes s !! l) ∧ ∀ q, q ∈ touched → is_Some (queues s !! q) →
        l ∈ locs (sh q) → ∃ q', is_Some (queues s' !! q') ∧ l ∈ locs (sh' q')) ∨
     ∃ q', is_Some (queues s' !! q') ∧ l ∈ locs (sh' q')) →
  tight sh' s'.
Proof.
  intros Ht Hsame Hqs Hlive l Hl.
  destruct (Hlive l Hl) as [[Hl0 Htouched]|?]; [|done].
  destruct (Ht l Hl0) as (q & Hq & Hin).
  destruct (decide (q ∈ touched)) as [Hq'|Hq']; [by eapply Htouched|].
  exists q. split; [by apply Hqs|]. by rewrite Hsame.
Qed.

Lemma run_op_tight sh s o :
  models sh s → tight sh s → op_valid o s → no_garbage (run_op o s).1.
Proof.
  intros Hm Ht Hv.
  destruct (run_op o s) as [s' r] eqn:Hrun. simpl.
  pose proof (run_op_live s o) as Hlive. rewrite Hrun in Hlive. simpl in Hlive.
  destruct (run_op_cases sh s o Hm Hv) as (s'' & r' & Hrun' & Hcases).
  rewrite Hrun in Hrun'. injection Hrun' as <- <-.
  destruct Hcases as [(e & -> & Hn & Hq & _)|(-> & sh0 & Hm0 & _)].
  { apply (no_garbage_tight sh); [by eapply models_env|].
    intros l. rewrite Hn. intros Hl. destruct (Ht l Hl) as (q & ? & ?).
    exists q. by rewrite Hq. }
  destruct o as [q e|q|q other|q|q|q]; simpl in *.
  - (* push *)
    destruct Hv as [o Hq].
    destruct (push_Ok_inv sh s q o e s' Hm Hq Hrun)
      as (l0 & t' & (rest & Hplan & _) & Hsm & Hm' & Hqs).
    pose proof (skew_merge_locs _ _ _ _ _ _ Hsm) as Hperm. simpl in Hperm.
    assert (Hq' : is_Some (queues s' !! q)) by (rewrite Hqs, lookup_insert_eq; by eexists).
    apply (no_garbage_tight _ _ Hm').
    apply (tight_step sh _ s s' [q]); [done| | |].
    + intros q' [? _]%not_elem_of_cons. by rewrite fn_lookup_insert_ne.
    + intros q' Hsome. destruct (decide (q = q')) as [<-|?]; [done|].
      by rewrite Hqs, lookup_insert_ne.
    + intros l Hl. destruct (Hlive l Hl) as [Hl0|(q0 & e0 & rest0 & _ & Hplan0)].
      * left. split; [done|]. intros q' ->%list_elem_of_singleton _ Hin.
        exists q. split; [done|]. rewrite fn_lookup_insert, Hperm.
        apply elem_of_app. by left.
      * right. exists q. split; [done|]. rewrite fn_lookup_insert, Hperm.
        rewrite Hplan in Hplan0. injection Hplan0 as <- _.
        apply elem_of_app. right. by left.
  - (* pop *)
    destruct Hv as [o Hq].
    destruct (pop_Ok_inv sh s q o s' Hm Hq Hrun)
      as (l0 & v & a & b & t' & Hshq & Hsm & Hm' & Hqs & Hfree).
    pose proof (skew_merge_locs _ _ _ _ _ _ Hsm) as Hperm.
    assert (Hq' : is_Some (queues s' !! q)) by (rewrite Hqs, lookup_insert_eq; by eexists).
    apply (no_garbage_tight _ _ Hm').
    apply (tight_step sh _ s s' [q]); [done| | |].
    + intros q' [? _]%not_elem_of_cons. by rewrite fn_lookup_insert_ne.
    + intros q' Hsome. destruct (decide (q = q')) as [<-|?]; [done|].
      by rewrite Hqs, lookup_insert_ne.
    + intros l Hl. destruct (Hlive l Hl) as [Hl0|(? & ? & ? & ? & _)]; [|done].
      left. split; [done|]. intros q' ->%list_elem_of_singleton _ Hin.
      exists q. split; [done|]. rewrite fn_lookup_insert, Hperm.
      rewrite Hshq in Hin. simpl in Hin.
      apply elem_of_cons in Hin as [->|Hin]; [|done].
      rewrite Hfree in Hl. by destruct Hl.
  - (* merge *)
    destruct Hv as [[o1 Hq1] [o2 Hq2]].
    destruct (decide (q = other)) as [->|Hne].
    { rewrite merge_run_self in Hrun. injection Hrun as <-.
      by apply (no_garbage_tight sh). }
    destruct (merge_Ok_inv sh s q other o1 o2 s' Hm Hne Hq1 Hq2 Hrun)
      as (t' & Hsm & Hm' & Hqs).
    pose proof (skew_merge_locs _ _ _ _ _ _ Hsm) as Hperm.
    assert (Hq' : is_Some (queues s' !! q)).
    { rewrite Hqs, lookup_insert_ne, lookup_insert_eq by done. by eexists. }
    apply (no_garbage_tight _ _ Hm').
    apply (tight_step sh _ s s' [q; other]); [done| | |].
    + intros q' [? [? _]%not_elem_of_cons]%not_elem_of_cons.
      by rewrite !fn_lookup_insert_ne.
    + intros q' Hsome. rewrite Hqs.
      destruct (decide (other = q')) as [<-|?]; [rewrite lookup_insert_eq; by eexists|].
      rewrite lookup_insert_ne by done.
      destruct (decide (q = q')) as [<-|?]; [rewrite lookup_insert_eq; by eexists|].
      by rewrite lookup_insert_ne.
    + intros l Hl. destruct (Hlive l Hl) as [Hl0|(? & ? & ? & ? & _)]; [|done].
      left. split; [done|]. intros q' Hq0 _ Hin.
      exists q. split; [done|].
      rewrite fn_lookup_insert_ne, fn_lookup_insert, Hperm by done.
      apply elem_of_app.
      apply elem_of_cons in Hq0 as [->| ->%list_elem_of_singleton]; auto.
  - (* top *)
    destruct Hv as [o Hq]. unfold bind in Hrun. rewrite (top_run _ _ _ _ Hm Hq) in Hrun.
    assert (s' = s) as -> by (destruct (sh q); by injection Hrun).
    by apply (no_garbage_tight sh).
  - destruct Hv as [o Hq]. unfold bind in Hrun. rewrite (size_run _ _ _ Hq) in Hrun.
    injection Hrun as <-. by apply (no_garbage_tight sh).
  - destruct Hv as [o Hq]. unfold bind in Hrun. rewrite (empty_run _ _ _ Hq) in Hrun.
    injection Hrun as <-. by apply (no_garbage_tight sh).
Qed.

Lemma assign_tight sh s q other :
  models sh s → tight sh s → is_Some (queues s !! q) → is_Some (queues s !! other) →
  (assign q other s).2 = Ok tt → no_garbage (assign q other s).1.
Proof.
  intros Hm Ht [o Hq] [p Hp].
  destruct (decide (q = other)) as [->|Hne].
  { unfold assign. rewrite decide_True by done. intros _. by apply (no_garbage_tight sh). }
  destruct (assign_run sh s q other o p Hm Hne Hq Hp)
    as (s' & r & Hrun & _ & [(e & ->)|(-> & t' & _ & Hm' & Hqs & _ & Hfree & Hout)]);
    rewrite Hrun; simpl; [done|]. intros _.
  assert (Hq' : is_Some (queues s' !! q)) by (rewrite Hqs, lookup_insert_eq; by eexists).
  apply (no_garbage_tight _ _ Hm').
  apply (tight_step sh _ s s' [q]); [done| | |].
  - intros q' [? _]%not_elem_of_cons. by rewrite fn_lookup_insert_ne.
  - intros q' Hsome. destruct (decide (q = q')) as [<-|?]; [done|].
    by rewrite Hqs, lookup_insert_ne.
  - intros l Hl. destruct (decide (l ∈ locs t')) as [Hin|Hnin].
    { right. exists q. by rewrite fn_lookup_insert. }
    destruct (decide (l ∈ locs (sh q))) as [Hd|Hd].
    { rewrite (Hfree _ Hd) in Hl. by destruct Hl. }
    left. rewrite Hout in Hl by done. split; [done|].
    by intros q' ->%list_elem_of_singleton.
Qed.

Lemma copy_construct_tight sh s q other :
  models sh s → tight sh s → queues s !! q = None → is_Some (queues s !! other) →
  (copy_construct q other s).2 = Ok tt → no_garbage (copy_construct q other s).1.
Proof.
  intros Hm Ht Hq [p Hp].
  destruct (copy_construct_run sh s q other p Hm Hq Hp)
    as (s' & r & Hrun & _ & [(e & -> & _)|(-> & t' & _ & Hm' & Hqs & _ & Hout)]);
    rewrite Hrun; simpl; [done|]. intros _.
  assert (Hq' : is_Some (queues s' !! q)) by (rewrite Hqs, lookup_insert_eq; by eexists).
  apply (no_garbage_tight _ _ Hm').
  apply (tight_step sh _ s s' [q]); [done| | |].
  - intros q' [? _]%not_elem_of_cons. by rewrite fn_lookup_insert_ne.
  - intros q' Hsome. destruct (decide (q = q')) as [<-|?]; [done|].
    by rewrite Hqs, lookup_insert_ne.
  - intros l Hl. destruct (decide (l ∈ locs t')) as [Hin|Hnin].
    { right. exists q. by rewrite fn_lookup_insert. }
    left. rewrite Hout in Hl by done. split; [done|].
    intros q' ->%list_elem_of_singleton [? Hsome]. congruence.
Qed.

(** ** The destructor *)

Lemma models_drop sh s s' this :
  models sh s → is_Some (queues s !! this) →
  queues s' = delete this (queues s) →
  (∀ l, l ∉ locs (sh this) → nodes s' !! l = nodes s !! l) →
  (∀ l, l ∈ locs (sh this) → nodes s' !! l = None) →
  models sh s'.
Proof.
  intros Hm Hthis Hqs Hout Hfree.
  assert (Hlook : ∀ q, is_Some (queues s' !! q) →
            q ≠ this ∧ queues s' !! q = queues s !! q).
  { intros q. rewrite Hqs. destruct (decide (this = q)) as [<-|Hne].
    - rewrite lookup_delete_eq. by intros [].
    - by rewrite lookup_delete_ne. }
  split.
  - intros l Hl. destruct (decide (l ∈ locs (sh this))) as [Hd|Hd].
    { rewrite (Hfree _ Hd) in Hl. by destruct Hl. }
    rewrite Hout in Hl by done. by eapply models_valid.
  - intros q o Hq. destruct (Hlook q (mk_is_Some _ _ Hq)) as [_ E].
    rewrite E in Hq. by eapply models_root.
  - intros q o Hq. destruct (Hlook q (mk_is_Some _ _ Hq)) as [_ E].
    rewrite E in Hq. by eapply models_count.
  - intros q Hq. destruct (Hlook q Hq) as [Hne E]. rewrite E in Hq.
    eapply stored_agree; [|by eapply models_stored]. intros l Hl. apply Hout.
    by eapply (models_disjoint _ _ Hm q this).
  - intros q Hq. destruct (Hlook q Hq) as [Hne E]. rewrite E in Hq.
    by eapply models_NoDup.
  - intros q1 q2 Hne Hq1 Hq2. destruct (Hlook q1 Hq1) as [_ E1].
    destruct (Hlook q2 Hq2) as [_ E2]. rewrite E1 in Hq1. rewrite E2 in Hq2.
    by eapply models_disjoint.
Qed.

(** The body of the destructor and the end of the object, on a well-formed
    state. *)
Lemma destroy_run sh s this o :
  models sh s → queues s !! this = Some o →
  ∃ s' r, (destroy_body this;;; drop_queue this) s = (s', r) ∧ cmp_st s' = cmp_st s ∧
    (∀ l, l ∉ locs (sh this) → nodes s' !! l = nodes s !! l) ∧
    ((r = Throw bad_alloc ∧ queues s' = queues s) ∨
     (r = Ok tt ∧ queues s' = delete this (queues s) ∧
      (∀ l, l ∈ locs (sh this) → nodes s' !! l = None) ∧ models sh s')) ∧
    (∀ n, granted n (plan s) → (tsize (sh this) ≤ n)%nat →
          Z.of_nat (tsize (sh this)) < 2 ^ 59 → r = Ok tt) ∧
    (sh this ≠ Nil → ¬ granted 1 (plan s) → r = Throw bad_alloc).
Proof.
  intros Hm Hq.
  pose proof (models_stored _ _ Hm this (mk_is_Some _ _ Hq)) as Hst.
  pose proof (models_NoDup _ _ Hm this (mk_is_Some _ _ Hq)) as Hnd.
  destruct (clear_nodes_run (sh this) s Hst Hnd)
    as (s1 & r1 & Hrun1 & Hq1 & Hc1 & Hout1 & Hr1).
  assert (Hmem : ∀ n, granted n (plan s) → (tsize (sh this) ≤ n)%nat →
            Z.of_nat (tsize (sh this)) < 2 ^ 59 → r1 = Ok tt).
  { intros n Hg Hn Hsmall.
    destruct (clear_nodes_granted (sh this) n s Hst Hnd Hg Hn Hsmall)
      as (s1' & _ & Hrun1' & _).
    rewrite Hrun1 in Hrun1'. by injection Hrun1' as _ ->. }
  assert (Hno : sh this ≠ Nil → ¬ granted 1 (plan s) → r1 = Throw bad_alloc).
  { intros Hne Hng. destruct (sh this) as [|l v a b]; [done|].
    revert Hrun1. cbn [root_of clear_nodes]. unfold new_array.
    unfold bind. case_bool_decide; [by intros [= _ <-]|].
    destruct (plan s) as [|[e|l'] rest]; simpl in Hng; [by intros [= _ <-]..|].
    by destruct Hng. }
  destruct Hr1 as [->|[-> Hfree]].
  { exists s1, (Throw bad_alloc). split.
    { erewrite bind_Throw; [done|]. unfold destroy_body.
      erewrite bind_Ok; [|by apply get_queue_run].
      rewrite (models_root _ _ Hm _ _ Hq). by erewrite bind_Throw. }
    split_and!; [done|done|by left| |done]. intros n Hg Hn Hsmall.
    by specialize (Hmem n Hg Hn Hsmall). }
  eexists _, _. split.
  { erewrite bind_Ok; [reflexivity|]. unfold destroy_body.
    erewrite bind_Ok; [|by apply get_queue_run].
    rewrite (models_root _ _ Hm _ _ Hq).
    erewrite bind_Ok; [|exact Hrun1].
    erewrite bind_Ok; [|apply (set_root_run this None o); by rewrite Hq1].
    eapply set_elementCount_run; simpl; apply lookup_insert_eq. }
  simpl.
  rewrite !insert_insert_eq, delete_insert_eq, Hq1.
  split_and!; [done|done| |done|done]. right. split_and!; [done|done|done|].
  apply (models_drop sh s _ this); simpl; done.
Qed.

(** ** Draining a queue *)

(** The reference merge does not look at addresses. *)
Lemma skew_merge_same_values c cs a b a' b' :
  same_values a a' → same_values b b' →
  same_merge (skew_merge c cs a b) (skew_merge c cs a' b').
Proof.
  revert a' b'.
  apply (skew_merge_induction c (λ cs a b r, ∀ a' b',
    same_values a a' → same_values b b' → same_merge r (skew_merge c cs a' b')));
    clear cs a b.
  - intros cs b [|? ? ? ?] b' Ha Hb; [|done]. by simp skew_merge.
  - intros cs a a' [|? ? ? ?] Ha Hb; [|by destruct a]. by rewrite skew_merge_Nil_r.
  - intros cs la va al ar lb vb bl br cs1 e Hc [|la' va' al' ar'] [|lb' vb' bl' br'];
      try done. intros (<- & _ & _) (<- & _ & _).
    rewrite skew_merge_Tr, Hc. done.
  - intros cs la va al ar lb vb bl br cs1 Hc IH [|la' va' al' ar'] [|lb' vb' bl' br'];
      try done. intros (<- & Hal & Har) (<- & Hbl & Hbr).
    rewrite skew_merge_Tr, Hc.
    specialize (IH br' (Tr la' va al' ar') Hbr (conj eq_refl (conj Hal Har))).
    destruct (skew_merge c cs1 br (Tr la va al ar)) as [cs2 [e|m]],
      (skew_merge c cs1 br' (Tr la' va al' ar')) as [cs2' [e'|m']]; simpl in *;
      try done. destruct IH as [-> Hm]. by split_and!.
  - intros cs la va al ar lb vb bl br cs1 Hc IH [|la' va' al' ar'] [|lb' vb' bl' br'];
      try done. intros (<- & Hal & Har) (<- & Hbl & Hbr).
    rewrite skew_merge_Tr, Hc.
    specialize (IH ar' (Tr lb' vb bl' br') Har (conj eq_refl (conj Hbl Hbr))).
    destruct (skew_merge c cs1 ar (Tr lb vb bl br)) as [cs2 [e|m]],
      (skew_merge c cs1 ar' (Tr lb' vb bl' br')) as [cs2' [e'|m']]; simpl in *;
      try done. destruct IH as [-> Hm]. by split_and!.
Qed.

Lemma drain_tree_same_values fuel c cs t t' :
  same_values t t' → drain_tree fuel c cs t = drain_tree fuel c cs t'.
Proof.
  revert cs t t'. induction fuel as [|fuel IH]; intros cs [|l v a b] [|l' v' a' b'];
    simpl; try done.
  intros (<- & Ha & Hb).
  pose proof (skew_merge_same_values c cs a b a' b' Ha Hb) as Hsm.
  destruct (skew_merge c cs a b) as [cs1 [e|m]],
    (skew_merge c cs a' b') as [cs1' [e'|m']]; simpl in Hsm; try done.
  - by destruct Hsm as [-> ->].
  - destruct Hsm as [-> Hm]. by rewrite (IH _ _ _ Hm).
Qed.

(** Repeated [top] and [pop] on a queue deliver what [drain_tree] delivers
    from its tree. *)
Lemma drain_run q :
  ∀ n sh s o,
    models sh s → queues s !! q = Some o →
    ∃ s' r, drain n q s = (s', r) ∧
      drained s' r (drain_tree n (comp o) (cmp_st s) (sh q)).
Proof.
  induction n as [|n IH]; intros sh s o Hm Hq.
  { exists s, (Ok []). split; [done|]. by destruct (sh q). }
  pose proof (models_count _ _ Hm _ _ Hq) as Hcount.
  destruct (sh q) as [|l v a b] eqn:Hshq.
  { exists s, (Ok []). split; [|done]. cbn [drain].
    erewrite bind_Ok; [|by apply empty_run].
    by rewrite bool_decide_eq_true_2. }
  rewrite tsize_Tr in Hcount.
  pose proof (pop_run _ _ _ _ _ _ _ _ Hm Hq Hshq) as Hpop.
  cbn [drain drain_tree].
  erewrite bind_Ok; [|by apply empty_run].
  rewrite bool_decide_eq_false_2 by lia.
  erewrite bind_Ok; [|rewrite (top_run _ _ _ _ Hm Hq), Hshq; reflexivity].
  destruct (skew_merge (comp o) (cmp_st s) a b) as [cs1 [e|t']] eqn:Hsm.
  { eexists _, _. split; [by erewrite bind_Throw|]. done. }
  destruct Hpop as (s1 & Hpop & Hm1 & Hcs1 & _ & Hqs1 & _).
  erewrite bind_Ok; [|exact Hpop].
  destruct (IH (<[q:=t']> sh) s1 (mkQueue (root_of t')
    (size_t_sub (elementCount o) 1) (comp o)) Hm1) as (s' & r & Hrun & Hcs' & Hr).
  { by rewrite Hqs1, lookup_insert_eq. }
  rewrite fn_lookup_insert, Hcs1 in Hcs', Hr. simpl in Hcs', Hr.
  destruct (drain_tree n (comp o) cs1 t') as [cs2 [e|vs]]; simpl in *; subst r.
  - exists s', (Throw e). split; [by erewrite bind_Throw|done].
  - exists s', (Ok (v :: vs)). split; [by erewrite bind_Ok|done].
Qed.

(** With memory and a comparison that does not fail, a sequence of [push]
    adds its elements. *)
Lemma push_all_run I q :
  never_fails I →
  ∀ xs s ls rest t,
    reachable s → contents s q t → I (cmp_st s) →
    plan s = (inr <$> ls) ++ rest → length ls = length xs → NoDup ls →
    (∀ l, l ∈ ls → nodes s !! l = None ∧ valid_addr l = true) →
    ∃ t', reachable (push_all q xs s) ∧ contents (push_all q xs s) q t' ∧
      elems t' ≡ₚ xs ++ elems t ∧ I (cmp_st (push_all q xs s)) ∧
      plan (push_all q xs s) = rest.
Proof.
  intros HI. induction xs as [|x xs IH]; intros s ls rest t Hr Hc Hcs Hplan Hlen Hnd Hfresh.
  { destruct ls; [|done]. exists t. by split_and!. }
  destruct ls as [|l ls]; [done|]. simpl in Hplan, Hlen.
  apply NoDup_cons in Hnd as [Hl Hnd].
  destruct (Hfresh l) as [Hlf Hlv]; [by left|].
  destruct (reachable_wf s Hr) as (sh & Hm).
  pose proof (contents_models _ _ _ _ Hm Hc) as Ht. destruct Hc as (o & Hq & _).
  destruct (run_op_ready I sh s (Push q x) Hm (mk_is_Some _ _ Hq) HI Hcs)
    as (s1 & Hpush).
  { simpl. eexists _, _. by apply (new_Node_granted x l ((inr <$> ls) ++ rest)). }
  simpl in Hpush.
  assert (Hr1 : reachable s1).
  { pose proof (reachable_op s (Push q x) Hr (mk_is_Some _ _ Hq)) as H.
    simpl in H. by rewrite Hpush in H. }
  destruct (push_Ok_inv sh s q o x s1 Hm Hq Hpush)
    as (l0 & t1 & (rest0 & Hplan0 & Hplan1) & Hsm & Hm1 & Hqs1).
  rewrite Hplan in Hplan0. injection Hplan0 as <- <-.
  destruct (skew_merge_never_fails I (comp o) (cmp_st s) (sh q) (Tr l x Nil Nil) HI Hcs)
    as (cs' & t'' & Hsm' & Hcs').
  rewrite Hsm in Hsm'. injection Hsm' as Hcs1 _.
  pose proof (skew_merge_elems _ _ _ _ _ _ Hsm) as Hel. simpl in Hel.
  destruct (IH s1 ls rest t1) as (t' & Hr' & Hc' & Hel' & Hcs'' & Hplan');
    try done.
  { pose proof (models_contents _ _ q Hm1) as Hc1. rewrite fn_lookup_insert in Hc1.
    apply Hc1. rewrite Hqs1, lookup_insert_eq. by eexists. }
  { by rewrite Hcs1. }
  { lia. }
  { intros l' Hl'. destruct (Hfresh l') as [Hf Hv]; [by right|]. split; [|done].
    destruct (nodes s1 !! l') as [n|] eqn:Hn; [|done].
    pose proof (run_op_live s (Push q x) l') as Hlive. simpl in Hlive.
    rewrite Hpush in Hlive. simpl in Hlive.
    destruct (Hlive (mk_is_Some _ _ Hn)) as [[? ?]|(? & ? & ? & _ & Hp)]; [congruence|].
    rewrite Hplan in Hp. injection Hp as -> _. done. }
  exists t'. simpl. rewrite Hpush. simpl. split_and!; try done.
  rewrite Hel', Hel, Ht. solve_Permutation.
Qed.

(** ** Claims *)


(** C4. [a.merge(b)] between two distinct queues either throws, with both
    stores as they were, or succeeds, and then [a] holds a tree with exactly
    the nodes of both trees (no element lost, none duplicated), [a.size()] is
    the sum of the two sizes before, and [b] has a null root and a zero count.
    It succeeds whenever the comparison does not fail. *)
Theorem merge_moves_every_element s q other ta tb :
  wf s → q ≠ other → contents s q ta → contents s other tb →
  ((∃ s' e, merge q other s = (s', Throw e) ∧
            nodes s' = nodes s ∧ queues s' = queues s) ∨
   (∃ s' t' na nb,
      merge q other s = (s', Ok tt) ∧
      contents s' q t' ∧
      locs t' ≡ₚ locs ta ++ locs tb ∧
      elems t' ≡ₚ elems ta ++ elems tb ∧
      (size q s).2 = Ok na ∧ (size other s).2 = Ok nb ∧
      (size q s').2 = Ok (na + nb) ∧
      (∃ pb, queues s' !! other = Some pb ∧ root pb = None ∧ elementCount pb = 0) ∧
      (empty other s').2 = Ok true)) ∧
  (∀ I, never_fails I → I (cmp_st s) → ∃ s', merge q other s = (s', Ok tt)).
Proof.
  intros (sh & Hm) Hne Ha Hb.
  pose proof (contents_models _ _ _ _ Hm Ha) as Hta.
  pose proof (contents_models _ _ _ _ Hm Hb) as Htb.
  destruct Ha as (o1 & Hq1 & _). destruct Hb as (o2 & Hq2 & _).
  pose proof (merge_run_distinct _ _ _ _ _ _ Hm Hne Hq1 Hq2) as Hspec.
  rewrite Hta, Htb in Hspec. split.
  2:{ intros I HI Hcs.
      destruct (skew_merge_never_fails I (comp o1) (cmp_st s) ta tb HI Hcs)
        as (cs' & t' & Hsm & _).
      rewrite Hsm in Hspec. destruct Hspec as (s' & Hrun & _). eauto. }
  destruct (skew_merge (comp o1) (cmp_st s) ta tb) as [cs' [ex|t']] eqn:Hsm.
  { left. eexists _, _. split; [exact Hspec|done]. }
  destruct Hspec as (s' & Hrun & Hm' & _ & _ & Hqs). right.
  assert (Hq1' : queues s' !! q = Some (mkQueue (root_of t')
    (size_t_add (elementCount o1) (elementCount o2)) (comp o1))).
  { by rewrite Hqs, lookup_insert_ne, lookup_insert_eq. }
  assert (Hq2' : queues s' !! other = Some (mkQueue None 0 (comp o2))).
  { by rewrite Hqs, lookup_insert_eq. }
  exists s', t', (elementCount o1), (elementCount o2). split_and!.
  - done.
  - pose proof (models_contents _ _ q Hm' (mk_is_Some _ _ Hq1')) as Hc.
    by rewrite fn_lookup_insert_ne, fn_lookup_insert in Hc.
  - by eapply skew_merge_locs.
  - by eapply skew_merge_elems.
  - by rewrite (size_run _ _ _ Hq1).
  - by rewrite (size_run _ _ _ Hq2).
  - rewrite (size_run _ _ _ Hq1'). simpl. f_equal.
    pose proof (models_count _ _ Hm' _ _ Hq1') as Hc. simpl in Hc.
    rewrite fn_lookup_insert_ne, fn_lookup_insert in Hc by done.
    rewrite Hc, (models_count _ _ Hm _ _ Hq1), (models_count _ _ Hm _ _ Hq2).
    rewrite Hta, Htb. unfold tsize.
    rewrite (skew_merge_locs _ _ _ _ _ _ Hsm), length_app. lia.
  - eexists. split; [exact Hq2'|done].
  - by rewrite (empty_run _ _ _ Hq2').
Qed.

(** In every state reached by constructions, [push], [pop], [merge], [top],
    [size] and [empty], successful or failed, the count of every queue is the
    number of nodes reachable from its root, and the root is null exactly when
    the count is zero. *)
Theorem count_is_number_of_reachable_nodes s q pq :
  reachable s → queues s !! q = Some pq →
  (∃ ls, NoDup ls ∧ (∀ x, x ∈ ls ↔ reach (nodes s) (root pq) x) ∧
         elementCount pq = Z.of_nat (length ls)) ∧
  (root pq = None ↔ elementCount pq = 0).
Proof.
  intros (sh & Hm)%reachable_wf Hq.
  pose proof (models_root _ _ Hm _ _ Hq) as Hroot.
  pose proof (models_count _ _ Hm _ _ Hq) as Hcount.
  pose proof (models_stored _ _ Hm q (mk_is_Some _ _ Hq)) as Hst.
  pose proof (models_NoDup _ _ Hm q (mk_is_Some _ _ Hq)) as Hnd.
  split.
  - exists (locs (sh q)). split_and!; [done| |done].
    intros x. rewrite Hroot. symmetry. by apply stored_reach.
  - rewrite Hroot, Hcount. destruct (sh q); simpl; [done|].
    rewrite tsize_Tr. split; [done|lia].
Qed.

(** C6. On two non-empty trees [merge_nodes] is the reference skew-heap
    merge: the root that is not ordered below the other survives (the first
    argument when the comparison answers [false]), the survivor's right child
    is merged with the other tree and installed as its right child, the
    survivor's children are swapped, and the survivor is returned.  A
    comparison that throws makes the whole merge throw, with the store as it
    was. *)
Theorem merge_nodes_is_skew_merge c la va al ar lb vb bl br s :
  let a := Tr la va al ar in
  let b := Tr lb vb bl br in
  stored (nodes s) a → stored (nodes s) b → NoDup (locs a ++ locs b) →
  run_as (merge_nodes c (Some la) (Some lb)) s (locs a ++ locs b)
    (skew_merge c (cmp_st s) a b) ∧
  skew_merge c (cmp_st s) a b =
    match call c (cmp_st s) va vb with
    | (cs1, inl e) => (cs1, inl e)
    | (cs1, inr below) =>
        let '(top, other) := if below : bool then (b, a) else (a, b) in
        match skew_merge c cs1 (right_child top) other with
        | (cs2, inl e) => (cs2, inl e)
        | (cs2, inr m) => (cs2, inr (swap_children (install_right top m)))
        end
    end.
Proof.
  intros a b Ha Hb Hnd. split.
  - apply (merge_nodes_spec c a b s Ha Hb Hnd).
  - unfold a, b. rewrite skew_merge_Tr.
    by destruct (call c (cmp_st s) va vb) as [cs1 [e|[|]]].
Qed.

(** C7. Merging a queue into itself returns at once: no error, no
    comparison, no change of the state. *)
Theorem merge_self_is_noop (q : qid) (s : state) : merge q q s = (s, Ok tt).
Proof. unfold merge. by rewrite decide_True. Qed.

(** C10. Assigning a queue to itself returns at once: no error, no clone, no
    teardown, no change of the state. *)
Theorem assign_self_is_noop (q : qid) (s : state) : assign q q s = (s, Ok tt).
Proof. unfold assign. by rewrite decide_True. Qed.

(** ** The heap order *)

Section ordered.

(** The relation the comparison decides: whenever it answers, whatever its
    state, the answer is [below x y]. *)
Variable below : T → T → bool.

Lemma swo_asymmetric : strict_weak_order below → asymmetric below.
Proof.
  intros H x y Hxy. destruct (below y x) eqn:Hyx; [|done].
  by rewrite <- (swo_irrefl _ H x), <- (swo_trans _ H x y x Hxy Hyx).
Qed.

(** "Not below" is transitive for a strict weak ordering. *)
Lemma swo_not_below_trans x y z :
  strict_weak_order below → below x y = false → below y z = false → below x z = false.
Proof.
  intros H Hxy Hyz. destruct (below x z) eqn:Hxz; [|done].
  destruct (below z y) eqn:Hzy.
  { by rewrite (swo_trans _ H x z y Hxz Hzy) in Hxy. }
  destruct (below y x) eqn:Hyx.
  { by rewrite (swo_trans _ H y x z Hyx Hxz) in Hyz. }
  destruct (swo_incomparable _ H x y z Hxy Hyx Hyz Hzy) as [Hc _]. congruence.
Qed.

Lemma skew_merge_heap_ordered c cs a b cs' t :
  answers_below below → asymmetric below →
  heap_ordered below a → heap_ordered below b → skew_merge c cs a b = (cs', inr t) →
  heap_ordered below t ∧ ∀ v, not_below_root below v a → not_below_root below v b → not_below_root below v t.
Proof.
  intros Hans Hasym. revert cs' t.
  apply (skew_merge_induction c (λ cs a b r, ∀ cs' t,
    heap_ordered below a → heap_ordered below b → r = (cs', inr t) →
    heap_ordered below t ∧ ∀ v, not_below_root below v a → not_below_root below v b → not_below_root below v t));
    clear cs a b.
  - intros cs b cs' t _ Hb [= <- <-]. auto.
  - intros cs a cs' t Ha _ [= <- <-]. auto.
  - done.
  - intros cs la va al ar lb vb bl br cs1 Hc IH cs' t Ha Hb.
    destruct (skew_merge c cs1 br (Tr la va al ar)) as [cs2 [e|m]]; [done|].
    intros [= <- <-]. apply Hans in Hc. symmetry in Hc.
    destruct Hb as (Hbl & Hbr & Hobl & Hobr).
    destruct (IH _ _ Hobr Ha eq_refl) as [Hm Hroot].
    split; [|done]. simpl. split_and!; try done.
    apply Hroot; [done|]. simpl. by apply Hasym.
  - intros cs la va al ar lb vb bl br cs1 Hc IH cs' t Ha Hb.
    destruct (skew_merge c cs1 ar (Tr lb vb bl br)) as [cs2 [e|m]]; [done|].
    intros [= <- <-]. apply Hans in Hc. symmetry in Hc.
    destruct Ha as (Hal & Har & Hoal & Hoar).
    destruct (IH _ _ Hoar Hb eq_refl) as [Hm Hroot].
    split; [|done]. simpl. split_and!; try done.
    by apply Hroot.
Qed.

(** The heap order is a matter of shape and values, not of addresses. *)
Lemma same_values_heap_ordered t t' :
  same_values t t' → heap_ordered below t → heap_ordered below t'.
Proof.
  assert (Hroot : ∀ v a a', same_values a a' →
            not_below_root below v a → not_below_root below v a').
  { intros v [|? ? ? ?] [|? ? ? ?]; simpl; try done. by intros (<- & _). }
  revert t'. induction t as [|l v a IHa b IHb]; intros [|l' v' a' b']; simpl; try done.
  intros (<- & Ha & Hb) (Hva & Hvb & Hoa & Hob). split_and!; eauto.
Qed.

Lemma maintained_heap_ordered :
  answers_below below → asymmetric below → maintained (heap_ordered below).
Proof.
  intros Hans Hasym. split; simpl; try done.
  - intros l v a b (_ & _ & ? & ?). done.
  - intros c cs a b cs' t Ha Hb Hsm.
    by destruct (skew_merge_heap_ordered _ _ _ _ _ _ Hans Hasym Ha Hb Hsm).
  - apply same_values_heap_ordered.
Qed.


Lemma stored_value h t l n :
  stored h t → l ∈ locs t → h !! l = Some n → value n ∈ elems t.
Proof.
  induction t as [|l0 v a IHa b IHb]; simpl; [by intros _ ?%elem_of_nil|].
  intros (Hl0 & Ha & Hb) Hin Hl.
  apply elem_of_cons in Hin as [->|[Hin|Hin]%elem_of_app].
  - rewrite Hl0 in Hl. injection Hl as <-. simpl. apply elem_of_cons. by left.
  - apply elem_of_cons. right. apply elem_of_app. left. by apply IHa.
  - apply elem_of_cons. right. apply elem_of_app. right. by apply IHb.
Qed.

(** In a heap-ordered tree nothing is above what is not below the root. *)
Lemma heap_ordered_not_below t v x :
  strict_weak_order below → heap_ordered below t → not_below_root below v t → x ∈ elems t →
  below v x = false.
Proof.
  intros Hswo. revert v. induction t as [|l w a IHa b IHb]; simpl;
    [by intros v _ _ ?%elem_of_nil|].
  intros v (Hwa & Hwb & Hoa & Hob) Hvw Hx.
  apply elem_of_cons in Hx as [->|[Hx|Hx]%elem_of_app]; [done| |].
  - eapply swo_not_below_trans; [done..|]. by apply IHa.
  - eapply swo_not_below_trans; [done..|]. by apply IHb.
Qed.



(** C2. For a comparison that is a strict weak ordering, [top()] on a
    non-empty reachable queue returns the value at the root, and that value
    is below no value stored in the queue. *)
Theorem top_is_maximum s q pq :
  answers_below below → strict_weak_order below →
  reachable s → queues s !! q = Some pq → elementCount pq ≠ 0 →
  ∃ l n, root pq = Some l ∧ nodes s !! l = Some n ∧
    top q s = (s, Ok (value n)) ∧
    ∀ x nx, reach (nodes s) (root pq) x → nodes s !! x = Some nx →
            below (value n) (value nx) = false.
Proof.
  intros Hans Hswo Hr Hq Hne.
  destruct (reachable_wf_with (heap_ordered below) s
    (maintained_heap_ordered Hans (swo_asymmetric Hswo)) Hr) as (sh & Hm & Hord).
  pose proof (models_stored _ _ Hm q (mk_is_Some _ _ Hq)) as Hst.
  pose proof (models_root _ _ Hm _ _ Hq) as Hroot.
  pose proof (top_run _ _ _ _ Hm Hq) as Htop.
  specialize (Hord q (mk_is_Some _ _ Hq)).
  destruct (models_nonempty _ _ _ _ Hm Hq Hne) as (l & v & a & b & Hsh).
  rewrite Hsh in *. simpl in Hst. destruct Hst as (Hl & Ha & Hb).
  exists l, (mkNode v (root_of a) (root_of b)). split_and!; try done.
  intros x nx Hreach Hx. rewrite Hroot in Hreach.
  apply (stored_reach _ (Tr l v a b) x) in Hreach; [|done].
  eapply (heap_ordered_not_below (Tr l v a b)); [done|done| |].
  - simpl. apply (swo_irrefl _ Hswo).
  - eapply stored_value; [|done|done]. done.
Qed.

End ordered.

(** C8. When copy-assignment fails while it clones the source, the exception
    of the clone is the exception of the assignment, every queue object (root,
    count and comparison of the destination among them) is as before, and
    every node that was live is live and unchanged: nothing of the
    destination's graph has been freed, its tree is the tree it was. *)
Theorem assign_clone_failure_keeps_destination s this other p s1 e :
  this ≠ other → queues s !! other = Some p →
  clone_nodes (root p) s = (s1, Throw e) →
  assign this other s = (s1, Throw e) ∧
  queues s1 = queues s ∧
  (∀ l n, nodes s !! l = Some n → nodes s1 !! l = Some n) ∧
  (∀ t, contents s this t → contents s1 this t).
Proof.
  intros Hne Hq Hclone.
  destruct (keeps_clone_nodes s (root p) s s1 _ (extends_refl s) Hclone)
    as [[[Hg _] Hqs] _].
  split_and!; [|done|done|].
  - unfold assign. rewrite decide_False by done.
    step get_queue_run. erewrite bind_Throw; [done|].
    destruct (root p) as [l|] eqn:Hroot.
    + by erewrite try_catch_Throw.
    + unfold clone_nodes in Hclone. by destruct (base.size (nodes s)).
  - intros t (o & Ho & Hroot & Hst). exists o. rewrite Hqs.
    split_and!; [done..|].
    eapply stored_agree; [|exact Hst]. intros l Hl.
    destruct (stored_live _ _ _ Hst Hl) as [n Hn]. by rewrite Hn, (Hg _ _ Hn).
Qed.

(** ** Further properties of the code *)

(** [top()] and [pop()] on an empty queue throw [container_is_empty] and
    change nothing. *)
Theorem empty_queue_is_reported s q pq :
  queues s !! q = Some pq → elementCount pq = 0 →
  top q s = (s, Throw container_is_empty) ∧
  pop q s = (s, Throw container_is_empty).
Proof.
  intros Hq H0. split; [|by eapply pop_empty].
  unfold top. step empty_run. by rewrite bool_decide_eq_true_2.
Qed.

(** [push] when [new Node(e)] throws: nothing was allocated, both stores are
    as before, and the exception is a [runtime_error] (the one thrown, when it
    is one already). *)
Theorem push_without_memory s q e s1 ex :
  new_Node e s = (s1, Throw ex) →
  push q e s = (s1, Throw (rethrown ex)) ∧
  is_runtime_error (rethrown ex) = true ∧
  nodes s1 = nodes s ∧ queues s1 = queues s.
Proof.
  intros Hnew. split; [by apply push_alloc_fail|].
  rewrite (new_Node_Throw _ _ _ _ Hnew). split; [|done].
  unfold rethrown. by destruct (is_runtime_error ex) eqn:E.
Qed.

(** Whatever [clone_nodes] does, and however it ends, every node that was
    live stays live and unchanged, and no queue object changes. *)
Theorem clone_keeps_live_nodes p s s' r :
  clone_nodes p s = (s', r) →
  queues s' = queues s ∧ ∀ l n, nodes s !! l = Some n → nodes s' !! l = Some n.
Proof.
  intros Hclone.
  by destruct (keeps_clone_nodes s p s s' r (extends_refl s) Hclone)
    as [[[Hg _] Hqs] _].
Qed.

(** In a reachable state two queues share no node. *)
Theorem queues_share_no_node s q1 q2 pq1 pq2 x :
  reachable s → q1 ≠ q2 →
  queues s !! q1 = Some pq1 → queues s !! q2 = Some pq2 →
  reach (nodes s) (root pq1) x → ¬ reach (nodes s) (root pq2) x.
Proof.
  intros (sh & Hm)%reachable_wf Hne Hq1 Hq2 Hr1 Hr2.
  rewrite (models_root _ _ Hm _ _ Hq1) in Hr1.
  rewrite (models_root _ _ Hm _ _ Hq2) in Hr2.
  apply stored_reach in Hr1; [|by eapply models_stored].
  apply stored_reach in Hr2; [|by eapply models_stored].
  by eapply (models_disjoint _ _ Hm q1 q2).
Qed.

(** Merging an empty queue into a queue, or a queue into an empty one, makes
    no comparison, writes no node, and leaves the tree with the receiver and
    the donor empty. *)
Theorem merge_with_empty_queue s q other t :
  wf s → q ≠ other →
  (contents s q t ∧ contents s other Nil) ∨ (contents s q Nil ∧ contents s other t) →
  ∃ s', merge q other s = (s', Ok tt) ∧
    nodes s' = nodes s ∧ cmp_st s' = cmp_st s ∧
    contents s' q t ∧ contents s' other Nil.
Proof.
  intros (sh & Hm) Hne Hc.
  assert (∃ o p, queues s !! q = Some o ∧ queues s !! other = Some p ∧
    stored (nodes s) t ∧
    merge_nodes (comp o) (root o) (root p) s = (s, Ok (root_of t)))
    as (o & p & Hq & Hp & Hst & Hmn).
  { destruct Hc as [[(o & Hq & Hro & Hst) (p & Hp & Hrp & _)]
                   |[(o & Hq & Hro & _) (p & Hp & Hrp & Hst)]];
      exists o, p; rewrite Hro, Hrp; simpl; split_and!; try done.
    - apply merge_nodes_null_r.
    - apply merge_nodes_null_l. }
  eexists. split; [|split_and!].
  - unfold merge. rewrite decide_False by done.
    erewrite try_catch_Ok; [reflexivity|].
    step get_queue_run. step get_queue_run.
    erewrite bind_Ok; [|exact Hmn].
    step set_root_run.
    erewrite bind_Ok; [|eapply get_queue_run; simpl; apply lookup_insert_eq].
    erewrite bind_Ok;
      [|eapply get_queue_run; simpl; rewrite lookup_insert_ne by done; exact Hp].
    erewrite bind_Ok; [|eapply set_elementCount_run; simpl; apply lookup_insert_eq].
    erewrite bind_Ok;
      [|eapply set_root_run; simpl; rewrite !lookup_insert_ne by done; exact Hp].
    erewrite set_elementCount_run; [|simpl; apply lookup_insert_eq].
    reflexivity.
  - done.
  - done.
  - eexists. simpl. rewrite !insert_insert_eq.
    rewrite lookup_insert_ne, lookup_insert_eq by done. done.
  - eexists. simpl. rewrite !insert_insert_eq, lookup_insert_eq. done.
Qed.


(** [clone_nodes] on a tree of the store returns a copy of the tree, the
    same shape with the same values, that shares no node with the tree, or
    it throws; the tree itself is as before. *)
Theorem clone_nodes_copies_tree t s :
  stored (nodes s) t → NoDup (locs t) →
  ∃ s' r, clone_nodes (root_of t) s = (s', r) ∧ queues s' = queues s ∧
    stored (nodes s') t ∧
    ((∃ e, r = Throw e) ∨
     ∃ t', r = Ok (root_of t') ∧ same_values t t' ∧ elems t' = elems t ∧
           stored (nodes s') t' ∧ NoDup (locs t' ++ locs t)).
Proof.
  intros Hst Hnd.
  destruct (clone_nodes_run t s Hst Hnd) as (s' & r & Hrun & Hq & _ & Hp & Hr).
  exists s', r. split_and!; [done|done|by eapply stored_preserved|].
  destruct Hr as [?|(t' & -> & Hsv & Hst' & Hnd' & Hfresh & _)]; [by left|right].
  exists t'. split_and!; [done|done|by apply same_values_elems|done|].
  apply NoDup_app. split_and!; [done| |done].
  intros l Hl Hl'. destruct (Hfresh _ Hl) as [Hnone _].
  destruct (stored_live _ _ _ Hst Hl') as [n Hn]. congruence.
Qed.

(** Copy-assignment between two distinct queues throws, or succeeds: then
    the destination holds a copy of the tree of the source, with the same
    values and the count of the source, that shares no node with it; the
    source is as before, the nodes the destination held are freed, and the
    state is well formed. *)
Theorem assign_copies_source s this other td ts :
  wf s → this ≠ other → contents s this td → contents s other ts →
  ∃ s' r, assign this other s = (s', r) ∧
    ((∃ e, r = Throw e) ∨
     (r = Ok tt ∧ wf s' ∧ ∃ t',
        contents s' this t' ∧ same_values ts t' ∧ elems t' = elems ts ∧
        contents s' other ts ∧
        (size this s').2 = (size other s).2 ∧
        NoDup (locs t' ++ locs ts) ∧
        (∀ l, l ∈ locs td → nodes s' !! l = None))).
Proof.
  intros (sh & Hm) Hne Hd Hs.
  pose proof (contents_models _ _ _ _ Hm Hd) as Htd.
  pose proof (contents_models _ _ _ _ Hm Hs) as Hts.
  destruct Hd as (o & Ho & _). destruct Hs as (p & Hp & _).
  destruct (assign_run sh s this other o p Hm Hne Ho Hp)
    as (s' & r & Hrun & _ & Hr).
  exists s', r. split; [done|].
  destruct Hr as [?|(-> & t' & Hsv & Hm' & Hqs & _ & Hfree & _)]; [by left|right].
  split; [done|]. split; [by eexists|]. exists t'.
  destruct (copy_adopted sh s s' this other p t' Hm Hne Hp Hm' Hqs)
    as (Hc1 & Hc2 & Hsize & Hnd).
  rewrite Hts in *. rewrite Htd in Hfree.
  split_and!; [done|done|by apply same_values_elems|done..].
Qed.

(** The copy constructor throws and leaves no object, or succeeds: then the
    new queue holds a copy of the tree of the source, with the same values
    and the count of the source, that shares no node with it; the source is
    as before and the state is well formed. *)
Theorem copy_construct_copies_source s this other ts :
  wf s → queues s !! this = None → contents s other ts →
  ∃ s' r, copy_construct this other s = (s', r) ∧
    ((∃ e, r = Throw e ∧ queues s' = queues s) ∨
     (r = Ok tt ∧ wf s' ∧ ∃ t',
        contents s' this t' ∧ same_values ts t' ∧ elems t' = elems ts ∧
        contents s' other ts ∧
        (size this s').2 = (size other s).2 ∧
        NoDup (locs t' ++ locs ts))).
Proof.
  intros (sh & Hm) Hthis Hs.
  pose proof (contents_models _ _ _ _ Hm Hs) as Hts.
  destruct Hs as (p & Hp & _).
  assert (Hne : this ≠ other) by (intros ->; congruence).
  destruct (copy_construct_run sh s this other p Hm Hthis Hp)
    as (s' & r & Hrun & _ & Hr).
  exists s', r. split; [done|].
  destruct Hr as [?|(-> & t' & Hsv & Hm' & Hqs & _)]; [by left|right].
  split; [done|]. split; [by eexists|]. exists t'.
  destruct (copy_adopted sh s s' this other p t' Hm Hne Hp Hm' Hqs)
    as (Hc1 & Hc2 & Hsize & Hnd).
  rewrite Hts in *.
  split_and!; [done|done|by apply same_values_elems|done..].
Qed.

(** With memory, copy-assignment succeeds: when the allocator hands out a
    fresh address for every node of the source, and then grants the
    allocations of the teardown, at most one for every node of the
    destination, the assignment returns.  The destination has fewer than
    2^59 nodes, so that its work stack stays below the largest array. *)
Theorem assign_succeeds_with_memory s this other td ts ls rest :
  wf s → this ≠ other → contents s this td → contents s other ts →
  plan s = (inr <$> ls) ++ rest → length ls = tsize ts → NoDup ls →
  (∀ l, l ∈ ls → nodes s !! l = None ∧ valid_addr l = true) →
  granted (tsize td) rest → Z.of_nat (tsize td) < 2 ^ 59 →
  ∃ s', assign this other s = (s', Ok tt).
Proof.
  intros (sh & Hm) Hne Hd Hs Hplan Hlen Hnd Hfresh Hg Hsmall.
  pose proof (contents_models _ _ _ _ Hm Hd) as Htd.
  pose proof (contents_models _ _ _ _ Hm Hs) as Hts.
  destruct Hd as (o & Ho & Hro & Hstd). destruct Hs as (p & Hp & Hrp & Hsts).
  destruct (clone_nodes_granted ts s ls rest)
    as (s1 & t' & Hclone & _ & Hplan1 & _ & Hout1);
    [done| |done..|].
  { rewrite <- Hts. by eapply models_NoDup. }
  destruct (clone_nodes_run ts s) as (s1' & r1 & Hclone' & Hq1 & _ & Hp1 & _); [done| |].
  { rewrite <- Hts. by eapply models_NoDup. }
  rewrite Hclone in Hclone'. injection Hclone' as <- <-.
  assert (Hstd1 : stored (nodes s1) td) by (by eapply stored_preserved).
  assert (Hndd : NoDup (locs td)).
  { rewrite <- Htd. by eapply models_NoDup. }
  destruct (clear_nodes_granted td (tsize td) s1) as (s2 & _ & Hclear & _);
    [done|done| |done|done|].
  { by rewrite Hplan1. }
  destruct (clear_nodes_run td s1 Hstd1 Hndd) as (s2' & r2 & Hclear' & Hq2 & _).
  rewrite Hclear in Hclear'. injection Hclear' as <- <-.
  eapply (assign_Ok s this other o p s1 (root_of t') s2); try done.
  - by rewrite Hrp.
  - by rewrite Hro.
Qed.

(** With memory, the copy constructor succeeds. *)
Theorem copy_construct_succeeds_with_memory s this other ts ls rest :
  wf s → queues s !! this = None → contents s other ts →
  plan s = (inr <$> ls) ++ rest → length ls = tsize ts → NoDup ls →
  (∀ l, l ∈ ls → nodes s !! l = None ∧ valid_addr l = true) →
  ∃ s', copy_construct this other s = (s', Ok tt) ∧ plan s' = rest.
Proof.
  intros (sh & Hm) Hthis Hs Hplan Hlen Hnd Hfresh.
  pose proof (contents_models _ _ _ _ Hm Hs) as Hts.
  destruct Hs as (p & Hp & Hrp & Hsts).
  destruct (clone_nodes_granted ts s ls rest)
    as (s1 & t' & Hclone & _ & Hplan1 & _ & _);
    [done| |done..|].
  { rewrite <- Hts. by eapply models_NoDup. }
  rewrite <- Hrp in Hclone.
  assert (Hclone' : (match root p with
                     | Some _ => clone_nodes (root p)
                     | None => ret None
                     end) s = (s1, Ok (root_of t'))).
  { destruct (root p); [done|]. by rewrite clone_nodes_null in Hclone. }
  eexists. split.
  - unfold copy_construct. erewrite bind_Ok; [|by apply get_queue_run].
    erewrite bind_Ok; [|exact Hclone']. reflexivity.
  - done.
Qed.

(** A single failure during a clone: when one allocation fails, of the node
    after those at [ls], and the allocator grants what the cleanup asks
    for, [clone_nodes] throws the exception of the failed allocation and has
    freed every node it allocated: the node store is as before.  An
    assignment from a queue with this tree throws the same exception, and
    leaves the stores as they were. *)
Theorem clone_single_failure_frees_copy t s ls e rest :
  stored (nodes s) t → NoDup (locs t) →
  plan s = (inr <$> ls) ++ inl e :: rest → (length ls < tsize t)%nat → NoDup ls →
  (∀ l, l ∈ ls → nodes s !! l = None ∧ valid_addr l = true) →
  Z.of_nat (length ls) < 2 ^ 59 → granted (length ls) rest →
  ∃ s', clone_nodes (root_of t) s = (s', Throw e) ∧
    nodes s' = nodes s ∧ queues s' = queues s ∧
    ∀ this other p, this ≠ other → queues s !! other = Some p →
      root p = root_of t → assign this other s = (s', Throw e).
Proof.
  intros Hst Hnd Hplan Hlen Hndl Hfresh Hsmall Hg.
  destruct (clone_nodes_rec_fails (base.size (nodes s)) t s ls e rest 0)
    as (s' & Hrun & Hn & Hq & _); try done.
  { apply live_bound; [done|]. intros l Hl. by eapply stored_live. }
  { by rewrite Nat.add_0_r. }
  exists s'. split_and!; [done..|].
  intros this other p Hne Hp Hroot. unfold assign. rewrite decide_False by done.
  erewrite bind_Ok; [|by apply get_queue_run].
  erewrite bind_Throw; [done|]. rewrite Hroot.
  destruct t as [|l v a b]; [unfold tsize in Hlen; simpl in Hlen; lia|].
  by erewrite try_catch_Throw.
Qed.

(** A [push] that returns has added its element and nothing else: the queue
    holds the elements it held and [e]; [size()] was the number of elements
    and is one more, without wrapping; the state is well formed. *)
Theorem push_adds_element s q e t s' :
  wf s → contents s q t → push q e s = (s', Ok tt) →
  ∃ t', contents s' q t' ∧ elems t' ≡ₚ e :: elems t ∧
    (size q s).2 = Ok (Z.of_nat (length (elems t))) ∧
    (size q s').2 = Ok (Z.of_nat (length (elems t)) + 1) ∧
    wf s'.
Proof.
  intros (sh & Hm) Hc Hpush.
  pose proof (contents_models _ _ _ _ Hm Hc) as Ht. destruct Hc as (o & Hq & _).
  destruct (push_Ok_inv sh s q o e s' Hm Hq Hpush) as (l & t' & _ & Hsm & Hm' & Hqs).
  assert (Hq' : is_Some (queues s' !! q)) by (rewrite Hqs, lookup_insert_eq; by eexists).
  pose proof (skew_merge_elems _ _ _ _ _ _ Hsm) as Hel. simpl in Hel. rewrite Ht in Hel.
  exists t'. split_and!.
  - pose proof (models_contents _ _ q Hm' Hq') as Hc'. by rewrite fn_lookup_insert in Hc'.
  - rewrite Hel. solve_Permutation.
  - rewrite <- Ht. by apply size_elems; [|eexists].
  - rewrite (size_elems _ _ _ Hm' Hq'), fn_lookup_insert, Hel, length_app. simpl.
    f_equal. lia.
  - by exists (<[q:=t']> sh).
Qed.

(** A [pop] that returns has removed the element that [top()] returned, and
    nothing else: the elements before are that element and the elements
    after; [size()] is one less; the root node is freed. *)
Theorem pop_removes_top s q t s' :
  wf s → contents s q t → pop q s = (s', Ok tt) →
  ∃ v t', top q s = (s, Ok v) ∧ contents s' q t' ∧ elems t ≡ₚ v :: elems t' ∧
    (size q s').2 = Ok (Z.of_nat (length (elems t)) - 1) ∧
    (∀ l, root_of t = Some l → nodes s' !! l = None) ∧
    wf s'.
Proof.
  intros (sh & Hm) Hc Hpop.
  pose proof (contents_models _ _ _ _ Hm Hc) as Ht. destruct Hc as (o & Hq & _).
  destruct (pop_Ok_inv sh s q o s' Hm Hq Hpop)
    as (l & v & a & b & t' & Hshq & Hsm & Hm' & Hqs & Hfree).
  assert (Hq' : is_Some (queues s' !! q)) by (rewrite Hqs, lookup_insert_eq; by eexists).
  pose proof (skew_merge_elems _ _ _ _ _ _ Hsm) as Hel.
  rewrite Hshq in Ht. subst t.
  exists v, t'. split_and!.
  - by rewrite (top_run _ _ _ _ Hm Hq), Hshq.
  - pose proof (models_contents _ _ q Hm' Hq') as Hc'. by rewrite fn_lookup_insert in Hc'.
  - simpl. by rewrite Hel.
  - rewrite (size_elems _ _ _ Hm' Hq'), fn_lookup_insert, Hel. simpl.
    f_equal. lia.
  - by intros ? [= <-].
  - by exists (<[q:=t']> sh).
Qed.

(** The top after a [push] that returns: on an empty queue the element
    pushed; otherwise one comparison of the old top with the element decides,
    and the old top stays unless it is reported below the element. *)
Theorem top_after_push s q pq e s' :
  wf s → queues s !! q = Some pq → push q e s = (s', Ok tt) →
  match (top q s).2 with
  | Ok v => ∃ cs1 b, call (comp pq) (cmp_st s) v e = (cs1, inr b) ∧
                     (top q s').2 = Ok (if b : bool then e else v)
  | _ => (top q s').2 = Ok e
  end.
Proof.
  intros (sh & Hm) Hq Hpush.
  destruct (push_Ok_inv sh s q pq e s' Hm Hq Hpush) as (l & t' & _ & Hsm & Hm' & Hqs).
  assert (Hq' : queues s' !! q = Some (mkQueue (root_of t')
                  (size_t_add (elementCount pq) 1) (comp pq)))
    by (by rewrite Hqs, lookup_insert_eq).
  rewrite (top_run _ _ _ _ Hm Hq), (top_run _ _ _ _ Hm' Hq'), fn_lookup_insert. simpl.
  destruct (sh q) as [|lq v a b].
  - simp skew_merge in Hsm. by injection Hsm as _ <-.
  - rewrite skew_merge_Tr in Hsm.
    destruct (call (comp pq) (cmp_st s) v e) as [cs1 [ex|[|]]]; [done| |].
    + destruct (skew_merge (comp pq) cs1 Nil (Tr lq v a b)) as [cs2 [ex|m]]; [done|].
      injection Hsm as _ <-. by exists cs1, true.
    + destruct (skew_merge (comp pq) cs1 b (Tr l e Nil Nil)) as [cs2 [ex|m]]; [done|].
      injection Hsm as _ <-. by exists cs1, false.
Qed.

(** No operation on queues of a well-formed state has undefined behaviour:
    it returns, or it throws, and then [push] and [merge] throw what
    [catch (const runtime_error &)] catches, [pop] that or
    [container_is_empty], [top] the latter only, [size] and [empty]
    nothing. *)
Theorem operations_are_memory_safe s o :
  wf s → op_valid o s →
  (run_op o s).2 = Ok tt ∨ ∃ e, (run_op o s).2 = Throw e ∧ op_throws o e.
Proof.
  intros (sh & Hm) Hv.
  destruct (run_op_cases sh s o Hm Hv)
    as (s' & r & Hrun & [(e & -> & _ & _ & He)|(-> & _)]); rewrite Hrun; eauto.
Qed.

(** An operation leaves the queues it is not called on as they are: the
    same object, the same tree at the same nodes. *)
Theorem operations_leave_other_queues_alone s o q' pq' t' :
  wf s → op_valid o s → q' ∉ op_queues o →
  queues s !! q' = Some pq' → contents s q' t' →
  queues (run_op o s).1 !! q' = Some pq' ∧ contents (run_op o s).1 q' t'.
Proof.
  intros (sh & Hm) Hv Hq' Hpq' Hc.
  pose proof (contents_models _ _ _ _ Hm Hc) as Ht.
  destruct (run_op_cases sh s o Hm Hv)
    as (s' & r & Hrun & [(e & -> & Hn & Hq & _)|(-> & sh' & Hm' & Hfr)]);
    rewrite Hrun; simpl.
  - rewrite Hq. split; [done|]. destruct Hc as (o' & ? & ? & ?). exists o'.
    by rewrite Hq, Hn.
  - destruct (Hfr q' Hq') as [Hsh Hqs]. rewrite Hqs. split; [done|].
    rewrite <- Ht, <- Hsh. apply models_contents; [done|]. rewrite Hqs. by eexists.
Qed.

Section sorted.

Variable below : T → T → bool.

(** Draining a heap-ordered queue with a comparison that does not fail. *)
Lemma drain_sorted I q :
  answers_below below → strict_weak_order below → never_fails I →
  ∀ n sh s,
    models sh s → is_Some (queues s !! q) → heap_ordered below (sh q) →
    I (cmp_st s) → (tsize (sh q) ≤ n)%nat →
    ∃ s' vs sh', drain n q s = (s', Ok vs) ∧
      vs ≡ₚ elems (sh q) ∧ descending below vs ∧
      models sh' s' ∧ is_Some (queues s' !! q) ∧ sh' q = Nil.
Proof.
  intros Hans Hswo HI. induction n as [|n IH]; intros sh s Hm [o Hq] Hord Hcs Hn.
  { destruct (sh q) as [|l v a b] eqn:Hshq; [|rewrite tsize_Tr in Hn; lia].
    exists s, [], sh. by split_and!. }
  pose proof (models_count _ _ Hm _ _ Hq) as Hcount.
  destruct (sh q) as [|l v a b] eqn:Hshq.
  { exists s, [], sh. split_and!; try done. cbn [drain].
    erewrite bind_Ok; [|by apply empty_run].
    by rewrite bool_decide_eq_true_2. }
  rewrite tsize_Tr in Hn, Hcount.
  pose proof (pop_run _ _ _ _ _ _ _ _ Hm Hq Hshq) as Hpop.
  destruct (skew_merge_never_fails I (comp o) (cmp_st s) a b HI Hcs)
    as (cs' & t' & Hsm & Hcs').
  rewrite Hsm in Hpop. destruct Hpop as (s1 & Hpop & Hm1 & Hcs1 & _ & Hqs1 & _).
  destruct Hord as (Hva & Hvb & Hoa & Hob).
  destruct (skew_merge_heap_ordered below (comp o) (cmp_st s) a b cs' t' Hans
    (swo_asymmetric below Hswo) Hoa Hob Hsm) as [Hot' _].
  pose proof (skew_merge_locs _ _ _ _ _ _ Hsm) as Hlocs.
  pose proof (skew_merge_elems _ _ _ _ _ _ Hsm) as Helems.
  destruct (IH (<[q:=t']> sh) s1) as (s' & vs & sh' & Hrun & Hperm & Hdesc & Hm' & Hq' & Hnil).
  { done. }
  { rewrite Hqs1, lookup_insert_eq. by eexists. }
  { by rewrite fn_lookup_insert. }
  { by rewrite Hcs1. }
  { rewrite fn_lookup_insert. unfold tsize in *. rewrite Hlocs, length_app. lia. }
  rewrite fn_lookup_insert in Hperm.
  exists s', (v :: vs), sh'. split_and!; try done.
  - cbn [drain]. erewrite bind_Ok; [|by apply empty_run].
    rewrite bool_decide_eq_false_2 by lia.
    erewrite bind_Ok; [|rewrite (top_run _ _ _ _ Hm Hq), Hshq; reflexivity].
    erewrite bind_Ok; [|exact Hpop].
    by erewrite bind_Ok; [|exact Hrun].
  - simpl. by rewrite Hperm, Helems.
  - split; [|done]. intros x Hx. rewrite Hperm, Helems in Hx.
    apply (heap_ordered_not_below below (Tr l v a b)); try done.
    + simpl. apply (swo_irrefl _ Hswo).
    + simpl. by right.
Qed.

(** Repeated [top] and [pop] deliver every element of a queue, none below a
    later one, and leave the queue empty: for a comparison that is a strict
    weak ordering and does not fail. *)
Theorem pop_order_is_sorted I s q t :
  answers_below below → strict_weak_order below → never_fails I → I (cmp_st s) →
  reachable s → contents s q t →
  ∃ s' vs, pop_order q s = (s', Ok vs) ∧
    vs ≡ₚ elems t ∧ descending below vs ∧ contents s' q Nil.
Proof.
  intros Hans Hswo HI Hcs Hr Hc.
  destruct (reachable_wf_with (heap_ordered below) s
    (maintained_heap_ordered below Hans (swo_asymmetric below Hswo)) Hr)
    as (sh & Hm & Hord).
  pose proof (contents_models _ _ _ _ Hm Hc) as Ht. destruct Hc as (o & Hq & _).
  destruct (drain_sorted I q Hans Hswo HI (base.size (nodes s)) sh s)
    as (s' & vs & sh' & Hrun & Hperm & Hdesc & Hm' & Hq' & Hnil); try done.
  { by apply Hord. }
  { pose proof (models_tsize_bound _ _ q Hm (mk_is_Some _ _ Hq)). lia. }
  exists s', vs. split_and!; [done|by rewrite <- Ht|done|].
  rewrite <- Hnil. by apply models_contents.
Qed.

(** Heap sort: on an empty queue of a reachable state, with memory for one
    node per element and a comparison that is a strict weak ordering and does
    not fail, [push] of the elements of a list followed by repeated [top] and
    [pop] delivers the elements of the list, none below a later one. *)
Theorem push_all_then_pop_sorts I s q xs ls rest :
  answers_below below → strict_weak_order below → never_fails I → I (cmp_st s) →
  reachable s → contents s q Nil →
  plan s = (inr <$> ls) ++ rest → length ls = length xs → NoDup ls →
  (∀ l, l ∈ ls → nodes s !! l = None ∧ valid_addr l = true) →
  ∃ s' vs, pop_order q (push_all q xs s) = (s', Ok vs) ∧
    vs ≡ₚ xs ∧ descending below vs.
Proof.
  intros Hans Hswo HI Hcs Hr Hc Hplan Hlen Hnd Hfresh.
  destruct (push_all_run I q HI xs s ls rest Nil Hr Hc Hcs Hplan Hlen Hnd Hfresh)
    as (t' & Hr' & Hc' & Hel & Hcs' & _).
  set (s1 := push_all q xs s) in *.
  destruct (reachable_wf_with (heap_ordered below) s1
    (maintained_heap_ordered below Hans (swo_asymmetric below Hswo)) Hr')
    as (sh & Hm & Hord).
  pose proof (contents_models _ _ _ _ Hm Hc') as Ht. destruct Hc' as (o & Hq & _).
  destruct (drain_sorted I q Hans Hswo HI (base.size (nodes s1)) sh s1)
    as (s' & vs & sh' & Hrun & Hperm & Hdesc & _); try done.
  { by apply Hord. }
  { pose proof (models_tsize_bound _ _ q Hm (mk_is_Some _ _ Hq)). lia. }
  exists s', vs. split_and!; [done| |done].
  rewrite Hperm, Ht, Hel. simpl. by rewrite app_nil_r.
Qed.

End sorted.

(** Nothing leaks: in every reachable state every live node is reachable from
    the root of a queue.  The states are reached by [push], [pop] and [merge]
    that return or throw, and by copies that return. *)
Theorem reachable_states_have_no_garbage s : reachable s → no_garbage s.
Proof.
  induction 1 as [cs pl|s q c Hr IH Hq|s o Hr IH Hv
    |s q other Hr IH Hq Ho Hok|s q other Hr IH Hq Ho Hok|s cs pl Hr IH].
  - intros l [n Hl]. simpl in Hl. by rewrite lookup_empty in Hl.
  - intros l Hl. destruct (IH l Hl) as (q' & pq & Hq' & Hreach).
    exists q', pq. split; [|done]. simpl. rewrite lookup_insert_ne; [done|].
    intros <-. congruence.
  - destruct (reachable_wf s Hr) as (sh & Hm).
    apply (run_op_tight sh); [done| |done]. by apply no_garbage_tight.
  - destruct (reachable_wf s Hr) as (sh & Hm).
    apply (copy_construct_tight sh); try done. by apply no_garbage_tight.
  - destruct (reachable_wf s Hr) as (sh & Hm).
    apply (assign_tight sh); try done. by apply no_garbage_tight.
  - done.
Qed.

(** The destructor either returns or ends the program: it is [noexcept], so
    a [std::bad_alloc] from the work stack of [clear_nodes] calls
    [std::terminate] and reaches no handler; it never faults.  When it
    returns it has freed the nodes of its queue and ended the object, the
    state is well formed, and a state without garbage stays so: when it was
    the last queue, no node is left.  Either way no node outside the queue
    and no other queue is touched.  With memory for the work stack it
    returns; on a queue that is not empty, when the next allocation is
    refused, it ends the program. *)
Theorem destroy_frees_queue s this t :
  wf s → contents s this t →
  ∃ s' r, destroy this s = (s', r) ∧
    (∀ l, l ∉ locs t → nodes s' !! l = nodes s !! l) ∧
    (∀ q, q ≠ this → queues s' !! q = queues s !! q) ∧
    (r = Terminated ∨
     (r = Returned tt ∧ queues s' !! this = None ∧
      (∀ l, l ∈ locs t → nodes s' !! l = None) ∧ wf s' ∧
      (no_garbage s → no_garbage s' ∧
         ((∀ q, q ≠ this → queues s !! q = None) → nodes s' = ∅)))) ∧
    (granted (tsize t) (plan s) → Z.of_nat (tsize t) < 2 ^ 59 → r = Returned tt) ∧
    (t ≠ Nil → ¬ granted 1 (plan s) → r = Terminated).
Proof.
  intros (sh & Hm) Hc.
  pose proof (contents_models _ _ _ _ Hm Hc) as Ht. destruct Hc as (o & Hq & _).
  destruct (destroy_run sh s this o Hm Hq)
    as (s' & r0 & Hrun & _ & Hout & Hr & Hmem & Hno).
  rewrite Ht in *. unfold destroy, noexcept. rewrite Hrun.
  destruct Hr as [[-> Hqs]|(-> & Hqs & Hfree & Hm')].
  { exists s', Terminated.
    split_and!; [done|done|by intros; rewrite Hqs|by left| |done].
    intros Hg Hsmall. by specialize (Hmem _ Hg (le_n _) Hsmall). }
  exists s', (Returned tt). split_and!; [done|done| | |done|].
  - intros q Hne. by rewrite Hqs, lookup_delete_ne.
  - right.
    split_and!; [done|by rewrite Hqs, lookup_delete_eq|done|by exists sh|].
    intros Hng.
    assert (Hng' : no_garbage s').
    { apply (no_garbage_tight sh s' Hm').
      apply (no_garbage_tight sh s Hm) in Hng.
      intros l Hl. destruct (decide (l ∈ locs t)) as [Hd|Hd].
      { rewrite (Hfree _ Hd) in Hl. by destruct Hl. }
      rewrite Hout in Hl by done. destruct (Hng l Hl) as (q & Hsome & Hin).
      exists q. split; [|done]. rewrite Hqs, lookup_delete_ne; [done|].
      intros <-. by rewrite Ht in Hin. }
    split; [done|]. intros Honly. apply map_eq. intros l. rewrite lookup_empty.
    destruct (nodes s' !! l) as [n|] eqn:Hl; [|done].
    destruct (Hng' l (mk_is_Some _ _ Hl)) as (q & pq & Hq' & _).
    rewrite Hqs in Hq'. destruct (decide (this = q)) as [<-|Hne].
    + by rewrite lookup_delete_eq in Hq'.
    + rewrite lookup_delete_ne, Honly in Hq' by done. done.
  - intros Hne Hng. by specialize (Hno Hne Hng).
Qed.

(** A copy pops like its source: after a copy-assignment or a copy
    construction that returned, repeated [top] and [pop] on the copy deliver
    what they deliver on the source, the same values in the same order, or
    the same exception, whatever the comparison does from the state it is
    in. *)
Theorem copy_pops_like_source s this other s' cs pl :
  wf s → is_Some (queues s !! other) →
  (this ≠ other ∧ is_Some (queues s !! this) ∧ assign this other s = (s', Ok tt)) ∨
  (queues s !! this = None ∧ copy_construct this other s = (s', Ok tt)) →
  (pop_order this (with_env cs pl s')).2 = (pop_order other (with_env cs pl s')).2.
Proof.
  intros (sh & Hm) [p Hp] Hcopy.
  assert (∃ t', this ≠ other ∧ same_values (sh other) t' ∧
    models (<[this:=t']> sh) s' ∧
    queues s' = <[this:=mkQueue (root_of t') (elementCount p) (comp p)]> (queues s))
    as (t' & Hne & Hsv & Hm' & Hqs).
  { destruct Hcopy as [(Hne & [o Ho] & Hrun)|[Hnone Hrun]].
    - destruct (assign_run sh s this other o p Hm Hne Ho Hp)
        as (s'' & r & Hrun' & _ & [(e & ->)|(-> & t' & Hsv & Hm' & Hqs & _)]);
        rewrite Hrun in Hrun'; [done|]. injection Hrun' as <-. by exists t'.
    - assert (Hne : this ≠ other) by (intros ->; congruence).
      destruct (copy_construct_run sh s this other p Hm Hnone Hp)
        as (s'' & r & Hrun' & _ & [(e & -> & _)|(-> & t' & Hsv & Hm' & Hqs & _)]);
        rewrite Hrun in Hrun'; [done|]. injection Hrun' as <-. by exists t'. }
  set (se := with_env cs pl s').
  assert (Hme : models (<[this:=t']> sh) se) by (by apply (models_env _ s')).
  assert (Hthis : queues se !! this
                  = Some (mkQueue (root_of t') (elementCount p) (comp p))).
  { simpl. by rewrite Hqs, lookup_insert_eq. }
  assert (Hother : queues se !! other = Some p).
  { simpl. by rewrite Hqs, lookup_insert_ne. }
  unfold pop_order.
  destruct (drain_run this (base.size (nodes se)) _ se _ Hme Hthis)
    as (s1 & r1 & -> & _ & Hr1).
  destruct (drain_run other (base.size (nodes se)) _ se _ Hme Hother)
    as (s2 & r2 & -> & _ & Hr2).
  rewrite fn_lookup_insert in Hr1. rewrite fn_lookup_insert_ne in Hr2 by done.
  simpl in Hr1, Hr2.
  rewrite <- (drain_tree_same_values _ _ _ _ _ Hsv) in Hr1.
  destruct (drain_tree (base.size (nodes s')) (comp p) cs (sh other)) as [cs' [e|vs]];
    simpl in *; congruence.
Qed.

End priority_queue.

(** ** Concrete queues of integers *)

(** A comparison instrumented to fail: [std::less] on integers, with a budget
    of calls as its state; the call made on an empty budget throws. *)
Definition budget_less (c : unit) (budget : nat) (x y : Z) : nat * (exn + bool) :=
  match budget with
  | O => (O, inl (user_exn false 7))
  | S n => (n, inr (x <? y))
  end.

(** [std::less] on integers. *)
Definition less (c : unit) (cs : unit) (x y : Z) : unit * (exn + bool) :=
  (cs, inr (x <? y)).

(** [std::less_equal] on integers, which is not a strict ordering. *)
Definition less_equal (c : unit) (cs : unit) (x y : Z) : unit * (exn + bool) :=
  (cs, inr (x <=? y)).

(** One queue, at address 0, after [push(5)] and [push(3)]. *)
Definition ex_init : @state Z unit nat :=
  mkState ∅ ∅ 10%nat [inr 1%positive; inr 2%positive; inr 3%positive; inr 4%positive].
Definition ex_one : state :=
  (run_op budget_less (Push 0%nat 3)
     (run_op budget_less (Push 0%nat 5) (construct 0%nat tt ex_init).1).1).1.

(** A second queue, at address 1, after [push(10)] and [push(2)]. *)
Definition ex_two : state :=
  (run_op budget_less (Push 1%nat 2)
     (run_op budget_less (Push 1%nat 10) (construct 1%nat tt ex_one).1).1).1.


(** With [std::less_equal], after [push(1)] twice, the second node is the
    root, the first its left child, and the comparison reports the root
    below its child. *)
Definition ex_le_init : @state Z unit unit :=
  mkState ∅ ∅ tt [inr 1%positive; inr 2%positive].
Definition ex_le : state :=
  (run_op less_equal (Push 0%nat 1)
     (run_op less_equal (Push 0%nat 1) (construct 0%nat tt ex_le_init).1).1).1.

Definition ex_tree0 : tree (T:=Z) :=
  Tr 1%positive 5 (Tr 2%positive 3 Nil Nil) Nil.
Definition ex_tree1 : tree (T:=Z) :=
  Tr 3%positive 10 (Tr 4%positive 2 Nil Nil) Nil.

(** Copy-assignment of the second queue to the first when memory runs out
    after one node of the clone. *)
Definition ex_no_memory : state :=
  with_env 0%nat [inr 7%positive; inl bad_alloc; inl bad_alloc] ex_two.

(** A third queue, at address 2, just constructed. *)
Definition ex_three : state := (construct 2%nat tt ex_two).1.

(** One allocation fails, of the second node of a clone; the work stack of
    the cleanup gets its memory. *)
Definition ex_one_failure : state :=
  with_env 0%nat [inr 7%positive; inl bad_alloc; inr 9%positive] ex_two.

(** Memory for four allocations: the two nodes of a clone, and two for the
    work stack of [clear_nodes]. *)
Definition ex_memory : state :=
  with_env 0%nat [inr 7%positive; inr 8%positive; inr 9%positive; inr 10%positive]
    ex_two.

(** The first queue after it has been assigned the second. *)
Definition ex_assigned : state := (assign 0%nat 1%nat ex_memory).1.

(** [k] rounds of [push(2k)] and [push(2k - 1)] on the queue at address 0:
    each round puts a new root above the tree and a leaf to its left, so
    that the tree is a right spine of [k] nodes with a leaf at every node. *)
Fixpoint ex_spine_pushes (k : nat) (s : @state Z unit unit) : state :=
  match k with
  | O => s
  | S k' =>
      (run_op less (Push 0%nat (2 * Z.of_nat k - 1))
         (run_op less (Push 0%nat (2 * Z.of_nat k)) (ex_spine_pushes k' s)).1).1
  end.

Definition ex_spine_init : @state Z unit unit :=
  mkState ∅ ∅ tt (inr <$> (Pos.of_nat <$> seq 1 2048)).

(** Two queues: the one at address 0 holds 2048 elements, the one at address
    1 is empty. *)
Definition ex_spine : state :=
  ex_spine_pushes 1024 (construct 1%nat tt (construct 0%nat tt ex_spine_init).1).1.

(** The two queues with five comparisons and one allocation to go. *)
Definition ex_ready : state := with_env 5%nat [inr 7%positive] ex_two.

(** A queue, at address 0, with [std::less], after [push] of 5, 3, 8, 1. *)
Definition ex_less_init : @state Z unit unit :=
  mkState ∅ ∅ tt (inr <$> (Pos.of_nat <$> seq 1 4)).
Definition ex_less : state :=
  (run_op less (Push 0%nat 1) (run_op less (Push 0%nat 8) (run_op less (Push 0%nat 3)
     (run_op less (Push 0%nat 5) (construct 0%nat tt ex_less_init).1).1).1).1).1.

(** *** The claims on these queues *)

Lemma budget_less_answers : answers_below budget_less Z.ltb.
Proof. intros c [|n] x y cs' b; simpl; congruence. Qed.

Lemma ltb_strict_weak_order : strict_weak_order Z.ltb.
Proof. split; intros; lia. Qed.

Lemma pair_snd_eq {A B} (x : A * B) (b : B) : x.2 = b → x = (x.1, b).
Proof. destruct x. simpl. by intros ->. Qed.

Lemma ex_one_reachable : reachable budget_less ex_one.
Proof.
  unfold ex_one.
  apply reachable_op; [apply reachable_op; [apply reachable_construct|]|].
  - apply reachable_init.
  - reflexivity.
  - eexists. vm_compute. reflexivity.
  - eexists. vm_compute. reflexivity.
Qed.

Lemma ex_two_reachable : reachable budget_less ex_two.
Proof.
  unfold ex_two.
  apply reachable_op; [apply reachable_op; [apply reachable_construct|]|].
  - apply ex_one_reachable.
  - vm_compute. reflexivity.
  - eexists. vm_compute. reflexivity.
  - eexists. vm_compute. reflexivity.
Qed.


Lemma top_is_maximum_witness :
  ∃ l n, root (mkQueue (Some 1%positive) 2 tt) = Some l ∧
    nodes ex_one !! l = Some n ∧
    top 0%nat ex_one = (ex_one, Ok (value n)) ∧
    ∀ x nx, reach (nodes ex_one) (Some 1%positive) x →
            nodes ex_one !! x = Some nx → (value n <? value nx) = false.
Proof.
  apply (top_is_maximum budget_less Z.ltb ex_one 0%nat (mkQueue (Some 1%positive) 2 tt)).
  - apply budget_less_answers.
  - apply ltb_strict_weak_order.
  - apply ex_one_reachable.
  - vm_compute. reflexivity.
  - simpl. lia.
Defined.


Lemma ex_le_reachable : reachable less_equal ex_le.
Proof.
  unfold ex_le.
  apply reachable_op; [apply reachable_op; [apply reachable_construct|]|].
  - apply reachable_init.
  - reflexivity.
  - eexists. vm_compute. reflexivity.
  - eexists. vm_compute. reflexivity.
Qed.

(** Outside that assumption the invariant is not kept: [std::less_equal] is
    no strict weak ordering, and two equal elements break it. *)
Lemma heap_order_fails_for_less_equal :
  ¬ (∀ s, reachable less_equal s → heap_order_holds less_equal s).
Proof.
  intros H.
  assert (true = false) as Habs; [|discriminate Habs].
  eapply (H ex_le ex_le_reachable 0%nat (mkQueue (Some 2%positive) 2 tt)
    2%positive (mkNode 1 (Some 1%positive) None)
    1%positive (mkNode 1 None None)).
  - vm_compute. reflexivity.
  - eapply reach_here. vm_compute. reflexivity.
  - vm_compute. reflexivity.
  - left. reflexivity.
  - vm_compute. reflexivity.
  - reflexivity.
Qed.

Lemma ex_two_contents0 : contents ex_two 0%nat ex_tree0.
Proof.
  eexists. split_and!; [vm_compute; reflexivity|reflexivity|].
  simpl. split_and!; try done; vm_compute; reflexivity.
Qed.

Lemma ex_two_contents1 : contents ex_two 1%nat ex_tree1.
Proof.
  eexists. split_and!; [vm_compute; reflexivity|reflexivity|].
  simpl. split_and!; try done; vm_compute; reflexivity.
Qed.

Lemma merge_moves_every_element_witness :
  ∃ s' t', merge budget_less 0%nat 1%nat ex_two = (s', Ok tt) ∧
    contents s' 0%nat t' ∧ elems t' ≡ₚ [5; 3; 10; 2] ∧
    (size 0%nat s').2 = Ok 4 ∧ (empty 1%nat s').2 = Ok true.
Proof.
  destruct (merge_moves_every_element budget_less ex_two 0%nat 1%nat
    ex_tree0 ex_tree1) as [[(s' & e & Hrun & _)|Hok] _].
  - apply (reachable_wf budget_less), ex_two_reachable.
  - done.
  - apply ex_two_contents0.
  - apply ex_two_contents1.
  - apply (f_equal snd) in Hrun. vm_compute in Hrun. discriminate Hrun.
  - destruct Hok as (s' & t' & na & nb & Hrun & Hc & _ & He & Ha & Hb & Hs & _ & Hemp).
    exists s', t'. split_and!; [exact Hrun|exact Hc|exact He| |exact Hemp].
    vm_compute in Ha, Hb. injection Ha as <-. injection Hb as <-. exact Hs.
Defined.

Lemma merge_nodes_is_skew_merge_witness :
  run_as (merge_nodes budget_less tt (Some 1%positive) (Some 3%positive)) ex_two
    (locs ex_tree0 ++ locs ex_tree1)
    (skew_merge budget_less tt (cmp_st ex_two) ex_tree0 ex_tree1).
Proof.
  refine (proj1 (merge_nodes_is_skew_merge budget_less tt
    1%positive 5 (Tr 2%positive 3 Nil Nil) Nil
    3%positive 10 (Tr 4%positive 2 Nil Nil) Nil ex_two _ _ _)).
  - simpl. split_and!; try done; vm_compute; reflexivity.
  - simpl. split_and!; try done; vm_compute; reflexivity.
  - refine (bool_decide_unpack _ _). vm_compute. exact I.
Defined.

Lemma assign_clone_failure_keeps_destination_witness :
  ∃ s1, assign 0%nat 1%nat ex_no_memory = (s1, Throw bad_alloc) ∧
        queues s1 = queues ex_no_memory ∧
        contents s1 0%nat ex_tree0.
Proof.
  destruct (assign_clone_failure_keeps_destination ex_no_memory 0%nat 1%nat
    (mkQueue (Some 3%positive) 2 tt)
    (clone_nodes (Some 3%positive) ex_no_memory).1 bad_alloc)
    as (Ha & Hq & _ & Hc).
  - done.
  - vm_compute. reflexivity.
  - apply pair_snd_eq. vm_compute. reflexivity.
  - eexists. split_and!; [exact Ha|exact Hq|]. apply Hc, ex_two_contents0.
Defined.

(** C9 fails on the code.  [clone_nodes] has allocated the copy of the root
    at address 7 when the allocation for the copy of its child fails; the
    handler calls [clear_nodes], whose first statement allocates its work
    stack; that allocation fails as well, the exception leaves the handler,
    and the node at address 7, which no queue owns, is still allocated. *)
Example clone_failure_leaks_node :
  (clone_nodes (Some 3%positive) ex_no_memory).2 = Throw bad_alloc ∧
  nodes ex_no_memory !! 7%positive = None ∧
  nodes (clone_nodes (Some 3%positive) ex_no_memory).1 !! 7%positive
    = Some (mkNode 10 None None) ∧
  queues (clone_nodes (Some 3%positive) ex_no_memory).1 = queues ex_no_memory.
Proof. split_and!; vm_compute; reflexivity. Qed.

Lemma count_is_number_of_reachable_nodes_witness :
  (∃ ls, NoDup ls ∧ (∀ x, x ∈ ls ↔ reach (nodes ex_one) (Some 1%positive) x) ∧
         2 = Z.of_nat (length ls)) ∧
  (Some 1%positive = None ↔ 2 = 0).
Proof.
  apply (count_is_number_of_reachable_nodes budget_less ex_one 0%nat
    (mkQueue (Some 1%positive) 2 tt)).
  - apply ex_one_reachable.
  - vm_compute. reflexivity.
Defined.

Lemma ex_three_reachable : reachable budget_less ex_three.
Proof.
  apply reachable_construct; [apply ex_two_reachable|]. vm_compute. reflexivity.
Qed.

Lemma empty_queue_is_reported_witness :
  top 2%nat ex_three = (ex_three, Throw container_is_empty) ∧
  pop budget_less 2%nat ex_three = (ex_three, Throw container_is_empty).
Proof.
  apply (empty_queue_is_reported budget_less ex_three 2%nat (mkQueue None 0 tt)).
  - vm_compute. reflexivity.
  - reflexivity.
Defined.

Lemma push_without_memory_witness :
  push budget_less 0%nat 8 ex_two = (ex_two, Throw runtime_error).
Proof.
  apply (push_without_memory budget_less ex_two 0%nat 8 ex_two bad_alloc).
  vm_compute. reflexivity.
Defined.

Lemma clone_keeps_live_nodes_witness :
  queues (clone_nodes (Some 3%positive) ex_no_memory).1 = queues ex_no_memory.
Proof.
  apply (clone_keeps_live_nodes (Some 3%positive) ex_no_memory _
    (clone_nodes (Some 3%positive) ex_no_memory).2).
  apply surjective_pairing.
Defined.

Lemma ex_memory_wf : wf ex_memory.
Proof. apply (reachable_wf budget_less), reachable_env, ex_two_reachable. Qed.

Lemma ex_assigned_reachable : reachable budget_less ex_assigned.
Proof.
  apply reachable_assign.
  - apply reachable_env, ex_two_reachable.
  - eexists. vm_compute. reflexivity.
  - eexists. vm_compute. reflexivity.
  - vm_compute. reflexivity.
Qed.

Lemma queues_share_no_node_witness :
  ¬ reach (nodes ex_assigned) (Some 3%positive) 8%positive.
Proof.
  apply (queues_share_no_node budget_less ex_assigned 0%nat 1%nat
    (mkQueue (Some 7%positive) 2 tt) (mkQueue (Some 3%positive) 2 tt)).
  - apply ex_assigned_reachable.
  - done.
  - vm_compute. reflexivity.
  - vm_compute. reflexivity.
  - eapply reach_left; [vm_compute; reflexivity|].
    eapply reach_here. vm_compute. reflexivity.
Defined.

Lemma ex_tree_NoDup : NoDup (locs ex_tree0) ∧ NoDup (locs ex_tree1).
Proof. split; refine (bool_decide_unpack _ _); vm_compute; exact I. Qed.


Lemma clone_nodes_copies_tree_witness :
  ∃ s' r, clone_nodes (Some 3%positive) ex_memory = (s', r) ∧
    queues s' = queues ex_memory ∧ stored (nodes s') ex_tree1 ∧
    ((∃ e, r = Throw e) ∨
     ∃ t', r = Ok (root_of t') ∧ same_values ex_tree1 t' ∧ elems t' = [10; 2] ∧
           stored (nodes s') t' ∧ NoDup (locs t' ++ locs ex_tree1)).
Proof.
  apply (clone_nodes_copies_tree ex_tree1 ex_memory).
  - destruct ex_two_contents1 as (o & _ & _ & Hst). exact Hst.
  - apply ex_tree_NoDup.
Defined.

Lemma assign_copies_source_witness :
  ∃ s' t', assign 0%nat 1%nat ex_memory = (s', Ok tt) ∧
    contents s' 0%nat t' ∧ elems t' = [10; 2] ∧ contents s' 1%nat ex_tree1 ∧
    (size 0%nat s').2 = Ok 2 ∧ nodes s' !! 1%positive = None.
Proof.
  destruct (assign_copies_source ex_memory 0%nat 1%nat ex_tree0 ex_tree1)
    as (s' & r & Hrun & [[e ->]|(-> & _ & t' & Hc & _ & He & Hc1 & Hs & _ & Hfree)]).
  - apply ex_memory_wf.
  - done.
  - apply ex_two_contents0.
  - apply ex_two_contents1.
  - apply (f_equal snd) in Hrun. vm_compute in Hrun. discriminate Hrun.
  - exists s', t'. split_and!; [exact Hrun|exact Hc|exact He|exact Hc1|exact Hs|].
    apply Hfree. left.
Defined.

Lemma clone_single_failure_frees_copy_witness :
  ∃ s', clone_nodes (Some 3%positive) ex_one_failure = (s', Throw bad_alloc) ∧
    nodes s' = nodes ex_one_failure ∧
    assign 0%nat 1%nat ex_one_failure = (s', Throw bad_alloc).
Proof.
  destruct (clone_single_failure_frees_copy ex_tree1 ex_one_failure
    [7%positive] bad_alloc [inr 9%positive]) as (s' & Hrun & Hn & _ & Hassign).
  - destruct ex_two_contents1 as (o & _ & _ & Hst). exact Hst.
  - apply ex_tree_NoDup.
  - reflexivity.
  - vm_compute. lia.
  - apply NoDup_singleton.
  - intros l ->%list_elem_of_singleton. split; vm_compute; reflexivity.
  - vm_compute. reflexivity.
  - simpl. exact I.
  - exists s'. split_and!; [exact Hrun|exact Hn|].
    apply (Hassign 0%nat 1%nat (mkQueue (Some 3%positive) 2 tt)).
    + done.
    + vm_compute. reflexivity.
    + reflexivity.
Defined.

Lemma ex_memory_fresh (l : loc) :
  l ∈ [7%positive; 8%positive] →
  nodes ex_memory !! l = None ∧ valid_addr l = true.
Proof.
  intros [->|[->|[]%elem_of_nil]%elem_of_cons]%elem_of_cons;
    split; vm_compute; reflexivity.
Qed.

Lemma assign_succeeds_with_memory_witness :
  ∃ s', assign 0%nat 1%nat ex_memory = (s', Ok tt).
Proof.
  apply (assign_succeeds_with_memory ex_memory 0%nat 1%nat ex_tree0 ex_tree1
    [7%positive; 8%positive] [inr 9%positive; inr 10%positive]).
  - apply ex_memory_wf.
  - done.
  - apply ex_two_contents0.
  - apply ex_two_contents1.
  - reflexivity.
  - reflexivity.
  - refine (bool_decide_unpack _ _). vm_compute. exact I.
  - apply ex_memory_fresh.
  - simpl. exact I.
  - vm_compute. reflexivity.
Defined.

Lemma copy_construct_succeeds_with_memory_witness :
  ∃ s', copy_construct 2%nat 1%nat ex_memory = (s', Ok tt) ∧
        plan s' = [inr 9%positive; inr 10%positive].
Proof.
  apply (copy_construct_succeeds_with_memory ex_memory 2%nat 1%nat ex_tree1
    [7%positive; 8%positive] [inr 9%positive; inr 10%positive]).
  - apply ex_memory_wf.
  - vm_compute. reflexivity.
  - apply ex_two_contents1.
  - reflexivity.
  - reflexivity.
  - refine (bool_decide_unpack _ _). vm_compute. exact I.
  - apply ex_memory_fresh.
Defined.

Lemma copy_construct_copies_source_witness :
  ∃ s' t', copy_construct 2%nat 1%nat ex_memory = (s', Ok tt) ∧
    contents s' 2%nat t' ∧ elems t' = [10; 2] ∧ contents s' 1%nat ex_tree1 ∧
    (size 2%nat s').2 = Ok 2.
Proof.
  destruct (copy_construct_copies_source ex_memory 2%nat 1%nat ex_tree1)
    as (s' & r & Hrun & [(e & -> & _)|(-> & _ & t' & Hc & _ & He & Hc1 & Hs & _)]).
  - apply ex_memory_wf.
  - vm_compute. reflexivity.
  - apply ex_two_contents1.
  - apply (f_equal snd) in Hrun. vm_compute in Hrun. discriminate Hrun.
  - exists s', t'. split_and!; [exact Hrun|exact Hc|exact He|exact Hc1|exact Hs].
Defined.

Lemma merge_with_empty_queue_witness :
  ∃ s', merge budget_less 0%nat 2%nat ex_three = (s', Ok tt) ∧
    nodes s' = nodes ex_three ∧ cmp_st s' = cmp_st ex_three ∧
    contents s' 0%nat ex_tree0 ∧ contents s' 2%nat Nil.
Proof.
  apply (merge_with_empty_queue budget_less ex_three 0%nat 2%nat ex_tree0).
  - apply (reachable_wf budget_less), ex_three_reachable.
  - done.
  - left. split.
    + eexists. split_and!; [vm_compute; reflexivity|reflexivity|].
      simpl. split_and!; try done; vm_compute; reflexivity.
    + eexists. split_and!; [vm_compute; reflexivity|reflexivity|done].
Defined.

(** The scenario of the specification: push 5, 3, 8, 1; the top is 8; after a
    pop the top is 5 and the size 3; a second queue holds 10 and 2; after the
    merge the top is 10, the first queue has 5 elements and the second is
    empty. *)
Example end_to_end_scenario :
  let s0 : state := mkState ∅ ∅ tt (inr <$> (Pos.of_nat <$> seq 1 6)) in
  let run (o : op) (s : state) := (run_op less o s).1 in
  let s1 := run (Push 0%nat 1) (run (Push 0%nat 8) (run (Push 0%nat 3)
              (run (Push 0%nat 5) (construct 0%nat tt s0).1))) in
  let s2 := run (Pop 0%nat) s1 in
  let s3 := run (Push 1%nat 2) (run (Push 1%nat 10) (construct 1%nat tt s2).1) in
  let s4 := run (Merge 0%nat 1%nat) s3 in
  (top 0%nat s1).2 = Ok 8 ∧
  (top 0%nat s2).2 = Ok 5 ∧ (size 0%nat s2).2 = Ok 3 ∧
  (top 0%nat s4).2 = Ok 10 ∧ (size 0%nat s4).2 = Ok 5 ∧
  (empty 1%nat s4).2 = Ok true.
Proof. split_and!; vm_compute; reflexivity. Qed.

Lemma ex_spine_pushes_reachable k s :
  reachable less s → is_Some (queues s !! 0%nat) →
  reachable less (ex_spine_pushes k s) ∧
  is_Some (queues (ex_spine_pushes k s) !! 0%nat).
Proof.
  intros Hr Hq. induction k as [|k [IHr IHq]]; simpl; [done|].
  assert (Hstep : ∀ s' x, reachable less s' → is_Some (queues s' !! 0%nat) →
    reachable less (run_op less (Push 0%nat x) s').1 ∧
    is_Some (queues (run_op less (Push 0%nat x) s').1 !! 0%nat)).
  { intros s' x Hr' Hq'. split; [by apply reachable_op|].
    apply elem_of_dom. rewrite (run_op_queues_dom less); [by apply elem_of_dom| |done].
    by apply (reachable_wf less). }
  destruct (Hstep _ (2 * Z.of_nat (S k)) IHr IHq) as [Hr1 Hq1].
  by apply Hstep.
Qed.

Lemma ex_spine_reachable : reachable less ex_spine.
Proof.
  apply ex_spine_pushes_reachable.
  - apply reachable_construct; [apply reachable_construct|].
    + apply reachable_init.
    + reflexivity.
    + vm_compute. reflexivity.
  - eexists. vm_compute. reflexivity.
Qed.

(** C5 fails on the code.  The queue at address 0 is assigned the empty queue
    at address 1, with memory for the first work stack of [clear_nodes] and
    none after.  [operator=] calls [clear_nodes(root)]; the loop has freed
    the root and 1021 more nodes when 1023 entries are pending and the stack
    must grow; [new Node*[newCap]] throws, and the exception leaves
    [operator=] with [root] still pointing to the freed root node and
    [elementCount] still 2048: no node is reachable from the root, and the
    count is not zero. *)
Example assign_teardown_failure_breaks_count :
  reachable less (with_env tt [inr 1%positive] ex_spine) ∧
  let r := assign 0%nat 1%nat (with_env tt [inr 1%positive] ex_spine) in
  r.2 = Throw bad_alloc ∧
  ∃ pq l, queues r.1 !! 0%nat = Some pq ∧
    root pq = Some l ∧ nodes r.1 !! l = None ∧
    elementCount pq = 2048 ∧
    (∀ x, ¬ reach (nodes r.1) (root pq) x).
Proof.
  split; [apply reachable_env, ex_spine_reachable|].
  split; [vm_compute; reflexivity|].
  eexists _, _. split_and!.
  - vm_compute. reflexivity.
  - reflexivity.
  - vm_compute. reflexivity.
  - reflexivity.
  - simpl root. intros x Hreach.
    assert (Hl : nodes (assign 0%nat 1%nat (with_env tt [inr 1%positive] ex_spine)).1
                   !! 2047%positive = None) by (vm_compute; reflexivity).
    inversion Hreach; congruence.
Qed.

Lemma ex_ready_wf : wf ex_ready.
Proof. apply (reachable_wf budget_less), reachable_env, ex_two_reachable. Qed.

Lemma ex_ready_contents0 : contents ex_ready 0%nat ex_tree0.
Proof. exact ex_two_contents0. Qed.

Lemma ex_ready_contents1 : contents ex_ready 1%nat ex_tree1.
Proof. exact ex_two_contents1. Qed.

Lemma push_adds_element_witness :
  ∃ t', contents (push budget_less 0%nat 4 ex_ready).1 0%nat t' ∧
    elems t' ≡ₚ [4; 5; 3] ∧
    (size 0%nat (push budget_less 0%nat 4 ex_ready).1).2 = Ok 3.
Proof.
  destruct (push_adds_element budget_less ex_ready 0%nat 4 ex_tree0
    (push budget_less 0%nat 4 ex_ready).1) as (t' & Hc & He & _ & Hs & _).
  - apply ex_ready_wf.
  - apply ex_ready_contents0.
  - apply pair_snd_eq. vm_compute. reflexivity.
  - exists t'. split_and!; [exact Hc|exact He|exact Hs].
Defined.

Lemma pop_removes_top_witness :
  ∃ v t', top 0%nat ex_ready = (ex_ready, Ok v) ∧
    contents (pop budget_less 0%nat ex_ready).1 0%nat t' ∧
    [5; 3] ≡ₚ v :: elems t' ∧
    (size 0%nat (pop budget_less 0%nat ex_ready).1).2 = Ok 1 ∧
    nodes (pop budget_less 0%nat ex_ready).1 !! 1%positive = None.
Proof.
  destruct (pop_removes_top budget_less ex_ready 0%nat ex_tree0
    (pop budget_less 0%nat ex_ready).1) as (v & t' & Ht & Hc & He & Hs & Hfree & _).
  - apply ex_ready_wf.
  - apply ex_ready_contents0.
  - apply pair_snd_eq. vm_compute. reflexivity.
  - exists v, t'. split_and!; [exact Ht|exact Hc|exact He|exact Hs|].
    apply Hfree. reflexivity.
Defined.

Lemma top_after_push_witness :
  (top 0%nat (push budget_less 0%nat 4 ex_ready).1).2 = Ok 5 ∧
  (top 0%nat (push budget_less 0%nat 9 ex_ready).1).2 = Ok 9.
Proof.
  split.
  - pose proof (top_after_push budget_less ex_ready 0%nat
      (mkQueue (Some 1%positive) 2 tt) 4 (push budget_less 0%nat 4 ex_ready).1) as H.
    assert (Htop : (top 0%nat ex_ready).2 = Ok 5) by (vm_compute; reflexivity).
    rewrite Htop in H.
    destruct H as (cs1 & b & Hcall & Hres).
    + apply ex_ready_wf.
    + vm_compute. reflexivity.
    + apply pair_snd_eq. vm_compute. reflexivity.
    + vm_compute in Hcall. injection Hcall as _ <-. exact Hres.
  - pose proof (top_after_push budget_less ex_ready 0%nat
      (mkQueue (Some 1%positive) 2 tt) 9 (push budget_less 0%nat 9 ex_ready).1) as H.
    assert (Htop : (top 0%nat ex_ready).2 = Ok 5) by (vm_compute; reflexivity).
    rewrite Htop in H.
    destruct H as (cs1 & b & Hcall & Hres).
    + apply ex_ready_wf.
    + vm_compute. reflexivity.
    + apply pair_snd_eq. vm_compute. reflexivity.
    + vm_compute in Hcall. injection Hcall as _ <-. exact Hres.
Defined.

Lemma operations_are_memory_safe_witness :
  (run_op budget_less (Pop 2%nat) ex_three).2 = Ok tt ∨
  ∃ e, (run_op budget_less (Pop 2%nat) ex_three).2 = Throw e ∧
       (e = container_is_empty ∨ is_runtime_error e = true).
Proof.
  apply (operations_are_memory_safe budget_less ex_three (Pop 2%nat)).
  - apply (reachable_wf budget_less), ex_three_reachable.
  - eexists. vm_compute. reflexivity.
Defined.

Lemma operations_leave_other_queues_alone_witness :
  queues (run_op budget_less (Push 0%nat 4) ex_ready).1 !! 1%nat
    = Some (mkQueue (Some 3%positive) 2 tt) ∧
  contents (run_op budget_less (Push 0%nat 4) ex_ready).1 1%nat ex_tree1.
Proof.
  apply (operations_leave_other_queues_alone budget_less ex_ready (Push 0%nat 4)).
  - apply ex_ready_wf.
  - eexists. vm_compute. reflexivity.
  - simpl. apply not_elem_of_cons. split; [done|apply not_elem_of_nil].
  - vm_compute. reflexivity.
  - apply ex_ready_contents1.
Defined.

Lemma less_answers : answers_below less Z.ltb.
Proof. intros c cs x y cs' b. unfold less. congruence. Qed.

Lemma less_never_fails : never_fails less (λ _, True).
Proof. intros c cs x y _. by eexists _, _. Qed.

Lemma ex_less_reachable : reachable less ex_less.
Proof.
  unfold ex_less. repeat (apply reachable_op; [|eexists; vm_compute; reflexivity]).
  apply reachable_construct; [apply reachable_init|reflexivity].
Qed.

Lemma pop_order_is_sorted_witness :
  ∃ s' vs, pop_order less 0%nat ex_less = (s', Ok vs) ∧
    vs ≡ₚ [8; 1; 5; 3] ∧ descending Z.ltb vs ∧ contents s' 0%nat Nil.
Proof.
  apply (pop_order_is_sorted less Z.ltb (λ _, True) ex_less 0%nat
    (Tr 3%positive 8 (Tr 4%positive 1 Nil Nil)
       (Tr 1%positive 5 (Tr 2%positive 3 Nil Nil) Nil))).
  - apply less_answers.
  - apply ltb_strict_weak_order.
  - apply less_never_fails.
  - exact I.
  - apply ex_less_reachable.
  - eexists. split_and!; [vm_compute; reflexivity|reflexivity|].
    simpl. split_and!; try done; vm_compute; reflexivity.
Defined.

Lemma reachable_states_have_no_garbage_witness : no_garbage ex_assigned.
Proof.
  apply (reachable_states_have_no_garbage budget_less), ex_assigned_reachable.
Defined.

Lemma destroy_frees_queue_witness :
  (∃ s', destroy 0%nat ex_memory = (s', Returned tt) ∧
     queues s' !! 0%nat = None ∧ nodes s' !! 1%positive = None ∧
     contents s' 1%nat ex_tree1) ∧
  (destroy 0%nat (with_env 0%nat [inl bad_alloc] ex_two)).2 = Terminated.
Proof.
  split.
  - destruct (destroy_frees_queue ex_memory 0%nat ex_tree0)
      as (s' & r & Hrun & Hout & Hqs & Hr & Hmem & _).
    + apply ex_memory_wf.
    + apply ex_two_contents0.
    + assert (r = Returned tt) as ->
        by (apply Hmem; [simpl; exact I|vm_compute; reflexivity]).
      destruct Hr as [?|(_ & Hnone & Hfree & _)]; [done|].
      exists s'. split_and!; [exact Hrun|exact Hnone|apply Hfree; left|].
      destruct ex_two_contents1 as (o & Hq & Hroot & Hst).
      exists o. split_and!; [by rewrite Hqs|exact Hroot|].
      eapply (stored_agree (nodes ex_memory)); [|exact Hst].
      intros l Hl. apply Hout. intros Hin.
      revert Hl Hin. simpl. rewrite !elem_of_cons, !elem_of_nil. intuition congruence.
  - destruct (destroy_frees_queue (with_env 0%nat [inl bad_alloc] ex_two) 0%nat ex_tree0)
      as (s' & r & Hrun & _ & _ & _ & _ & Hno).
    + apply (reachable_wf budget_less), reachable_env, ex_two_reachable.
    + exact ex_two_contents0.
    + rewrite Hrun. simpl. apply Hno; [done|]. simpl. tauto.
Defined.

Lemma copy_pops_like_source_witness :
  (pop_order budget_less 0%nat (with_env 5%nat [] ex_assigned)).2
  = (pop_order budget_less 1%nat (with_env 5%nat [] ex_assigned)).2.
Proof.
  apply (copy_pops_like_source budget_less ex_memory 0%nat 1%nat ex_assigned 5%nat []).
  - apply ex_memory_wf.
  - eexists. vm_compute. reflexivity.
  - left. split_and!; [done|eexists; vm_compute; reflexivity|].
    apply pair_snd_eq. vm_compute. reflexivity.
Defined.

Lemma push_all_then_pop_sorts_witness :
  ∃ s' vs, pop_order less 0%nat
             (push_all less 0%nat [5; 3; 8; 1] (construct 0%nat tt ex_less_init).1)
           = (s', Ok vs) ∧
    vs ≡ₚ [5; 3; 8; 1] ∧ descending Z.ltb vs.
Proof.
  apply (push_all_then_pop_sorts less Z.ltb (λ _, True)
    (construct 0%nat tt ex_less_init).1 0%nat [5; 3; 8; 1]
    (Pos.of_nat <$> seq 1 4) []).
  - apply less_answers.
  - apply ltb_strict_weak_order.
  - apply less_never_fails.
  - exact I.
  - apply reachable_construct; [apply reachable_init|reflexivity].
  - eexists. split_and!; [vm_compute; reflexivity|reflexivity|done].
  - reflexivity.
  - reflexivity.
  - refine (bool_decide_unpack _ _). vm_compute. exact I.
  - intros l Hl. split; [reflexivity|].
    revert Hl. simpl. rewrite !elem_of_cons, elem_of_nil.
    intros [->|[->|[->|[->|[]]]]]; vm_compute; reflexivity.
Defined.

End sjtu.
